(** * llm-rpg: the simulation core of the two server variants

    A shallow embedding of the leveling engine, the life-story recorder,
    the world clock and the action processor of the LLM RPG server, in its
    richer variant (energy, conversation fatigue, day and night) and in its
    simpler variant, followed by the properties of the specification.
    Part III adds the view of the look route, the settings route and the
    maintenance scripts (milestone cleanup, cooldown reset, summary sync),
    with properties of the code beyond the specification.

    Conventions of the embedding.
    - The PostgreSQL store is a record of tables.  [characters] and
      [objects] are lists in scan order, because the handlers read them
      with [LIMIT 1]; [relationships] has the primary key
      [(char1_id, char2_id)] and is a finite map on that pair.
    - INTEGER and BIGINT columns are modelled as [Z]; the range checks of
      the column types are not modelled.  A column the code reads through
      [COALESCE] or [||] is an [option] ([None] is SQL NULL).
    - node-postgres hands an INTEGER column to JavaScript as a number and
      a BIGINT column ([tick], [last_action_tick], [cooldown_until_tick])
      as the text of its decimal digits.  [-], [%] and a comparison with a
      number convert the text to the number; [+] appends to the text
      ([Text.text_plus]) and [>] between two such texts compares them
      character by character ([Rich.on_cooldown]).
    - A [string] stands for a JavaScript string, one character per UTF-16
      code unit.  Lower-casing is the ASCII one.
    - Wall-clock columns (created_at, last_seen_at, timestamp) and the
      emoji column are left out: no decision of the core reads them. *)

From Stdlib Require Import ZArith String Ascii List Lia DecimalString.
From Stdlib Require DecimalFacts DecimalPos DecimalN.
From stdpp Require Import base list strings gmap.

Open Scope Z_scope.

(* ================================================================== *)
(** * Part I: definitions *)
(* ================================================================== *)

(** ** Leveling system *)

Module Leveling.

(** [Math.floor(100 * Math.pow(1.5, level - 1))].  The value is the floor
    of the rational [100 * (3/2)^(level-1)].  In double precision the power
    and the product are exact as long as [25 * 3^(level-1) < 2^53], that is
    up to level 31, which covers every total below 57 million XP. *)
Definition xpForLevel (level : Z) : Z :=
  if 1 <=? level
  then (100 * 3 ^ (level - 1)) / 2 ^ (level - 1)
  else (100 * 2 ^ (1 - level)) / 3 ^ (1 - level).

(** The three variables of the loop of [calculateLevel]. *)
Record LoopState := mkLoop {
  ls_level : Z;
  ls_xpNeeded : Z;
  ls_xpAccumulated : Z
}.

(** [let level = 1; let xpNeeded = xpForLevel(level); let xpAccumulated = 0] *)
Definition loop_init : LoopState :=
  {| ls_level := 1; ls_xpNeeded := xpForLevel 1; ls_xpAccumulated := 0 |}.

(** [xpAccumulated + xpNeeded <= totalXp] *)
Definition loop_cond (totalXp : Z) (s : LoopState) : bool :=
  ls_xpAccumulated s + ls_xpNeeded s <=? totalXp.

(** [xpAccumulated += xpNeeded; level++; xpNeeded = xpForLevel(level)] *)
Definition loop_body (s : LoopState) : LoopState :=
  {| ls_level := ls_level s + 1;
     ls_xpNeeded := xpForLevel (ls_level s + 1);
     ls_xpAccumulated := ls_xpAccumulated s + ls_xpNeeded s |}.

(** The [while] loop, cut after [fuel] iterations. *)
Fixpoint while_loop (fuel : nat) (totalXp : Z) (s : LoopState) : LoopState :=
  match fuel with
  | O => s
  | S fuel' =>
      if loop_cond totalXp s then while_loop fuel' totalXp (loop_body s) else s
  end.

(** Iterations the loop is allowed: [totalXp / 100 + 1].  Lemma
    [while_loop_exits] shows that the loop has left by itself before the
    allowance is used up, so [calculateLevel] below is the source's loop. *)
Definition loop_fuel (totalXp : Z) : nat := Z.to_nat (totalXp / 100 + 1).

Record LevelInfo := mkLevelInfo {
  level : Z;
  currentLevelXp : Z;
  xpToNextLevel : Z;
  totalXp : Z
}.

Definition level_info_of (total : Z) (s : LoopState) : LevelInfo :=
  {| level := ls_level s;
     currentLevelXp := total - ls_xpAccumulated s;
     xpToNextLevel := ls_xpNeeded s;
     totalXp := total |}.

Definition calculateLevel (total : Z) : LevelInfo :=
  level_info_of total (while_loop (loop_fuel total) total loop_init).

(** The state of the loop after [n] executions of its body. *)
Definition loop_after (n : nat) : LoopState := Nat.iter n loop_body loop_init.

(** Running totals of a character's XP under a sequence of awards
    ([newXp = me.xp + amount] in [awardXp]). *)
Fixpoint running_totals (xp : Z) (awards : list Z) : list Z :=
  match awards with
  | [] => [xp]
  | a :: rest => xp :: running_totals (xp + a) rest
  end.

(** [100 + (level - 1) * 10] *)
Definition maxHpForLevel (lvl : Z) : Z := 100 + (lvl - 1) * 10.

End Leveling.

(** ** JavaScript and SQL text operations *)

Module Text.

(** The double quote character, as a one-character string. *)
Definition dquote : string := String (ascii_of_nat 34) EmptyString.

(** A number inside a template literal. *)
Definition string_of_Z (z : Z) : string := NilZero.string_of_int (Z.to_int z).

(** A BIGINT column as JavaScript receives it: node-postgres does not
    parse [int8] and hands over the text of the number. *)
Definition bigint_text (z : Z) : string := string_of_Z z.

(** The BIGINT that PostgreSQL reads from a text parameter.  The texts
    the handlers send are numerals (lemma [text_plus_30]); PostgreSQL
    refuses any other text, and the function answers [0] there. *)
Definition bigint_of_text (s : string) : Z :=
  match NilZero.int_of_string s with
  | Some d => Z.of_int d
  | None => 0
  end.

(** [tick + n] in JavaScript, [tick] a BIGINT column and [n] a number:
    the digits of [n] are appended to the text of the tick, and the
    column the result is written to reads it back as a number. *)
Definition text_plus (tick n : Z) : Z :=
  bigint_of_text (bigint_text tick ++ string_of_Z n)%string.

(** The digits of a non-negative number, most significant first, and the
    character of a digit. *)
Definition digits_of (z : Z) : Decimal.uint := N.to_uint (Z.to_N z).

Definition digit_char (n : N) : ascii := ascii_of_N (48 + n).

Definition lower_ascii (c : ascii) : ascii :=
  let n := nat_of_ascii c in
  if ((65 <=? n) && (n <=? 90))%nat then ascii_of_nat (n + 32) else c.

(** [s.toLowerCase()] and SQL [LOWER(s)]. *)
Fixpoint toLowerCase (s : string) : string :=
  match s with
  | EmptyString => EmptyString
  | String c rest => String (lower_ascii c) (toLowerCase rest)
  end.

(** [hay.includes(needle)] *)
Fixpoint includes (hay needle : string) : bool :=
  String.prefix needle hay
  || match hay with
     | EmptyString => false
     | String _ rest => includes rest needle
     end.

(** [s.slice(-n)]: the last [n] characters, the whole of a shorter [s]. *)
Definition slice_last (n : nat) (s : string) : string :=
  substring (String.length s - n) n s.

(** [s.slice(0, n)] *)
Definition slice_first (n : nat) (s : string) : string := substring 0 n s.

(** [l.slice(-n)] on arrays. *)
Definition last_n {A : Type} (n : nat) (l : list A) : list A :=
  drop (length l - n) l.

(** [l.join(sep)] *)
Definition join (sep : string) (l : list string) : string := String.concat sep l.

(** SQL [s LIKE pat]: [%] stands for any run of characters, [_] for one
    character, a backslash takes the next pattern character literally.
    PostgreSQL rejects a pattern that ends in a lone backslash; the
    patterns of the handlers are [%...%] and never end in one, and the
    function answers [false] there. *)
Fixpoint like (pat s : string) {struct pat} : bool :=
  match pat with
  | EmptyString => match s with EmptyString => true | String _ _ => false end
  | String p pat' =>
      if (p =? "%")%char then
        (fix skip (t : string) : bool :=
           like pat' t
           || match t with
              | EmptyString => false
              | String _ t' => skip t'
              end) s
      else if (p =? "_")%char then
        match s with
        | EmptyString => false
        | String _ s' => like pat' s'
        end
      else if (p =? "\")%char then
        match pat' with
        | EmptyString => false
        | String q pat'' =>
            match s with
            | EmptyString => false
            | String c s' => (q =? c)%char && like pat'' s'
            end
        end
      else
        match s with
        | EmptyString => false
        | String c s' => (p =? c)%char && like pat' s'
        end
  end.

(** The pattern [`%${(target || '').toLowerCase()}%`] of examine and
    interact. *)
Definition target_pattern (target : option string) : string :=
  let t := match target with
           | None => EmptyString
           | Some t => t
           end in
  ("%" ++ toLowerCase t ++ "%")%string.

End Text.

(** ** The store *)

Module Store.

(** One entry of [significant_moments]. *)
Record Moment := mkMoment {
  m_tick : Z;
  m_category : string;
  m_moment : string
}.

Record Character := mkCharacter {
  c_id : string;
  c_token : string;
  c_name : string;
  c_life_story : option string;
  c_significant_moments : option (list Moment);
  c_x : Z;
  c_y : Z;
  c_hp : Z;
  c_max_hp : Z;
  c_xp : Z;
  c_level : Z;
  c_energy : option Z;
  c_max_energy : option Z;
  c_turn_interval : Z;
  c_last_action_tick : Z;
  c_is_active : bool
}.

Record WorldObject := mkObject {
  o_id : string;
  o_name : string;
  o_x : Z;
  o_y : Z;
  o_description : option string;
  o_can_interact : bool;
  o_interact_result : option string;
  o_blocking : bool
}.

(** A row of [relationships]; its key [(char1_id, char2_id)] is the key of
    the map. *)
Record Relationship := mkRelationship {
  r_sentiment : Z;
  r_interactions : Z;
  r_first_met_tick : Z;
  r_last_interaction_tick : Z;
  r_recent_exchanges : option Z;
  r_cooldown_until_tick : option Z
}.

Record WorldRow := mkWorld {
  w_width : Z;
  w_height : Z;
  w_tick : Z;
  w_is_night : option bool;
  w_day_length : option Z;
  w_night_length : option Z
}.

Record Memory := mkMemory {
  mem_character_id : string;
  mem_tick : Z;
  mem_content : string
}.

Record Conversation := mkConversation {
  cv_tick : Z;
  cv_speaker_id : string;
  cv_listener_id : string;
  cv_message : string
}.

Record LogEntry := mkLog {
  a_tick : Z;
  a_character_id : option string;
  a_action : string;
  a_message : string
}.

(** An event written to the SSE clients by [broadcast(event, data)]. *)
Inductive Broadcast : Type :=
| BTick (tick : Z) (isNight : option bool)
| BDayNight (tick : Z) (isNight : bool) (message : string)
| BEvent (tick : Z) (message : string)
| BLevelUp (id name : string) (newLevel maxHp : Z)
| BMove (id name : string) (x y : Z) (direction : string)
| BTalk (speaker_id speaker_name listener_id listener_name message : string)
        (speakerEnergy : option Z)
| BRest (id name object : string) (energyRestored : Z) (newEnergy : option Z)
| BInteract (id name object : string).

(** The tables, and the events broadcast so far. *)
Record DB := mkDB {
  world : WorldRow;
  characters : list Character;
  objects : list WorldObject;
  relationships : gmap (string * string) Relationship;
  memories : list Memory;
  conversations : list Conversation;
  activity_log : list LogEntry;
  sent : list Broadcast
}.

Definition set_world (w : WorldRow) (db : DB) : DB :=
  {| world := w; characters := characters db; objects := objects db;
     relationships := relationships db; memories := memories db;
     conversations := conversations db; activity_log := activity_log db;
     sent := sent db |}.

Definition set_characters (cs : list Character) (db : DB) : DB :=
  {| world := world db; characters := cs; objects := objects db;
     relationships := relationships db; memories := memories db;
     conversations := conversations db; activity_log := activity_log db;
     sent := sent db |}.

Definition set_relationships (rs : gmap (string * string) Relationship)
    (db : DB) : DB :=
  {| world := world db; characters := characters db; objects := objects db;
     relationships := rs; memories := memories db;
     conversations := conversations db; activity_log := activity_log db;
     sent := sent db |}.

(** [INSERT INTO memories ...] *)
Definition insert_memory (m : Memory) (db : DB) : DB :=
  {| world := world db; characters := characters db; objects := objects db;
     relationships := relationships db; memories := memories db ++ [m];
     conversations := conversations db; activity_log := activity_log db;
     sent := sent db |}.

(** [INSERT INTO conversations ...] *)
Definition insert_conversation (c : Conversation) (db : DB) : DB :=
  {| world := world db; characters := characters db; objects := objects db;
     relationships := relationships db; memories := memories db;
     conversations := conversations db ++ [c]; activity_log := activity_log db;
     sent := sent db |}.

(** [INSERT INTO activity_log ...] *)
Definition insert_log (e : LogEntry) (db : DB) : DB :=
  {| world := world db; characters := characters db; objects := objects db;
     relationships := relationships db; memories := memories db;
     conversations := conversations db; activity_log := activity_log db ++ [e];
     sent := sent db |}.

(** [broadcast(event, data)] *)
Definition broadcast (b : Broadcast) (db : DB) : DB :=
  {| world := world db; characters := characters db; objects := objects db;
     relationships := relationships db; memories := memories db;
     conversations := conversations db; activity_log := activity_log db;
     sent := sent db ++ [b] |}.

(** [SELECT ... FROM characters WHERE id = $1] *)
Definition find_character (db : DB) (charId : string) : option Character :=
  find (fun c => (c_id c =? charId)%string) (characters db).

(** [UPDATE characters SET ... WHERE id = $1] *)
Definition update_character (charId : string) (f : Character -> Character)
    (db : DB) : DB :=
  set_characters
    (map (fun c => if (c_id c =? charId)%string then f c else c) (characters db))
    db.

(** [SET x = $1, y = $2] *)
Definition set_position (x y : Z) (c : Character) : Character :=
  {| c_id := c_id c; c_token := c_token c; c_name := c_name c;
     c_life_story := c_life_story c;
     c_significant_moments := c_significant_moments c;
     c_x := x; c_y := y; c_hp := c_hp c; c_max_hp := c_max_hp c;
     c_xp := c_xp c; c_level := c_level c; c_energy := c_energy c;
     c_max_energy := c_max_energy c; c_turn_interval := c_turn_interval c;
     c_last_action_tick := c_last_action_tick c;
     c_is_active := c_is_active c |}.

(** [SET xp = $1, level = $2, max_hp = $3] *)
Definition set_progress (xp lvl max_hp : Z) (c : Character) : Character :=
  {| c_id := c_id c; c_token := c_token c; c_name := c_name c;
     c_life_story := c_life_story c;
     c_significant_moments := c_significant_moments c;
     c_x := c_x c; c_y := c_y c; c_hp := c_hp c; c_max_hp := max_hp;
     c_xp := xp; c_level := lvl; c_energy := c_energy c;
     c_max_energy := c_max_energy c; c_turn_interval := c_turn_interval c;
     c_last_action_tick := c_last_action_tick c;
     c_is_active := c_is_active c |}.

(** [SET hp = max_hp] *)
Definition heal (c : Character) : Character :=
  {| c_id := c_id c; c_token := c_token c; c_name := c_name c;
     c_life_story := c_life_story c;
     c_significant_moments := c_significant_moments c;
     c_x := c_x c; c_y := c_y c; c_hp := c_max_hp c; c_max_hp := c_max_hp c;
     c_xp := c_xp c; c_level := c_level c; c_energy := c_energy c;
     c_max_energy := c_max_energy c; c_turn_interval := c_turn_interval c;
     c_last_action_tick := c_last_action_tick c;
     c_is_active := c_is_active c |}.

(** [SET significant_moments = $1, life_story = $2] *)
Definition set_story (moments : list Moment) (story : string) (c : Character)
    : Character :=
  {| c_id := c_id c; c_token := c_token c; c_name := c_name c;
     c_life_story := Some story;
     c_significant_moments := Some moments;
     c_x := c_x c; c_y := c_y c; c_hp := c_hp c; c_max_hp := c_max_hp c;
     c_xp := c_xp c; c_level := c_level c; c_energy := c_energy c;
     c_max_energy := c_max_energy c; c_turn_interval := c_turn_interval c;
     c_last_action_tick := c_last_action_tick c;
     c_is_active := c_is_active c |}.

(** [SET energy = <expression over the row>] *)
Definition set_energy (e : Character -> Z) (c : Character) : Character :=
  {| c_id := c_id c; c_token := c_token c; c_name := c_name c;
     c_life_story := c_life_story c;
     c_significant_moments := c_significant_moments c;
     c_x := c_x c; c_y := c_y c; c_hp := c_hp c; c_max_hp := c_max_hp c;
     c_xp := c_xp c; c_level := c_level c; c_energy := Some (e c);
     c_max_energy := c_max_energy c; c_turn_interval := c_turn_interval c;
     c_last_action_tick := c_last_action_tick c;
     c_is_active := c_is_active c |}.

(** [SET last_action_tick = $1, last_seen_at = NOW()] *)
Definition set_last_action_tick (t : Z) (c : Character) : Character :=
  {| c_id := c_id c; c_token := c_token c; c_name := c_name c;
     c_life_story := c_life_story c;
     c_significant_moments := c_significant_moments c;
     c_x := c_x c; c_y := c_y c; c_hp := c_hp c; c_max_hp := c_max_hp c;
     c_xp := c_xp c; c_level := c_level c; c_energy := c_energy c;
     c_max_energy := c_max_energy c; c_turn_interval := c_turn_interval c;
     c_last_action_tick := t;
     c_is_active := c_is_active c |}.


(** [COALESCE(v, d)] *)
Definition coalesce (v : option Z) (d : Z) : Z :=
  match v with
  | Some z => z
  | None => d
  end.

(** [v || d] on a nullable number: [null] and [0] both give [d]. *)
Definition or_default (v : option Z) (d : Z) : Z :=
  match v with
  | Some z => if z =? 0 then d else z
  | None => d
  end.

End Store.

(** ** Functions the two server variants share

    The leveling system, the life-story recorder, the turn gate and the
    request and response shapes are the same text in both server files. *)

Module Core.
Import Leveling Text Store.

(** What [awardXp] returns inside a result: [{ leveledUp: true, newLevel,
    xpGained }], [{ leveledUp: false, xpGained, ...levelInfo }], or the
    literal [{ xpGained: 0 }] of a talk without reward. *)
Inductive XpResult : Type :=
| XpLeveledUp (newLevel xpGained : Z)
| XpGained (xpGained : Z) (info : LevelInfo)
| XpZero.

(** [XP_REWARDS] *)
Definition XP_move : Z := 1.
Definition XP_talk : Z := 5.
Definition XP_examine : Z := 2.
Definition XP_interact : Z := 10.
Definition XP_first_meeting : Z := 20.

(** [awardXp(charId, amount, reason)]; [None] is the [null] returned for
    an unknown character.  The decoration at the head of the level-up
    message is left out. *)
Definition awardXp (charId : string) (amount : Z) (db : DB)
    : DB * option XpResult :=
  match find_character db charId with
  | None => (db, None)
  | Some me =>
      let oldLevel := c_level me in
      let newXp := c_xp me + amount in
      let levelInfo := calculateLevel newXp in
      let db1 :=
        update_character charId
          (set_progress newXp (level levelInfo) (maxHpForLevel (level levelInfo)))
          db in
      if oldLevel <? level levelInfo then
        let tick := w_tick (world db1) in
        let msg :=
          (c_name me ++ " leveled up to " ++ string_of_Z (level levelInfo) ++ "!")%string in
        let db2 :=
          insert_log {| a_tick := tick; a_character_id := Some charId;
                        a_action := "level_up"; a_message := msg |} db1 in
        let db3 := update_character charId heal db2 in
        let db4 :=
          broadcast (BLevelUp charId (c_name me) (level levelInfo)
                       (maxHpForLevel (level levelInfo))) db3 in
        (db4, Some (XpLeveledUp (level levelInfo) amount))
      else (db1, Some (XpGained amount levelInfo))
  end.

(** [MOMENT_TRIGGERS.first_meeting(name)] *)
Definition first_meeting (name : string) : string :=
  ("Met " ++ name ++ " for the first time")%string.

Definition newline : string := String (ascii_of_nat 10) EmptyString.

(** The text appended to the life story:
    [`\n\n[After ${tick} ticks] ${recentMoments}`]. *)
Definition story_entry (tick : Z) (moments : list Moment) : string :=
  (newline ++ newline ++ "[After " ++ string_of_Z tick ++ " ticks] "
   ++ join ". " (map m_moment (last_n 10 moments)))%string.

(** [moments.push(...)] followed by the cut to the last 50. *)
Definition push_moment (m : Moment) (moments : list Moment) : list Moment :=
  let pushed := moments ++ [m] in
  if (50 <? length pushed)%nat then last_n 50 pushed else pushed.

(** The life story after a push that left [moments]. *)
Definition next_life_story (tick : Z) (moments : list Moment) (lifeStory : string)
    : string :=
  if (length moments mod 10 =? 0)%nat then
    let appended := (lifeStory ++ story_entry tick moments)%string in
    if (5000 <? String.length appended)%nat then slice_last 4000 appended
    else appended
  else lifeStory.

(** [me.significant_moments || []] and [me.life_story || ''] *)
Definition moments_of (c : Character) : list Moment :=
  match c_significant_moments c with
  | Some l => l
  | None => []
  end.

Definition life_story_of (c : Character) : string :=
  match c_life_story c with
  | Some s => s
  | None => EmptyString
  end.

(** [addSignificantMoment(charId, moment, category)] *)
Definition addSignificantMoment (charId moment category : string) (db : DB) : DB :=
  let tick := w_tick (world db) in
  match find_character db charId with
  | None => db
  | Some me =>
      let moments :=
        push_moment {| m_tick := tick; m_category := category; m_moment := moment |}
          (moments_of me) in
      let lifeStory := next_life_story tick moments (life_story_of me) in
      update_character charId (set_story moments lifeStory) db
  end.

(** A sequence of calls [addSignificantMoment(charId, moment, category)]. *)
Definition record_moments (calls : list (string * string * string)) (db : DB) : DB :=
  fold_left (fun d '(charId, moment, category) =>
               addSignificantMoment charId moment category d) calls db.

(** Every life story has at most 5000 units. *)
Definition stories_bounded (db : DB) : Prop :=
  forall id c, find_character db id = Some c ->
               (String.length (life_story_of c) <= 5000)%nat.

(** [canAct(charId)] *)
Definition canAct (db : DB) (charId : string) : bool :=
  match find_character db charId with
  | None => false
  | Some c => c_turn_interval c <=? w_tick (world db) - c_last_action_tick c
  end.

(** [updateLastAction(charId)] *)
Definition updateLastAction (charId : string) (db : DB) : DB :=
  update_character charId (set_last_action_tick (w_tick (world db))) db.

(** The body of [POST /api/action/:charId], with the bearer token of the
    header. *)
Record Request := mkRequest {
  rq_charId : string;
  rq_token : option string;
  rq_action : string;
  rq_direction : option string;
  rq_target : option string;
  rq_message : option string
}.

(** The error responses of the action route, by the place they are sent
    from.
    - [InvalidCharacterOrToken]: 401 'Invalid character or token'
    - [NotYourTurn]: 429 'Not your turn yet', with the turn interval
    - [InvalidDirection]: 400 'Invalid direction'
    - [OutOfBounds]: 400 'Cannot move there - edge of world'
    - [Blocked]: 400 '<name> blocks your path'
    - [MessageRequired]: 400 'Message is required'
    - [InsufficientEnergy]: 400 'Too tired to talk. ...', with the energy
    - [NoTargetNearby]: 400 'No one nearby to talk to'
    - [ConversationCooldown]: 400 with [conversationFatigue: true] and
      [cooldownTicks]
    - [NotSeen]: 400 Don't see <target> nearby
    - [CannotInteract]: 400 Can't interact with <target>
    - [UnknownActionKind]: 400 'Unknown action. ...'
    - [ServerFailure]: 500, the [catch] of the route *)
Inductive Rejection : Type :=
| InvalidCharacterOrToken
| NotYourTurn (turn_interval : Z)
| InvalidDirection
| OutOfBounds
| Blocked (name : string)
| MessageRequired
| InsufficientEnergy (energy : Z)
| NoTargetNearby
| ConversationCooldown (listener : string) (cooldownTicks : Z)
| NotSeen (target : option string)
| CannotInteract (target : option string)
| UnknownActionKind
| ServerFailure.

(** The [result] object of a successful action. *)
Inductive ActionResult : Type :=
| Moved (message : string) (x y : Z)
| Talked (message listener : string) (xp : option XpResult) (energy : Z)
         (exchangeCount : Z) (fatigueWarning : option string) (cooldownIn : Z)
| TalkedSimple (message listener : string) (xp : option XpResult)
| Examined (object : WorldObject) (description : option string)
| Rested (object result : string) (energy maxEnergy : option Z)
         (xp : option XpResult)
| Interacted (object : string) (result : option string) (xp : option XpResult).

Inductive Response : Type :=
| Rejected (r : Rejection)
| Accepted (a : ActionResult).

(** [SELECT * FROM characters WHERE id = $1 AND token = $2] *)
Definition authenticate (db : DB) (charId : string) (token : option string)
    : option Character :=
  match token with
  | None => None
  | Some t =>
      find (fun c => (c_id c =? charId)%string && (c_token c =? t)%string)
        (characters db)
  end.

(** The [dirs] table of the move case. *)
Definition dirs (key : string) : option (Z * Z) :=
  if (key =? "north")%string then Some (0, -1)
  else if (key =? "south")%string then Some (0, 1)
  else if (key =? "east")%string then Some (1, 0)
  else if (key =? "west")%string then Some (-1, 0)
  else None.

(** Keys every object literal inherits.  [dirs[key]] is then an object or
    a function, [delta[0]] is [undefined], the target is [NaN], the
    boundary test lets it through and the store refuses the query: the
    route answers 500. *)
Definition inherited_key (key : string) : bool :=
  (key =? "constructor")%string || (key =? "__proto__")%string.

(** [SELECT * FROM objects WHERE x = $1 AND y = $2 AND blocking = true] *)
Definition blocking_at (db : DB) (x y : Z) : option WorldObject :=
  find (fun o => (o_x o =? x) && (o_y o =? y) && o_blocking o) (objects db).

(** The squared Euclidean distance of a character from [(x, y)].  The
    query orders by [SQRT] of it, which is the same order. *)
Definition dist2 (x y : Z) (c : Character) : Z :=
  (c_x c - x) ^ 2 + (c_y c - y) ^ 2.

(** [ORDER BY key LIMIT 1]: a row of least key, the first of them in scan
    order. *)
Fixpoint first_least {A : Type} (key : A -> Z) (rows : list A) : option A :=
  match rows with
  | [] => None
  | r :: rest =>
      match first_least key rest with
      | None => Some r
      | Some r' => if key r' <? key r then Some r' else Some r
      end
  end.

(** The rows the talk query keeps: [id != $1 AND is_active = true AND
    ABS(x - $2) <= 2 AND ABS(y - $3) <= 2]. *)
Definition talk_candidate (charId : string) (x y : Z) (c : Character) : bool :=
  negb (c_id c =? charId)%string && c_is_active c
  && (Z.abs (c_x c - x) <=? 2) && (Z.abs (c_y c - y) <=? 2).

(** The talk query. *)
Definition nearby_listener (db : DB) (charId : string) (x y : Z)
    : option Character :=
  first_least (dist2 x y)
    (List.filter (talk_candidate charId x y) (characters db)).

(** The object queries of examine ([radius = 3], any object) and interact
    ([radius = 2], [can_interact = true]): [(LOWER(name) LIKE $1 OR
    LOWER(id) LIKE $1) AND ABS(x - $2) <= radius AND ABS(y - $3) <= radius
    LIMIT 1]. *)
Definition object_matches (pattern : string) (radius : Z) (x y : Z)
    (o : WorldObject) : bool :=
  (like pattern (toLowerCase (o_name o)) || like pattern (toLowerCase (o_id o)))
  && (Z.abs (o_x o - x) <=? radius) && (Z.abs (o_y o - y) <=? radius).

Definition examine_query (db : DB) (target : option string) (x y : Z)
    : option WorldObject :=
  find (object_matches (target_pattern target) 3 x y) (objects db).

Definition interact_query (db : DB) (target : option string) (x y : Z)
    : option WorldObject :=
  find (fun o => object_matches (target_pattern target) 2 x y o && o_can_interact o)
    (objects db).

End Core.

(** ** The richer server variant: energy, conversation fatigue, day and night *)

Module Rich.
Import Leveling Text Store Core.

Definition dayEvents : list string :=
  [ "A gentle breeze blows through the meadow.";
    "Birds sing in the distance.";
    "The sun shifts in the sky.";
    "A butterfly flutters past.";
    "Leaves rustle softly." ]%string.

Definition nightEvents : list string :=
  [ "An owl hoots in the distance.";
    "Fireflies dance through the darkness.";
    "The stars twinkle overhead.";
    "A cool breeze whispers through the trees.";
    "The moon casts long shadows." ]%string.

(** [UPDATE world SET tick = tick + 1 ... RETURNING ...] *)
Definition advance_tick (w : WorldRow) : WorldRow :=
  {| w_width := w_width w; w_height := w_height w; w_tick := w_tick w + 1;
     w_is_night := w_is_night w; w_day_length := w_day_length w;
     w_night_length := w_night_length w |}.

(** [UPDATE world SET is_night = $1] *)
Definition set_is_night (b : bool) (w : WorldRow) : WorldRow :=
  {| w_width := w_width w; w_height := w_height w; w_tick := w_tick w;
     w_is_night := Some b; w_day_length := w_day_length w;
     w_night_length := w_night_length w |}.

(** [UPDATE characters SET energy = LEAST(COALESCE(max_energy, 100),
    COALESCE(energy, 100) + 5) WHERE last_action_tick < $1 - 20] *)
Definition regen_row (tick : Z) (c : Character) : Character :=
  if c_last_action_tick c <? tick - 20
  then set_energy
         (fun c => Z.min (coalesce (c_max_energy c) 100) (coalesce (c_energy c) 100 + 5))
         c
  else c.

Definition regenerate_energy (tick : Z) (db : DB) : DB :=
  set_characters (map (regen_row tick) (characters db)) db.

(** [UPDATE relationships SET recent_exchanges = GREATEST(0,
    recent_exchanges - 3) WHERE recent_exchanges > 0] *)
Definition decay_row (r : Relationship) : Relationship :=
  match r_recent_exchanges r with
  | Some n =>
      if 0 <? n then
        {| r_sentiment := r_sentiment r; r_interactions := r_interactions r;
           r_first_met_tick := r_first_met_tick r;
           r_last_interaction_tick := r_last_interaction_tick r;
           r_recent_exchanges := Some (Z.max 0 (n - 3));
           r_cooldown_until_tick := r_cooldown_until_tick r |}
      else r
  | None => r
  end.

Definition decay_fatigue (db : DB) : DB :=
  set_relationships (decay_row <$> relationships db) db.

(** [worldTick()].  [pick] is the index drawn by
    [Math.floor(Math.random() * events.length)]. *)
Definition worldTick (pick : nat) (db : DB) : DB :=
  let db0 := set_world (advance_tick (world db)) db in
  let w := world db0 in
  let tick := w_tick w in
  let cycleLength := or_default (w_day_length w) 200 + or_default (w_night_length w) 50 in
  (* [tick % 0] is NaN, and NaN >= n is false *)
  let shouldBeNight :=
    if cycleLength =? 0 then false
    else or_default (w_day_length w) 200 <=? Z.rem tick cycleLength in
  let is_night := match w_is_night w with Some b => b | None => false end in
  let db1 :=
    if Bool.eqb shouldBeNight is_night then db0
    else
      let transitionMsg :=
        if shouldBeNight
        then "Night falls over the meadow. The world grows quiet..."%string
        else "Dawn breaks! A new day begins in the meadow."%string in
      broadcast (BDayNight tick shouldBeNight transitionMsg)
        (insert_log {| a_tick := tick; a_character_id := None;
                       a_action := "world_event"; a_message := transitionMsg |}
           (set_world (set_is_night shouldBeNight w) db0)) in
  let db2 := broadcast (BTick tick (Some shouldBeNight)) db1 in
  let db3 := if Z.rem tick 10 =? 0 then regenerate_energy tick db2 else db2 in
  let db4 := if Z.rem tick 50 =? 0 then decay_fatigue db3 else db3 in
  if Z.rem tick 100 =? 0 then
    let events := if shouldBeNight then nightEvents else dayEvents in
    let event := nth (pick mod length events) events EmptyString in
    broadcast (BEvent tick event)
      (insert_log {| a_tick := tick; a_character_id := None;
                     a_action := "world_event"; a_message := event |} db4)
  else db4.

(** [case 'move'] *)
Definition move_case (db : DB) (me : Character) (rq : Request) : DB * Response :=
  let charId := rq_charId rq in
  let w := world db in
  match rq_direction rq with
  | None => (db, Rejected InvalidDirection)
  | Some direction =>
      let key := toLowerCase direction in
      match dirs key with
      | None =>
          if inherited_key key then (db, Rejected ServerFailure)
          else (db, Rejected InvalidDirection)
      | Some (dx, dy) =>
          let newX := c_x me + dx in
          let newY := c_y me + dy in
          if (newX <? 0) || (w_width w <=? newX) || (newY <? 0) || (w_height w <=? newY)
          then (db, Rejected OutOfBounds)
          else
            match blocking_at db newX newY with
            | Some o => (db, Rejected (Blocked (o_name o)))
            | None =>
                let db1 := update_character charId (set_position newX newY) db in
                let msg := (c_name me ++ " moves " ++ direction)%string in
                let db2 :=
                  insert_log {| a_tick := w_tick w; a_character_id := Some charId;
                                a_action := "move"; a_message := msg |} db1 in
                let db3 := broadcast (BMove charId (c_name me) newX newY direction) db2 in
                let db4 := fst (awardXp charId XP_move db3) in
                (db4, Accepted (Moved msg newX newY))
            end
      end
  end.

(** [INSERT INTO relationships ... VALUES ($1, $2, 5, 1, $3, $3, 1, 0)
    ON CONFLICT (char1_id, char2_id) DO UPDATE SET ...] *)
Definition upsert_relationship (a b : string) (tick newExchangeCount newCooldown : Z)
    (db : DB) : DB :=
  let row :=
    match relationships db !! (a, b) with
    | None =>
        {| r_sentiment := 5; r_interactions := 1; r_first_met_tick := tick;
           r_last_interaction_tick := tick; r_recent_exchanges := Some 1;
           r_cooldown_until_tick := Some 0 |}
    | Some r =>
        {| r_sentiment := Z.min 100 (r_sentiment r + 1);
           r_interactions := r_interactions r + 1;
           r_first_met_tick := r_first_met_tick r;
           r_last_interaction_tick := tick;
           r_recent_exchanges := Some newExchangeCount;
           r_cooldown_until_tick := Some newCooldown |}
    end in
  set_relationships (<[(a, b) := row]> (relationships db)) db.

(** The diminishing XP of a talk: [xpReward]. *)
Definition talk_xp (isFirstMeeting : bool) (newExchangeCount : Z) : Z :=
  if isFirstMeeting then XP_first_meeting
  else if newExchangeCount <=? 5 then XP_talk
  else if newExchangeCount <=? 10 then 2
  else 0.

(** [recent_exchanges || 0] and [cooldown_until_tick || 0] of the
    relationship row of the ordered pair, [0] without a row. *)
Definition recent_exchanges_of (db : DB) (a b : string) : Z :=
  match relationships db !! (a, b) with
  | Some r => or_default (r_recent_exchanges r) 0
  | None => 0
  end.

Definition cooldown_until_of (db : DB) (a b : string) : Z :=
  match relationships db !! (a, b) with
  | Some r => or_default (r_cooldown_until_tick r) 0
  | None => 0
  end.

(** The [cooldown_until_tick] column of the row of the ordered pair:
    [None] without a row and for NULL. *)
Definition stored_cooldown (db : DB) (a b : string) : option Z :=
  match relationships db !! (a, b) with
  | Some r => r_cooldown_until_tick r
  | None => None
  end.

(** [cooldownUntil > tick].  [tick] is the text of the BIGINT column.
    With a relationship row whose [cooldown_until_tick] is not NULL,
    [cooldownUntil] is the text of that column (a text is truthy, also
    the text of 0, so [||] keeps it) and JavaScript compares the two texts
    character by character.  Without a row, or with NULL, [cooldownUntil]
    is the number 0 and the tick is converted to a number. *)
Definition on_cooldown (db : DB) (a b : string) : bool :=
  let tick := w_tick (world db) in
  match stored_cooldown db a b with
  | Some cooldownUntil => String.ltb (bigint_text tick) (bigint_text cooldownUntil)
  | None => tick <? 0
  end.

(** [const energyCost = 3] *)
Definition energyCost : Z := 3.

(** [case 'talk'], after its checks: the effects of an accepted talk of
    [me] with [listener].  [tick + 30] appends to the text of the tick
    ([text_plus]); [newCooldown > 0] converts the result to a number. *)
Definition talk_commit (db : DB) (me listener : Character) (charId message : string)
    : DB * Response :=
  let tick := w_tick (world db) in
  let currentEnergy := or_default (c_energy me) 100 in
  let recentExchanges := recent_exchanges_of db charId (c_id listener) in
  let db1 :=
    update_character charId
      (set_energy (fun c => coalesce (c_energy c) 100 - energyCost)) db in
  let db2 :=
    insert_conversation
      {| cv_tick := tick; cv_speaker_id := charId;
         cv_listener_id := c_id listener; cv_message := message |} db1 in
  let db3 :=
    insert_memory
      {| mem_character_id := charId; mem_tick := tick;
         mem_content := ("I said to " ++ c_name listener ++ ": "
                         ++ dquote ++ message ++ dquote)%string |} db2 in
  let db4 :=
    insert_memory
      {| mem_character_id := c_id listener; mem_tick := tick;
         mem_content := (c_name me ++ " said to me: "
                         ++ dquote ++ message ++ dquote)%string |} db3 in
  let isFirstMeeting :=
    match relationships db4 !! (charId, c_id listener) with
    | None => true
    | Some _ => false
    end in
  let newExchangeCount := recentExchanges + 1 in
  let newCooldown := if 15 <=? newExchangeCount then text_plus tick 30 else 0 in
  let db5 :=
    upsert_relationship charId (c_id listener) tick newExchangeCount
      newCooldown db4 in
  let db6 :=
    if isFirstMeeting then
      addSignificantMoment (c_id listener) (first_meeting (c_name me))
        "social"
        (addSignificantMoment charId (first_meeting (c_name listener))
           "social" db5)
    else db5 in
  let xpReward := talk_xp isFirstMeeting newExchangeCount in
  let '(db7, xpResult) :=
    if 0 <? xpReward then awardXp charId xpReward db6
    else (db6, Some XpZero) in
  let msg :=
    (c_name me ++ " says to " ++ c_name listener ++ ": "
     ++ dquote ++ message ++ dquote)%string in
  let db8 :=
    insert_log {| a_tick := tick; a_character_id := Some charId;
                  a_action := "talk"; a_message := msg |} db7 in
  let db9 :=
    broadcast (BTalk charId (c_name me) (c_id listener) (c_name listener)
                 message (Some (currentEnergy - energyCost))) db8 in
  let fatigueWarning :=
    if 12 <=? newExchangeCount then
      Some ("You've been talking to " ++ c_name listener
            ++ " for a while. Consider exploring elsewhere soon!")%string
    else if 8 <=? newExchangeCount then
      Some "Conversation getting long. XP rewards diminishing."%string
    else None in
  (db9, Accepted (Talked msg (c_name listener) xpResult
                    (currentEnergy - energyCost) newExchangeCount
                    fatigueWarning
                    (if 0 <? newCooldown then 0 else 15 - newExchangeCount))).

(** [case 'talk'] *)
Definition talk_case (db : DB) (me : Character) (rq : Request) : DB * Response :=
  let charId := rq_charId rq in
  let tick := w_tick (world db) in
  match rq_message rq with
  | None => (db, Rejected MessageRequired)
  | Some message =>
      if (message =? "")%string then (db, Rejected MessageRequired)
      else
        let currentEnergy := or_default (c_energy me) 100 in
        if currentEnergy <? energyCost
        then (db, Rejected (InsufficientEnergy currentEnergy))
        else
          match nearby_listener db charId (c_x me) (c_y me) with
          | None => (db, Rejected NoTargetNearby)
          | Some listener =>
              let cooldownUntil := cooldown_until_of db charId (c_id listener) in
              if on_cooldown db charId (c_id listener)
              then (db, Rejected (ConversationCooldown (c_name listener)
                                    (cooldownUntil - tick)))
              else talk_commit db me listener charId message
          end
  end.

(** [case 'examine'] *)
Definition examine_case (db : DB) (me : Character) (rq : Request) : DB * Response :=
  match examine_query db (rq_target rq) (c_x me) (c_y me) with
  | None => (db, Rejected (NotSeen (rq_target rq)))
  | Some o =>
      let db1 :=
        insert_log {| a_tick := w_tick (world db);
                      a_character_id := Some (rq_charId rq);
                      a_action := "examine";
                      a_message := (c_name me ++ " examines the " ++ o_name o)%string |}
          db in
      (db1, Accepted (Examined o (o_description o)))
  end.

(** [case 'interact'] *)
Definition interact_case (db : DB) (me : Character) (rq : Request) : DB * Response :=
  let charId := rq_charId rq in
  let tick := w_tick (world db) in
  match interact_query db (rq_target rq) (c_x me) (c_y me) with
  | None => (db, Rejected (CannotInteract (rq_target rq)))
  | Some o =>
      let lname := toLowerCase (o_name o) in
      let isRestSpot :=
        includes lname "campfire" || includes lname "cottage" || includes lname "pond" in
      if isRestSpot then
        let energyRestored := if includes lname "cottage" then 50 else 30 in
        let db1 :=
          update_character charId
            (set_energy (fun c => Z.min (coalesce (c_max_energy c) 100)
                                    (coalesce (c_energy c) 0 + energyRestored))) db in
        let newEnergy := find_character db1 charId in
        let energy := match newEnergy with Some c => c_energy c | None => None end in
        let maxEnergy := match newEnergy with Some c => c_max_energy c | None => None end in
        let db2 :=
          insert_log {| a_tick := tick; a_character_id := Some charId;
                        a_action := "rest";
                        a_message := (c_name me ++ " rests at the " ++ o_name o
                                      ++ " and recovers energy")%string |} db1 in
        let db3 := broadcast (BRest charId (c_name me) (o_name o) energyRestored energy) db2 in
        let '(db4, xp) := awardXp charId 2 db3 in
        (db4, Accepted (Rested (o_name o)
                          ("You rest at the " ++ o_name o ++ " and feel refreshed. (+"
                           ++ string_of_Z energyRestored ++ " energy)")%string
                          energy maxEnergy xp))
      else
        let '(db1, xpResult) := awardXp charId XP_interact db in
        let db2 :=
          insert_log {| a_tick := tick; a_character_id := Some charId;
                        a_action := "interact";
                        a_message := (c_name me ++ " interacts with the "
                                      ++ o_name o)%string |} db1 in
        let db3 := broadcast (BInteract charId (c_name me) (o_name o)) db2 in
        (db3, Accepted (Interacted (o_name o) (o_interact_result o) xpResult))
  end.

(** [switch (action)] *)
Definition dispatch (db : DB) (me : Character) (rq : Request) : DB * Response :=
  if (rq_action rq =? "move")%string then move_case db me rq
  else if (rq_action rq =? "talk")%string then talk_case db me rq
  else if (rq_action rq =? "examine")%string then examine_case db me rq
  else if (rq_action rq =? "interact")%string then interact_case db me rq
  else (db, Rejected UnknownActionKind).

(** [app.post('/api/action/:charId', ...)]: the token check, the turn
    gate, the action, and after a successful action the stamp of
    [updateLastAction]. *)
Definition handle_action (rq : Request) (db : DB) : DB * Response :=
  match authenticate db (rq_charId rq) (rq_token rq) with
  | None => (db, Rejected InvalidCharacterOrToken)
  | Some me =>
      if negb (canAct db (rq_charId rq))
      then (db, Rejected (NotYourTurn (c_turn_interval me)))
      else
        match dispatch db me rq with
        | (db', Accepted result) =>
            (updateLastAction (rq_charId rq) db', Accepted result)
        | (db', Rejected r) => (db', Rejected r)
        end
  end.

(** A talk submission of [me] that passes the token check, the turn gate,
    the message check and the energy check, and for which the talk query
    answers [listener]: a talk attempt from [me] to [listener]. *)
Definition talks_to (db : DB) (rq : Request) (me listener : Character)
    (message : string) : Prop :=
  authenticate db (rq_charId rq) (rq_token rq) = Some me
  /\ canAct db (rq_charId rq) = true
  /\ rq_action rq = "talk"%string
  /\ rq_message rq = Some message
  /\ message <> EmptyString
  /\ energyCost <= or_default (c_energy me) 100
  /\ nearby_listener db (rq_charId rq) (c_x me) (c_y me) = Some listener.

End Rich.

(** ** The simpler server variant: no energy, no fatigue, no night

    It runs on the same tables; the columns it does not know keep their
    value, or take the column default when it inserts a row. *)

Module Simple.
Import Leveling Text Store Core.

Definition events : list string :=
  [ "A gentle breeze blows through the meadow.";
    "Birds sing in the distance.";
    "The sun shifts in the sky.";
    "A butterfly flutters past.";
    "Leaves rustle softly." ]%string.

(** [worldTick()] *)
Definition worldTick (pick : nat) (db : DB) : DB :=
  let db0 := set_world (Rich.advance_tick (world db)) db in
  let tick := w_tick (world db0) in
  let db1 := broadcast (BTick tick None) db0 in
  if Z.rem tick 100 =? 0 then
    let event := nth (pick mod length events) events EmptyString in
    broadcast (BEvent tick event)
      (insert_log {| a_tick := tick; a_character_id := None;
                     a_action := "world_event"; a_message := event |} db1)
  else db1.

(** [case 'move'] *)
Definition move_case (db : DB) (me : Character) (rq : Request) : DB * Response :=
  let charId := rq_charId rq in
  let w := world db in
  match rq_direction rq with
  | None => (db, Rejected InvalidDirection)
  | Some direction =>
      let key := toLowerCase direction in
      match dirs key with
      | None =>
          if inherited_key key then (db, Rejected ServerFailure)
          else (db, Rejected InvalidDirection)
      | Some (dx, dy) =>
          let newX := c_x me + dx in
          let newY := c_y me + dy in
          if (newX <? 0) || (w_width w <=? newX) || (newY <? 0) || (w_height w <=? newY)
          then (db, Rejected OutOfBounds)
          else
            match blocking_at db newX newY with
            | Some o => (db, Rejected (Blocked (o_name o)))
            | None =>
                let db1 := update_character charId (set_position newX newY) db in
                let msg := (c_name me ++ " moves " ++ direction)%string in
                let db2 :=
                  insert_log {| a_tick := w_tick w; a_character_id := Some charId;
                                a_action := "move"; a_message := msg |} db1 in
                let db3 := broadcast (BMove charId (c_name me) newX newY direction) db2 in
                let db4 := fst (awardXp charId XP_move db3) in
                (db4, Accepted (Moved msg newX newY))
            end
      end
  end.

(** [INSERT INTO relationships (..., sentiment, interactions, first_met_tick,
    last_interaction_tick) VALUES ($1, $2, 5, 1, $3, $3) ON CONFLICT ...
    DO UPDATE SET ...]; the fatigue columns of a new row take their
    default 0. *)
Definition upsert_relationship (a b : string) (tick : Z) (db : DB) : DB :=
  let row :=
    match relationships db !! (a, b) with
    | None =>
        {| r_sentiment := 5; r_interactions := 1; r_first_met_tick := tick;
           r_last_interaction_tick := tick; r_recent_exchanges := Some 0;
           r_cooldown_until_tick := Some 0 |}
    | Some r =>
        {| r_sentiment := Z.min 100 (r_sentiment r + 1);
           r_interactions := r_interactions r + 1;
           r_first_met_tick := r_first_met_tick r;
           r_last_interaction_tick := tick;
           r_recent_exchanges := r_recent_exchanges r;
           r_cooldown_until_tick := r_cooldown_until_tick r |}
    end in
  set_relationships (<[(a, b) := row]> (relationships db)) db.

(** [case 'talk'], after its checks. *)
Definition talk_commit (db : DB) (me listener : Character) (charId message : string)
    : DB * Response :=
  let tick := w_tick (world db) in
  let db1 :=
    insert_conversation
      {| cv_tick := tick; cv_speaker_id := charId;
         cv_listener_id := c_id listener;
         cv_message := slice_first 500 message |} db in
  let db2 :=
    insert_memory
      {| mem_character_id := charId; mem_tick := tick;
         mem_content := ("I said to " ++ c_name listener ++ ": " ++ dquote
                         ++ slice_first 200 message ++ dquote)%string |} db1 in
  let db3 :=
    insert_memory
      {| mem_character_id := c_id listener; mem_tick := tick;
         mem_content := (c_name me ++ " said to me: " ++ dquote
                         ++ slice_first 200 message ++ dquote)%string |} db2 in
  let isFirstMeeting :=
    match relationships db3 !! (charId, c_id listener) with
    | None => true
    | Some _ => false
    end in
  let db4 := upsert_relationship charId (c_id listener) tick db3 in
  let db5 :=
    if isFirstMeeting then
      addSignificantMoment (c_id listener) (first_meeting (c_name me))
        "social"
        (addSignificantMoment charId (first_meeting (c_name listener))
           "social" db4)
    else db4 in
  let xpReward := if isFirstMeeting then XP_first_meeting else XP_talk in
  let '(db6, xpResult) := awardXp charId xpReward db5 in
  let msg :=
    (c_name me ++ " says to " ++ c_name listener ++ ": " ++ dquote
     ++ slice_first 100 message ++ dquote)%string in
  let db7 :=
    insert_log {| a_tick := tick; a_character_id := Some charId;
                  a_action := "talk"; a_message := msg |} db6 in
  let db8 :=
    broadcast (BTalk charId (c_name me) (c_id listener) (c_name listener)
                 (slice_first 500 message) None) db7 in
  (db8, Accepted (TalkedSimple msg (c_name listener) xpResult)).

(** [case 'talk'] *)
Definition talk_case (db : DB) (me : Character) (rq : Request) : DB * Response :=
  let charId := rq_charId rq in
  match rq_message rq with
  | None => (db, Rejected MessageRequired)
  | Some message =>
      if (message =? "")%string then (db, Rejected MessageRequired)
      else
        match nearby_listener db charId (c_x me) (c_y me) with
        | None => (db, Rejected NoTargetNearby)
        | Some listener => talk_commit db me listener charId message
        end
  end.

(** [case 'examine'] *)
Definition examine_case (db : DB) (me : Character) (rq : Request) : DB * Response :=
  match examine_query db (rq_target rq) (c_x me) (c_y me) with
  | None => (db, Rejected (NotSeen (rq_target rq)))
  | Some o =>
      let db1 :=
        insert_log {| a_tick := w_tick (world db);
                      a_character_id := Some (rq_charId rq);
                      a_action := "examine";
                      a_message := (c_name me ++ " examines the " ++ o_name o)%string |}
          db in
      (db1, Accepted (Examined o (o_description o)))
  end.

(** [case 'interact'] *)
Definition interact_case (db : DB) (me : Character) (rq : Request) : DB * Response :=
  let charId := rq_charId rq in
  match interact_query db (rq_target rq) (c_x me) (c_y me) with
  | None => (db, Rejected (CannotInteract (rq_target rq)))
  | Some o =>
      let '(db1, xpResult) := awardXp charId XP_interact db in
      let db2 :=
        insert_log {| a_tick := w_tick (world db); a_character_id := Some charId;
                      a_action := "interact";
                      a_message := (c_name me ++ " interacts with the "
                                    ++ o_name o)%string |} db1 in
      let db3 := broadcast (BInteract charId (c_name me) (o_name o)) db2 in
      (db3, Accepted (Interacted (o_name o) (o_interact_result o) xpResult))
  end.

(** [switch (action)] *)
Definition dispatch (db : DB) (me : Character) (rq : Request) : DB * Response :=
  if (rq_action rq =? "move")%string then move_case db me rq
  else if (rq_action rq =? "talk")%string then talk_case db me rq
  else if (rq_action rq =? "examine")%string then examine_case db me rq
  else if (rq_action rq =? "interact")%string then interact_case db me rq
  else (db, Rejected UnknownActionKind).

(** [app.post('/api/action/:charId', ...)] *)
Definition handle_action (rq : Request) (db : DB) : DB * Response :=
  match authenticate db (rq_charId rq) (rq_token rq) with
  | None => (db, Rejected InvalidCharacterOrToken)
  | Some me =>
      if negb (canAct db (rq_charId rq))
      then (db, Rejected (NotYourTurn (c_turn_interval me)))
      else
        match dispatch db me rq with
        | (db', Accepted result) =>
            (updateLastAction (rq_charId rq) db', Accepted result)
        | (db', Rejected r) => (db', Rejected r)
        end
  end.

End Simple.

(** ** Histories

    A history is a sequence of action submissions and clock ticks applied
    to the richer server. *)

Module History.
Import Store Core.

Inductive Step : Type :=
| Submit (rq : Request)
| Tick (pick : nat).

Definition step (s : Step) (db : DB) : DB * option Response :=
  match s with
  | Submit rq => let '(db', r) := Rich.handle_action rq db in (db', Some r)
  | Tick pick => (Rich.worldTick pick db, None)
  end.

(** The store after a history. *)
Definition run (steps : list Step) (db : DB) : DB :=
  fold_left (fun d s => fst (step s d)) steps db.

(** [Some (a, b)] when the server accepts the submission as a talk of
    [a], and the talk query has answered [b]. *)
Definition accepted_talk (rq : Request) (db : DB) : option (string * string) :=
  match authenticate db (rq_charId rq) (rq_token rq) with
  | None => None
  | Some me =>
      match snd (Rich.handle_action rq db) with
      | Accepted (Talked _ _ _ _ _ _ _) =>
          match nearby_listener db (rq_charId rq) (c_x me) (c_y me) with
          | Some l => Some (rq_charId rq, c_id l)
          | None => None
          end
      | _ => None
      end
  end.

(** The response is not that of an accepted talk. *)
Definition not_talked (r : Response) : Prop :=
  match r with
  | Accepted (Talked _ _ _ _ _ _ _) => False
  | _ => True
  end.

(** The step is an accepted talk of [a] with [b]. *)
Definition is_talk (a b : string) (s : Step) (db : DB) : bool :=
  match s with
  | Submit rq =>
      match accepted_talk rq db with
      | Some (a', b') => (a' =? a)%string && (b' =? b)%string
      | None => false
      end
  | Tick _ => false
  end.

(** The XP of a character, 0 for an unknown one. *)
Definition xp_of (db : DB) (id : string) : Z :=
  match find_character db id with
  | Some c => c_xp c
  | None => 0
  end.

(** The step is an accepted talk of [a] with [b] that awards the
    first-meeting bonus: it raises the XP of [a] by [XP_first_meeting]. *)
Definition awards_first_meeting (a b : string) (s : Step) (db : DB) : bool :=
  is_talk a b s db && (xp_of (fst (step s db)) a - xp_of db a =? XP_first_meeting).

(** The number of steps of a history that satisfy [p] in the store they
    are applied to. *)
Fixpoint count_steps (p : Step -> DB -> bool) (steps : list Step) (db : DB) : nat :=
  match steps with
  | [] => 0
  | s :: rest => ((if p s db then 1 else 0) + count_steps p rest (fst (step s db)))%nat
  end.

End History.

(** ** The rows an operation writes

    The row of a character after [awardXp], after a first-meeting moment
    and after an accepted talk of the richer server, written as functions
    of the rows read.  The lemmas of Part II show that the operations
    write exactly these rows. *)

Module Effects.
Import Leveling Store Core.

(** [awardXp]: the row [c] after an award computed from the row [me]. *)
Definition award_row (me : Character) (amount : Z) (c : Character) : Character :=
  let info := calculateLevel (c_xp me + amount) in
  let c1 := set_progress (c_xp me + amount) (level info) (maxHpForLevel (level info)) c in
  if c_level me <? level info then heal c1 else c1.

(** The energy cost of a talk. *)
Definition tired (c : Character) : Character :=
  set_energy (fun c => coalesce (c_energy c) 100 - Rich.energyCost) c.

(** [addSignificantMoment(id, first_meeting(who), 'social')]: the row [c]
    after the moment was pushed onto the moments of the row [old]. *)
Definition met (tick : Z) (who : string) (old c : Character) : Character :=
  let ms := push_moment {| m_tick := tick; m_category := "social";
                           m_moment := first_meeting who |} (moments_of old) in
  set_story ms (next_life_story tick ms (life_story_of old)) c.

(** The speaker's row after an accepted talk with [l]. *)
Definition speaker_row (db : DB) (l : Character) (a : string) (a0 : Character)
    : Character :=
  let tick := w_tick (world db) in
  let first :=
    match relationships db !! (a, c_id l) with
    | None => true
    | Some _ => false
    end in
  let reward := Rich.talk_xp first (Rich.recent_exchanges_of db a (c_id l) + 1) in
  let a1 := if first then met tick (c_name l) (tired a0) (tired a0) else tired a0 in
  if 0 <? reward then award_row a1 reward a1 else a1.

(** The listener's row after an accepted talk of [me]. *)
Definition listener_row (db : DB) (me l : Character) (a : string) (b0 : Character)
    : Character :=
  match relationships db !! (a, c_id l) with
  | None => met (w_tick (world db)) (c_name me) b0 b0
  | Some _ => b0
  end.

End Effects.

(** ** A small world to evaluate the handlers on

    Two characters on the default meadow (20 x 15), the first river tile
    and the pond of the initial objects. *)

Module Meadow.
Import Store Core.

Definition newcomer (id : string) (x y : Z) : Character :=
  {| c_id := id; c_token := ("token-" ++ id)%string; c_name := id;
     c_life_story := Some EmptyString; c_significant_moments := Some [];
     c_x := x; c_y := y; c_hp := 100; c_max_hp := 100; c_xp := 0; c_level := 1;
     c_energy := Some 100; c_max_energy := Some 100; c_turn_interval := 1;
     c_last_action_tick := 0; c_is_active := true |}.

Definition river1 : WorldObject :=
  {| o_id := "river1"; o_name := "River"; o_x := 0; o_y := 10;
     o_description := Some "A river flows from west to east."%string;
     o_can_interact := false; o_interact_result := None; o_blocking := true |}.

Definition pond : WorldObject :=
  {| o_id := "pond"; o_name := "Pond"; o_x := 10; o_y := 7;
     o_description := Some "A small clear pond. Fish dart below the surface."%string;
     o_can_interact := true;
     o_interact_result := Some "You drink the cool water. Refreshing!"%string;
     o_blocking := false |}.

Definition world_at (tick : Z) : WorldRow :=
  {| w_width := 20; w_height := 15; w_tick := tick; w_is_night := Some false;
     w_day_length := Some 200; w_night_length := Some 50 |}.

(** The meadow at [tick] with the given characters and no history. *)
Definition meadow (tick : Z) (cs : list Character) : DB :=
  {| world := world_at tick; characters := cs; objects := [river1; pond];
     relationships := ∅; memories := []; conversations := [];
     activity_log := []; sent := [] |}.

(** A relationship row after some talks. *)
Definition acquainted (recent cooldown : Z) : Relationship :=
  {| r_sentiment := 5 + recent; r_interactions := recent; r_first_met_tick := 1;
     r_last_interaction_tick := 2; r_recent_exchanges := Some recent;
     r_cooldown_until_tick := Some cooldown |}.

(** Alice next to Bob at [tick], with the given row for (alice, bob). *)
Definition neighbours (tick : Z) (r : option Relationship) : DB :=
  let db := meadow tick [newcomer "alice" 5 5; newcomer "bob" 6 5] in
  match r with
  | None => db
  | Some row => set_relationships {[ ("alice", "bob")%string := row ]} db
  end.

(** A character that has recorded [n] moments and holds a life story of
    [k] characters. *)
Definition chronicle (n : nat) : list Moment :=
  map (fun i => {| m_tick := Z.of_nat i; m_category := "exploration";
                   m_moment := ("Walk " ++ Text.string_of_Z (Z.of_nat i))%string |})
    (seq 0 n).

Definition veteran (id : string) (n k : nat) : Character :=
  set_story (chronicle n) (string_of_list_ascii (repeat "x"%char k))
    (newcomer id 5 5).

Definition submit (id action : string) (direction target message : option string)
    : Request :=
  {| rq_charId := id; rq_token := Some ("token-" ++ id)%string;
     rq_action := action; rq_direction := direction; rq_target := target;
     rq_message := message |}.

End Meadow.

(** ** Cumulative thresholds of the leveling system *)

Module Thresholds.
Import Leveling.

(** The XP of the first [k] levels together:
    [xpForLevel(1) + ... + xpForLevel(k)]. *)
Fixpoint xp_sum (k : nat) : Z :=
  match k with
  | O => 0
  | S k' => xp_sum k' + xpForLevel (Z.of_nat (S k'))
  end.

(** The total XP at which a character enters level [lvl]. *)
Definition xp_to_reach (lvl : Z) : Z := xp_sum (Z.to_nat (lvl - 1)).

End Thresholds.

(** ** The helpers and the view of [GET /api/look/:charId] *)

Module Look.
Import Text Store Core.

(** [getDirection(dx, dy)] *)
Definition getDirection (dx dy : Z) : string :=
  if dy <? 0 then
    (if dx <? 0 then "northwest" else if 0 <? dx then "northeast" else "north")
  else if 0 <? dy then
    (if dx <? 0 then "southwest" else if 0 <? dx then "southeast" else "south")
  else if dx <? 0 then "west" else if 0 <? dx then "east" else "here".

(** [getMoveToward(dx, dy)] *)
Definition getMoveToward (dx dy : Z) : list string :=
  let moves := [] in
  let moves := if dy <? 0 then moves ++ ["north"%string] else moves in
  let moves := if 0 <? dy then moves ++ ["south"%string] else moves in
  let moves := if 0 <? dx then moves ++ ["east"%string] else moves in
  let moves := if dx <? 0 then moves ++ ["west"%string] else moves in
  moves.

(** The tile one step in direction [d] from [(x, y)], by the [dirs] table
    of the move case. *)
Definition step_to (d : string) (x y : Z) : option (Z * Z) :=
  match dirs d with
  | Some (dx, dy) => Some (x + dx, y + dy)
  | None => None
  end.

(** [if (cond) blocked.push(name); else open.push(name)] on the pair
    [(open, blocked)]. *)
Definition push_move (cond : bool) (name : string)
    (lists : list string * list string) : list string * list string :=
  if cond then (fst lists, snd lists ++ [name])
  else (fst lists ++ [name], snd lists).

(** The lists [open] and [blocked] of the look route. *)
Definition boundaries (w : WorldRow) (me : Character) : list string * list string :=
  push_move (c_x me =? 0) "west"
    (push_move (c_x me =? w_width w - 1) "east"
       (push_move (c_y me =? w_height w - 1) "south"
          (push_move (c_y me =? 0) "north" ([], [])))).

(** The rows of the query for the other characters: [id != $1 AND
    is_active = true AND ABS(x - $2) <= 10 AND ABS(y - $3) <= 10]. *)
Definition others (db : DB) (charId : string) (x y : Z) : list Character :=
  List.filter
    (fun c => negb (c_id c =? charId)%string && c_is_active c
              && (Z.abs (c_x c - x) <=? 10) && (Z.abs (c_y c - y) <=? 10))
    (characters db).

(** [getDistance(me.x, me.y, c.x, c.y) < 2].  The coordinates are
    integers, and the square root of an integer is below 2 exactly when
    the integer is below 4. *)
Definition within_talk_hint (x y : Z) (c : Character) : bool := dist2 x y c <? 4.

(** The fields of the answer the agent decides on. *)
Record LookInfo := mkLook {
  lk_canAct : bool;
  lk_canTalk : bool;
  lk_needsRest : bool;
  lk_validMoves : list string;
  lk_blockedMoves : list string
}.

(** [app.get('/api/look/:charId', ...)]; [None] is the answer 401. *)
Definition look (db : DB) (charId : string) (token : option string)
    : option LookInfo :=
  match authenticate db charId token with
  | None => None
  | Some me =>
      let energy := or_default (c_energy me) 100 in
      let lists := boundaries (world db) me in
      Some {| lk_canAct := canAct db charId;
              lk_canTalk :=
                existsb (within_talk_hint (c_x me) (c_y me))
                  (others db charId (c_x me) (c_y me));
              lk_needsRest := energy <? 30;
              lk_validMoves := fst lists;
              lk_blockedMoves := snd lists |}
  end.

(** [isRestSpot]: the name of the object, in lower case, holds
    'campfire', 'cottage' or 'pond'. *)
Definition isRestSpot (o : WorldObject) : bool :=
  includes (toLowerCase (o_name o)) "campfire"
  || includes (toLowerCase (o_name o)) "cottage"
  || includes (toLowerCase (o_name o)) "pond".

(** [energyRestored]: 50 at a cottage, 30 at the other rest spots. *)
Definition energyRestored (o : WorldObject) : Z :=
  if includes (toLowerCase (o_name o)) "cottage" then 50 else 30.

End Look.

(** ** [PATCH /api/character/:charId]

    The personality column is not part of the rows of this embedding; a
    request that carries a personality counts as an update and leaves the
    modelled columns as they are. *)

Module Settings.
Import Store Core.

(** The body of the request; [None] is a field the body does not have. *)
Record Patch := mkPatch {
  p_turn_interval : option Z;
  p_personality : option string;
  p_is_active : option bool
}.

Inductive PatchResponse : Type :=
| PatchUnauthorized
| PatchNoUpdates
| PatchUpdated.

(** [SET turn_interval = $n] *)
Definition set_turn_interval (t : Z) (c : Character) : Character :=
  {| c_id := c_id c; c_token := c_token c; c_name := c_name c;
     c_life_story := c_life_story c;
     c_significant_moments := c_significant_moments c;
     c_x := c_x c; c_y := c_y c; c_hp := c_hp c; c_max_hp := c_max_hp c;
     c_xp := c_xp c; c_level := c_level c; c_energy := c_energy c;
     c_max_energy := c_max_energy c; c_turn_interval := t;
     c_last_action_tick := c_last_action_tick c;
     c_is_active := c_is_active c |}.

(** [SET is_active = $n] *)
Definition set_is_active (b : bool) (c : Character) : Character :=
  {| c_id := c_id c; c_token := c_token c; c_name := c_name c;
     c_life_story := c_life_story c;
     c_significant_moments := c_significant_moments c;
     c_x := c_x c; c_y := c_y c; c_hp := c_hp c; c_max_hp := c_max_hp c;
     c_xp := c_xp c; c_level := c_level c; c_energy := c_energy c;
     c_max_energy := c_max_energy c; c_turn_interval := c_turn_interval c;
     c_last_action_tick := c_last_action_tick c;
     c_is_active := b |}.

(** The assignments collected in [updates]:
    [Math.max(1, Math.min(1000, turn_interval))] and [is_active]. *)
Definition apply_patch (p : Patch) (c : Character) : Character :=
  let c1 :=
    match p_turn_interval p with
    | Some t => set_turn_interval (Z.max 1 (Z.min 1000 t)) c
    | None => c
    end in
  match p_is_active p with
  | Some b => set_is_active b c1
  | None => c1
  end.

(** [updates.length === 0] *)
Definition no_updates (p : Patch) : bool :=
  match p_turn_interval p, p_personality p, p_is_active p with
  | None, None, None => true
  | _, _, _ => false
  end.

Definition update_settings (charId : string) (token : option string) (p : Patch)
    (db : DB) : DB * PatchResponse :=
  match authenticate db charId token with
  | None => (db, PatchUnauthorized)
  | Some _ =>
      if no_updates p then (db, PatchNoUpdates)
      else (update_character charId (apply_patch p) db, PatchUpdated)
  end.

End Settings.

(** ** The script that removes duplicate first-meeting milestones *)

Module Cleanup.
Import Text Store Core.

(** [m.moment && m.moment.includes('for the first time')] *)
Definition is_meeting (m : Moment) : bool :=
  negb (m_moment m =? "")%string && includes (m_moment m) "for the first time".

(** The [filter] with the set [seenMeetings]: a first-meeting moment whose
    text was seen is dropped, every other moment is kept. *)
Fixpoint filter_seen (seen : list string) (moments : list Moment) : list Moment :=
  match moments with
  | [] => []
  | m :: rest =>
      if is_meeting m then
        if existsb (String.eqb (m_moment m)) seen then filter_seen seen rest
        else m :: filter_seen (m_moment m :: seen) rest
      else m :: filter_seen seen rest
  end.

Definition dedupe (moments : list Moment) : list Moment := filter_seen [] moments.

(** [SET significant_moments = $1] *)
Definition set_moments (moments : list Moment) (c : Character) : Character :=
  {| c_id := c_id c; c_token := c_token c; c_name := c_name c;
     c_life_story := c_life_story c;
     c_significant_moments := Some moments;
     c_x := c_x c; c_y := c_y c; c_hp := c_hp c; c_max_hp := c_max_hp c;
     c_xp := c_xp c; c_level := c_level c; c_energy := c_energy c;
     c_max_energy := c_max_energy c; c_turn_interval := c_turn_interval c;
     c_last_action_tick := c_last_action_tick c;
     c_is_active := c_is_active c |}.

(** The body of the loop for the row [char] of the first query. *)
Definition cleanup_one (char : Character) (db : DB) : DB :=
  let moments := moments_of char in
  let cleaned := dedupe moments in
  if (0 <? length moments - length cleaned)%nat
  then update_character (c_id char) (set_moments cleaned) db
  else db.

(** [cleanup()]: the loop over the rows of [SELECT ... FROM characters]. *)
Definition cleanup (db : DB) : DB :=
  fold_left (fun d char => cleanup_one char d) (characters db) db.

(** The row of a character after the script. *)
Definition clean_row (c : Character) : Character :=
  let cleaned := dedupe (moments_of c) in
  if (0 <? length (moments_of c) - length cleaned)%nat
  then set_moments cleaned c
  else c.

End Cleanup.

(** ** Predicates on rows and stores *)

Module Invariants.
Import Leveling Text Store Core.

(** Every row the first store answers for an id has a row in the second
    store, related to it by [R]. *)
Definition evolves (R : Character -> Character -> Prop) (db db' : DB) : Prop :=
  forall id c, find_character db id = Some c ->
               exists c', find_character db' id = Some c' /\ R c c'.

(** The second store has the world row, the objects and the ids of the
    first, in the same order, and its rows evolve by [R]. *)
Definition advances (R : Character -> Character -> Prop) (db db' : DB) : Prop :=
  world db' = world db
  /\ objects db' = objects db
  /\ map c_id (characters db') = map c_id (characters db)
  /\ evolves R db db'.

(** The primary key of [characters]. *)
Definition unique_ids (db : DB) : Prop := NoDup (map c_id (characters db)).

(** A run of [worldTick] with the given draws. *)
Definition ticks (picks : list nat) (db : DB) : DB :=
  fold_left (fun d pick => Rich.worldTick pick d) picks db.

(** The tile [(x, y)] lies in a world of the given size and no blocking
    object of [objs] stands on it. *)
Definition free_tile (width height : Z) (objs : list WorldObject) (x y : Z) : Prop :=
  0 <= x < width /\ 0 <= y < height
  /\ forall o, In o objs -> o_x o = x -> o_y o = y -> o_blocking o = false.

(** The energy the server reads for a row, and its bound. *)
Definition energy_in_range (c : Character) : Prop :=
  -3 <= coalesce (c_energy c) 100 <= coalesce (c_max_energy c) 100.

(** Level and hit points agree with the XP of the row. *)
Definition progress_ok (c : Character) : Prop :=
  c_level c = level (calculateLevel (c_xp c))
  /\ c_max_hp c = maxHpForLevel (c_level c)
  /\ c_hp c <= c_max_hp c.

(** The columns no action and no tick writes. *)
Definition same_identity (c c' : Character) : Prop :=
  c_id c' = c_id c /\ c_token c' = c_token c /\ c_name c' = c_name c
  /\ c_turn_interval c' = c_turn_interval c /\ c_is_active c' = c_is_active c
  /\ c_max_energy c' = c_max_energy c.

(** The bounds of the life-story recorder. *)
Definition story_bounded (c : Character) : Prop :=
  (length (moments_of c) <= 50)%nat /\ (String.length (life_story_of c) <= 5000)%nat.

(** The records a submission of [me] writes, by its answer. *)
Definition records_of (db db' : DB) (rq : Request) (me : Character) (r : Response)
    : Prop :=
  match r with
  | Accepted (Talked _ _ _ _ _ _ _) =>
      exists l message,
        nearby_listener db (rq_charId rq) (c_x me) (c_y me) = Some l
        /\ rq_message rq = Some message
        /\ conversations db'
           = conversations db
             ++ [{| cv_tick := w_tick (world db); cv_speaker_id := rq_charId rq;
                    cv_listener_id := c_id l; cv_message := message |}]
        /\ memories db'
           = memories db
             ++ [{| mem_character_id := rq_charId rq; mem_tick := w_tick (world db);
                    mem_content := ("I said to " ++ c_name l ++ ": "
                                    ++ dquote ++ message ++ dquote)%string |};
                 {| mem_character_id := c_id l; mem_tick := w_tick (world db);
                    mem_content := (c_name me ++ " said to me: "
                                    ++ dquote ++ message ++ dquote)%string |}]
  | _ => conversations db' = conversations db /\ memories db' = memories db
  end.

End Invariants.

(** ** The script that resets the conversation cooldowns *)

Module Maintenance.
Import Store.

(** [SET recent_exchanges = 0, cooldown_until_tick = 0] *)
Definition reset_row (r : Relationship) : Relationship :=
  {| r_sentiment := r_sentiment r; r_interactions := r_interactions r;
     r_first_met_tick := r_first_met_tick r;
     r_last_interaction_tick := r_last_interaction_tick r;
     r_recent_exchanges := Some 0; r_cooldown_until_tick := Some 0 |}.

(** [reset()]: [UPDATE relationships SET recent_exchanges = 0,
    cooldown_until_tick = 0] *)
Definition reset_cooldowns (db : DB) : DB :=
  set_relationships (reset_row <$> relationships db) db.

End Maintenance.

(** ** The script that syncs the conversation summaries of a pair

    The script reads and writes the column [conversation_summaries] of
    [relationships] only; the column is modelled by itself, as a map from
    the key [(char1_id, char2_id)] to the list it holds.  The script keys
    its groups by the string [id1|id2]; character ids hold no [|], so the
    group key is modelled as the pair. *)

Module Summaries.
Import Text Store.

(** One entry of [conversation_summaries]; [None] is a field the entry
    does not have. *)
Record Summary := mkSummary {
  s_tick : option Z;
  s_title : option string;
  s_summary : option string;
  s_topics : list string
}.

(** [e.tick === s.tick] *)
Definition same_tick (e s : Summary) : bool :=
  match s_tick e, s_tick s with
  | Some x, Some y => x =? y
  | None, None => true
  | _, _ => false
  end.

(** [for (const s of summaries) { if (!existing.summaries.some(e => e.tick
    === s.tick)) existing.summaries.push(s) }] *)
Definition add_summaries (existing summaries : list Summary) : list Summary :=
  fold_left (fun acc s => if existsb (fun e => same_tick e s) acc then acc else acc ++ [s])
    summaries existing.

(** [[rel.char1_id, rel.char2_id].sort()]: the two ids in the order of
    their code units. *)
Definition sorted_key (a b : string) : string * string :=
  if String.ltb b a then (b, a) else (a, b).

Definition key_eqb (k1 k2 : string * string) : bool :=
  (fst k1 =? fst k2)%string && (snd k1 =? snd k2)%string.

(** The [Map] [pairs], in the order of insertion, and one round of the
    first loop on it. *)
Fixpoint add_to_pairs (key : string * string) (summaries : list Summary)
    (pairs : list ((string * string) * list Summary))
    : list ((string * string) * list Summary) :=
  match pairs with
  | [] => [(key, add_summaries [] summaries)]
  | (k, l) :: rest =>
      if key_eqb k key then (k, add_summaries l summaries) :: rest
      else (k, l) :: add_to_pairs key summaries rest
  end.

(** The first loop, over the rows [(char1_id, char2_id,
    conversation_summaries)] of the query. *)
Definition group (rels : list (string * string * list Summary))
    : list ((string * string) * list Summary) :=
  fold_left (fun pairs rel =>
               add_to_pairs (sorted_key (fst (fst rel)) (snd (fst rel))) (snd rel) pairs)
    rels [].

(** [a.tick || 0] *)
Definition tick_key (s : Summary) : Z := or_default (s_tick s) 0.

(** [data.summaries.sort((a, b) => (a.tick || 0) - (b.tick || 0))]: the
    sort is stable, and is written as the insertion of each entry behind
    the entries that do not come after it. *)
Fixpoint insert_by_tick (s : Summary) (l : list Summary) : list Summary :=
  match l with
  | [] => [s]
  | x :: rest =>
      if tick_key s <? tick_key x then s :: x :: rest
      else x :: insert_by_tick s rest
  end.

Definition sort_by_tick (l : list Summary) : list Summary :=
  fold_left (fun acc s => insert_by_tick s acc) l [].

(** The body of the second loop: the two upserts of a pair. *)
Definition sync_pair (table : gmap (string * string) (list Summary))
    (entry : (string * string) * list Summary)
    : gmap (string * string) (list Summary) :=
  let id1 := fst (fst entry) in
  let id2 := snd (fst entry) in
  let summaries := last_n 20 (sort_by_tick (snd entry)) in
  <[(id2, id1) := summaries]> (<[(id1, id2) := summaries]> table).

(** [sync()] on the rows of its query and the column. *)
Definition sync (rels : list (string * string * list Summary))
    (table : gmap (string * string) (list Summary))
    : gmap (string * string) (list Summary) :=
  fold_left sync_pair (group rels) table.

(** The entries are in the order of their ticks. *)
Fixpoint ordered_by_tick (l : list Summary) : Prop :=
  match l with
  | [] => True
  | x :: rest =>
      Forall (fun y => tick_key x <= tick_key y) rest /\ ordered_by_tick rest
  end.

(** The group of a key in [pairs]. *)
Definition pairs_get (pairs : list ((string * string) * list Summary))
    (key : string * string) : option (list Summary) :=
  snd <$> find (fun entry => key_eqb (fst entry) key) pairs.

End Summaries.

(* ================================================================== *)
(** * Part II: properties *)
(* ================================================================== *)

Module LevelingFacts.
Import Leveling.

Lemma xpForLevel_ge_100 (n : Z) : 1 <= n -> 100 <= xpForLevel n.
Proof.
  intros Hn. unfold xpForLevel.
  destruct (Z.leb_spec 1 n) as [_|Hlt]; [|lia].
  assert (Hp : 0 < 2 ^ (n - 1)) by (apply Z.pow_pos_nonneg; lia).
  apply Z.div_le_lower_bound; [exact Hp|].
  assert (2 ^ (n - 1) <= 3 ^ (n - 1)) by (apply Z.pow_le_mono_l; lia).
  lia.
Qed.

Lemma loop_after_level (k : nat) : ls_level (loop_after k) = 1 + Z.of_nat k.
Proof.
  induction k as [|k IH]; [reflexivity|].
  unfold loop_after in *. rewrite Nat.iter_succ. cbn [loop_body ls_level].
  rewrite IH. lia.
Qed.

Lemma loop_after_needed (k : nat) :
  ls_xpNeeded (loop_after k) = xpForLevel (ls_level (loop_after k)).
Proof. destruct k; reflexivity. Qed.

Lemma iter_body_shift (n : nat) (s : LoopState) :
  Nat.iter n loop_body (loop_body s) = loop_body (Nat.iter n loop_body s).
Proof.
  induction n as [|n IH]; [reflexivity|].
  rewrite !Nat.iter_succ. now rewrite IH.
Qed.

(** The level only grows along the loop, whatever the cut. *)
Lemma while_loop_level_le (fuel : nat) (total : Z) (s : LoopState) :
  ls_level s <= ls_level (while_loop fuel total s).
Proof.
  revert s. induction fuel as [|fuel IH]; intros s; cbn; [lia|].
  destruct (loop_cond total s); [|lia].
  specialize (IH (loop_body s)). cbn in IH. lia.
Qed.

(** A larger total and a larger allowance never give a smaller level. *)
Lemma while_loop_mono (f1 f2 : nat) (x y : Z) (s : LoopState) :
  (f1 <= f2)%nat -> x <= y ->
  ls_level (while_loop f1 x s) <= ls_level (while_loop f2 y s).
Proof.
  revert f2 s. induction f1 as [|f1 IH]; intros f2 s Hf Hxy.
  - cbn. apply while_loop_level_le.
  - destruct f2 as [|f2]; [lia|]. cbn.
    destruct (loop_cond x s) eqn:Hx.
    + assert (Hy : loop_cond y s = true).
      { unfold loop_cond in *. apply Z.leb_le in Hx. apply Z.leb_le. lia. }
      rewrite Hy. apply IH; lia.
    + destruct (loop_cond y s); [|lia].
      pose proof (while_loop_level_le f2 y (loop_body s)) as H. cbn in H. lia.
Qed.

Lemma loop_fuel_mono (x y : Z) : x <= y -> (loop_fuel x <= loop_fuel y)%nat.
Proof.
  intros H. unfold loop_fuel.
  assert (x / 100 <= y / 100) by (apply Z.div_le_mono; lia).
  lia.
Qed.

Lemma calculateLevel_mono (x y : Z) :
  x <= y -> level (calculateLevel x) <= level (calculateLevel y).
Proof.
  intros H. unfold calculateLevel. cbn [level level_info_of].
  apply while_loop_mono; [apply loop_fuel_mono|]; exact H.
Qed.

Lemma running_totals_head (xp : Z) (awards : list Z) :
  running_totals xp awards !! 0%nat = Some xp.
Proof. destruct awards; reflexivity. Qed.

Lemma running_totals_ge (awards : list Z) :
  Forall (fun a => 0 <= a) awards ->
  forall (xp : Z) (i : nat) (t : Z),
    running_totals xp awards !! i = Some t -> xp <= t.
Proof.
  induction 1 as [|a rest Ha _ IH]; intros xp i t Hi.
  - cbn in Hi. apply list_lookup_singleton_Some in Hi as [_ <-]. lia.
  - destruct i as [|i]; cbn in Hi; [injection Hi; lia|].
    apply IH in Hi. lia.
Qed.

Lemma running_totals_sorted (awards : list Z) :
  Forall (fun a => 0 <= a) awards ->
  forall (xp : Z) (i j : nat) (ti tj : Z),
    (i <= j)%nat ->
    running_totals xp awards !! i = Some ti ->
    running_totals xp awards !! j = Some tj ->
    ti <= tj.
Proof.
  induction 1 as [|a rest Ha Hrest IH]; intros xp i j ti tj Hij Hi Hj.
  - cbn in Hi, Hj.
    apply list_lookup_singleton_Some in Hi as [_ <-].
    apply list_lookup_singleton_Some in Hj as [_ <-]. lia.
  - destruct i as [|i].
    + cbn in Hi. injection Hi as <-.
      eapply (running_totals_ge (a :: rest)); [constructor; eassumption|exact Hj].
    + destruct j as [|j]; [lia|]. cbn in Hi, Hj.
      eapply IH; [|exact Hi|exact Hj]. lia.
Qed.

(** The cut loop is a prefix of the iteration of the body: it runs the
    body [n] times, the condition holding before each run. *)
Lemma while_loop_iter (fuel : nat) (total : Z) (s : LoopState) :
  exists n : nat,
    (n <= fuel)%nat
    /\ while_loop fuel total s = Nat.iter n loop_body s
    /\ (forall k, (k < n)%nat -> loop_cond total (Nat.iter k loop_body s) = true)
    /\ ((n < fuel)%nat -> loop_cond total (Nat.iter n loop_body s) = false).
Proof.
  revert s. induction fuel as [|fuel IH]; intros s.
  - exists 0%nat. repeat split; [lia | intros; lia | lia].
  - cbn [while_loop]. destruct (loop_cond total s) eqn:Hc.
    + destruct (IH (loop_body s)) as (n & Hn & Heq & Htrue & Hfalse).
      exists (S n). repeat split.
      * lia.
      * rewrite Heq, Nat.iter_succ. apply iter_body_shift.
      * intros [|k] Hk; [exact Hc|].
        rewrite Nat.iter_succ, <- iter_body_shift. apply Htrue. lia.
      * intros Hlt. rewrite Nat.iter_succ, <- iter_body_shift. apply Hfalse. lia.
    + exists 0%nat. repeat split; [lia | intros; lia | intros _; exact Hc].
Qed.

Lemma loop_after_step (k : nat) :
  ls_xpAccumulated (loop_after (S k)) =
    ls_xpAccumulated (loop_after k) + xpForLevel (ls_level (loop_after k))
  /\ 100 <= xpForLevel (ls_level (loop_after k)).
Proof.
  split.
  - unfold loop_after at 1. rewrite Nat.iter_succ. fold (loop_after k).
    cbn [loop_body ls_xpAccumulated]. now rewrite loop_after_needed.
  - apply xpForLevel_ge_100. rewrite loop_after_level. lia.
Qed.

Lemma loop_after_acc_ge (k : nat) :
  100 * Z.of_nat k <= ls_xpAccumulated (loop_after k).
Proof.
  induction k as [|k IH]; [cbn; lia|].
  destruct (loop_after_step k) as [-> H]. lia.
Qed.

(** While the condition has held before each of [n] runs of the body,
    [100 * n] stays below the total. *)
Lemma loop_runs_bound (total : Z) (n : nat) :
  (forall k, (k < n)%nat -> loop_cond total (loop_after k) = true) ->
  n = 0%nat \/ 100 * Z.of_nat n <= total.
Proof.
  intros Htrue. destruct n as [|n]; [now left|right].
  assert (Hc : loop_cond total (loop_after n) = true) by (apply Htrue; lia).
  unfold loop_cond in Hc. apply Z.leb_le in Hc.
  rewrite loop_after_needed in Hc.
  destruct (loop_after_step n) as [Hacc _].
  pose proof (loop_after_acc_ge (S n)). lia.
Qed.

(** With the allowance [loop_fuel], or any larger one, the loop of
    [calculateLevel] stops because its condition fails. *)
Lemma while_loop_exits (total : Z) (fuel : nat) :
  (loop_fuel total <= fuel)%nat ->
  loop_cond total (while_loop fuel total loop_init) = false.
Proof.
  intros Hfuel.
  destruct (while_loop_iter fuel total loop_init) as (n & Hn & Heq & Htrue & Hfalse).
  rewrite Heq. fold (loop_after n).
  destruct (Nat.eq_dec n fuel) as [->|Hne]; [|apply Hfalse; lia].
  destruct fuel as [|fuel].
  - unfold loop_fuel in Hfuel.
    assert (total / 100 + 1 <= 0) by lia.
    assert (total < 0) by (Z.to_euclidean_division_equations; lia).
    change (loop_after 0) with loop_init. unfold loop_cond, loop_init.
    cbn [ls_xpAccumulated ls_xpNeeded].
    change (xpForLevel 1) with 100. apply Z.leb_gt. lia.
  - destruct (loop_runs_bound total (S fuel) Htrue) as [H0|Hb]; [lia|].
    unfold loop_fuel in Hfuel.
    Z.to_euclidean_division_equations; lia.
Qed.

End LevelingFacts.

(** ** The store: rows after an update *)

Module StoreFacts.
Import Leveling Text Store Core Effects.

Lemma find_map_same_id (g : Character -> Character) (id : string)
    (l : list Character) :
  (forall c, c_id (g c) = c_id c) ->
  find (fun c => (c_id c =? id)%string) (map g l)
  = g <$> find (fun c => (c_id c =? id)%string) l.
Proof.
  intros Hid. induction l as [|c l IH]; [reflexivity|].
  cbn [map find]. rewrite Hid. destruct (c_id c =? id)%string; [reflexivity|exact IH].
Qed.

Lemma find_character_id (db : DB) (id : string) (c : Character) :
  find_character db id = Some c -> c_id c = id.
Proof.
  unfold find_character. intros H. apply find_some in H as [_ H].
  now apply String.eqb_eq.
Qed.

(** The row found after [UPDATE characters SET ... WHERE id = $1], for an
    update that leaves the id alone. *)
Lemma find_character_update (id id' : string) (f : Character -> Character)
    (db : DB) :
  (forall c, c_id (f c) = c_id c) ->
  find_character (update_character id f db) id'
  = (fun c => if (id' =? id)%string then f c else c) <$> find_character db id'.
Proof.
  intros Hid. unfold find_character, update_character. cbn [characters set_characters].
  rewrite find_map_same_id.
  - destruct (find _ (characters db)) as [c|] eqn:Hc; [|reflexivity].
    apply find_some in Hc as [_ Hc]. apply String.eqb_eq in Hc. cbn. now rewrite Hc.
  - intros c. destruct (c_id c =? id)%string; [apply Hid|reflexivity].
Qed.

(** A row found by id and token is found by id. *)
Lemma authenticate_found (db : DB) (id : string) (token : option string)
    (me : Character) :
  authenticate db id token = Some me ->
  c_id me = id /\ exists c, find_character db id = Some c.
Proof.
  unfold authenticate. destruct token as [t|]; [|discriminate].
  intros H. apply find_some in H as [Hin H].
  apply andb_prop in H as [H _]. apply String.eqb_eq in H. split; [exact H|].
  unfold find_character.
  destruct (find (fun c => (c_id c =? id)%string) (characters db)) as [c|] eqn:Hf;
    [eauto|].
  eapply find_none in Hf; [|exact Hin]. apply String.eqb_neq in Hf. contradiction.
Qed.

Lemma awardXp_characters (id : string) (amount : Z) (db : DB) (me : Character) :
  find_character db id = Some me ->
  characters (fst (awardXp id amount db))
  = map (fun c => if (c_id c =? id)%string then award_row me amount c else c)
      (characters db).
Proof.
  intros Hme. unfold awardXp, award_row. rewrite Hme.
  destruct (c_level me <? level (calculateLevel (c_xp me + amount))); cbn.
  - rewrite map_map. apply map_ext. intros c.
    destruct (c_id c =? id)%string eqn:Hc; cbn; now rewrite Hc.
  - reflexivity.
Qed.

Lemma awardXp_frame (id : string) (amount : Z) (db : DB) :
  world (fst (awardXp id amount db)) = world db
  /\ objects (fst (awardXp id amount db)) = objects db
  /\ relationships (fst (awardXp id amount db)) = relationships db
  /\ memories (fst (awardXp id amount db)) = memories db
  /\ conversations (fst (awardXp id amount db)) = conversations db.
Proof.
  unfold awardXp. destruct (find_character db id) as [me|]; [|now repeat split].
  destruct (c_level me <? _); now repeat split.
Qed.

Lemma find_character_awardXp (id id' : string) (amount : Z) (db : DB)
    (me : Character) :
  find_character db id = Some me ->
  find_character (fst (awardXp id amount db)) id'
  = (fun c => if (id' =? id)%string then award_row me amount c else c)
      <$> find_character db id'.
Proof.
  intros Hme. unfold find_character at 1.
  rewrite (awardXp_characters _ _ _ _ Hme), find_map_same_id.
  - fold (find_character db id').
    destruct (find_character db id') as [c|] eqn:Hc; [|reflexivity].
    apply find_character_id in Hc. cbn. now rewrite Hc.
  - intros c. unfold award_row.
    destruct (c_id c =? id)%string; [|reflexivity].
    now destruct (c_level me <? _).
Qed.

Lemma find_character_update_other (id id' : string) (f : Character -> Character)
    (db : DB) :
  (forall c, c_id (f c) = c_id c) -> id' <> id ->
  find_character (update_character id f db) id' = find_character db id'.
Proof.
  intros Hid Hne. rewrite find_character_update by exact Hid.
  apply String.eqb_neq in Hne. rewrite Hne. now destruct (find_character db id').
Qed.

Lemma find_character_awardXp_other (id id' : string) (amount : Z) (db : DB) :
  id' <> id ->
  find_character (fst (awardXp id amount db)) id' = find_character db id'.
Proof.
  intros Hne. destruct (find_character db id) as [me|] eqn:Hme.
  - rewrite (find_character_awardXp _ _ _ _ _ Hme).
    apply String.eqb_neq in Hne. rewrite Hne. now destruct (find_character db id').
  - unfold awardXp. now rewrite Hme.
Qed.

(** Inserts into the other tables leave the rows of [characters]. *)
Lemma find_character_insert_log (e : LogEntry) (db : DB) (id : string) :
  find_character (insert_log e db) id = find_character db id.
Proof. reflexivity. Qed.

Lemma find_character_broadcast (b : Broadcast) (db : DB) (id : string) :
  find_character (broadcast b db) id = find_character db id.
Proof. reflexivity. Qed.

Lemma find_character_insert_memory (m : Memory) (db : DB) (id : string) :
  find_character (insert_memory m db) id = find_character db id.
Proof. reflexivity. Qed.

Lemma find_character_insert_conversation (c : Conversation) (db : DB)
    (id : string) :
  find_character (insert_conversation c db) id = find_character db id.
Proof. reflexivity. Qed.

Lemma find_character_set_relationships (rs : gmap (string * string) Relationship)
    (db : DB) (id : string) :
  find_character (set_relationships rs db) id = find_character db id.
Proof. reflexivity. Qed.

Lemma find_character_set_world (w : WorldRow) (db : DB) (id : string) :
  find_character (set_world w db) id = find_character db id.
Proof. reflexivity. Qed.

Create Rewrite HintDb find_db.
#[export] Hint Rewrite find_character_insert_log find_character_broadcast
  find_character_insert_memory find_character_insert_conversation
  find_character_set_relationships find_character_set_world : find_db.

(** Push a lookup through the inserts and the row updates in front of it. *)
Ltac find_update :=
  repeat first
    [ progress autorewrite with find_db
    | match goal with
      | |- context [find_character (update_character ?a ?f ?d) ?i] =>
          rewrite (find_character_update a i f d) by (intros; reflexivity)
      end ].

End StoreFacts.

Module LevelingClaims.
Import Leveling LevelingFacts.

(** C2: over any sequence of non-negative awards the level computed by
    [calculateLevel] never decreases along the running totals, and
    [calculateLevel (xpForLevel 1 + xpForLevel 2)] is level 3 with
    [currentLevelXp = 0]. *)
Theorem calculateLevel_monotone (xp : Z) (awards : list Z)
    (Hawards : Forall (fun a => 0 <= a) awards) :
  (forall (i j : nat) (ti tj : Z),
      (i <= j)%nat ->
      running_totals xp awards !! i = Some ti ->
      running_totals xp awards !! j = Some tj ->
      level (calculateLevel ti) <= level (calculateLevel tj))
  /\ xpForLevel 1 = 100 /\ xpForLevel 2 = 150
  /\ level (calculateLevel (xpForLevel 1 + xpForLevel 2)) = 3
  /\ currentLevelXp (calculateLevel (xpForLevel 1 + xpForLevel 2)) = 0.
Proof.
  split; [|repeat split; vm_compute; reflexivity].
  intros i j ti tj Hij Hi Hj. apply calculateLevel_mono.
  eapply running_totals_sorted; eassumption.
Qed.

Lemma calculateLevel_monotone_witness :
  Forall (fun a => 0 <= a) [1; 20; 5; 300]
  /\ (forall (i j : nat) (ti tj : Z),
      (i <= j)%nat ->
      running_totals 0 [1; 20; 5; 300] !! i = Some ti ->
      running_totals 0 [1; 20; 5; 300] !! j = Some tj ->
      level (calculateLevel ti) <= level (calculateLevel tj))
  /\ xpForLevel 1 = 100 /\ xpForLevel 2 = 150
  /\ level (calculateLevel (xpForLevel 1 + xpForLevel 2)) = 3
  /\ currentLevelXp (calculateLevel (xpForLevel 1 + xpForLevel 2)) = 0.
Proof.
  assert (Hawards : Forall (fun a => 0 <= a) [1; 20; 5; 300])
    by (repeat constructor; lia).
  split; [exact Hawards|].
  exact (calculateLevel_monotone 0 [1; 20; 5; 300] Hawards).
Defined.

(** C10: [calculateLevel] terminates on every non-negative total: each run
    of the body adds [xpForLevel level >= 100] to the accumulated XP, the
    loop goes on only while accumulated XP plus the next tier fits in the
    total, and it leaves after [n <= totalXp / 100 + 1] iterations. *)
Theorem calculateLevel_terminates (total : Z) (Hnn : 0 <= total) :
  exists n : nat,
    Z.of_nat n <= total / 100 + 1
    /\ (forall k, (k < n)%nat -> loop_cond total (loop_after k) = true)
    /\ loop_cond total (loop_after n) = false
    /\ (forall fuel, (loop_fuel total <= fuel)%nat ->
          while_loop fuel total loop_init = loop_after n)
    /\ calculateLevel total = level_info_of total (loop_after n)
    /\ (forall k,
          ls_xpAccumulated (loop_after (S k)) =
            ls_xpAccumulated (loop_after k) + xpForLevel (ls_level (loop_after k))
          /\ 100 <= xpForLevel (ls_level (loop_after k))).
Proof.
  destruct (while_loop_iter (loop_fuel total) total loop_init)
    as (n & Hn & Heq & Htrue & _).
  fold (loop_after n) in Heq.
  assert (Hexit : loop_cond total (loop_after n) = false).
  { rewrite <- Heq. apply while_loop_exits. lia. }
  exists n. repeat split.
  - unfold loop_fuel in Hn.
    assert (0 <= total / 100) by (apply Z.div_pos; lia). lia.
  - exact Htrue.
  - exact Hexit.
  - intros fuel Hfuel.
    destruct (while_loop_iter fuel total loop_init) as (m & Hm & Hmeq & Hmtrue & _).
    rewrite Hmeq. fold (loop_after m).
    assert (Hmexit : loop_cond total (loop_after m) = false).
    { unfold loop_after. rewrite <- Hmeq. now apply while_loop_exits. }
    destruct (Nat.lt_trichotomy m n) as [Hlt|[->|Hgt]]; [|reflexivity|].
    + pose proof (Htrue m Hlt) as Hc. fold (loop_after m) in Hc. congruence.
    + pose proof (Hmtrue n Hgt) as Hc. fold (loop_after n) in Hc. congruence.
  - unfold calculateLevel. now rewrite Heq.
  - apply loop_after_step.
  - apply loop_after_step.
Qed.

Lemma calculateLevel_terminates_witness :
  0 <= 250
  /\ exists n : nat,
    Z.of_nat n <= 250 / 100 + 1
    /\ (forall k, (k < n)%nat -> loop_cond 250 (loop_after k) = true)
    /\ loop_cond 250 (loop_after n) = false
    /\ (forall fuel, (loop_fuel 250 <= fuel)%nat ->
          while_loop fuel 250 loop_init = loop_after n)
    /\ calculateLevel 250 = level_info_of 250 (loop_after n)
    /\ (forall k,
          ls_xpAccumulated (loop_after (S k)) =
            ls_xpAccumulated (loop_after k) + xpForLevel (ls_level (loop_after k))
          /\ 100 <= xpForLevel (ls_level (loop_after k))).
Proof.
  assert (Hnn : 0 <= 250) by lia.
  split; [exact Hnn|]. exact (calculateLevel_terminates 250 Hnn).
Defined.

End LevelingClaims.

(** ** The move action *)

Module MoveClaims.
Import Leveling Text Store Core Effects StoreFacts.






End MoveClaims.

(** ** The life-story recorder *)

Module StoryClaims.
Import Leveling Text Store Core Effects StoreFacts.

Lemma substring_length_le (n m : nat) (s : string) :
  (String.length (substring n m s) <= m)%nat.
Proof.
  revert n m. induction s as [|c s IH]; intros n m.
  - destruct n, m; cbn; lia.
  - destruct n as [|n].
    + destruct m as [|m]; cbn; [lia|]. specialize (IH 0%nat m). lia.
    + cbn. apply IH.
Qed.

Lemma slice_last_length (n : nat) (s : string) :
  (String.length (slice_last n s) <= n)%nat.
Proof. apply substring_length_le. Qed.

Lemma push_moment_length (m : Moment) (l : list Moment) :
  (length (push_moment m l) <= 50)%nat.
Proof.
  unfold push_moment, last_n.
  destruct (Nat.ltb_spec 50 (length (l ++ [m]))) as [Hlt|Hge]; [|exact Hge].
  rewrite length_drop. lia.
Qed.

(** The push keeps the order and drops from the old end only. *)
Lemma push_moment_suffix (m : Moment) (l : list Moment) :
  exists dropped : list Moment,
    l ++ [m] = dropped ++ push_moment m l
    /\ length dropped = (length (l ++ [m]) - 50)%nat.
Proof.
  unfold push_moment, last_n.
  destruct (Nat.ltb_spec 50 (length (l ++ [m]))) as [Hlt|Hge].
  - exists (take (length (l ++ [m]) - 50) (l ++ [m])). split.
    + now rewrite take_drop.
    + rewrite length_take. lia.
  - exists []. split; [reflexivity|]. cbn [length]. lia.
Qed.

Lemma next_life_story_length (tick : Z) (moments : list Moment) (story : string) :
  (String.length story <= 5000)%nat ->
  (String.length (next_life_story tick moments story) <= 5000)%nat.
Proof.
  intros Hs. unfold next_life_story.
  destruct (length moments mod 10 =? 0)%nat; [|exact Hs].
  destruct (Nat.ltb_spec 5000 (String.length (story +:+ story_entry tick moments)))
    as [Hlt|Hge]; [|exact Hge].
  pose proof (slice_last_length 4000 (story +:+ story_entry tick moments)). lia.
Qed.

(** The row written by [addSignificantMoment] from the row [me] it read. *)
Lemma find_character_addSignificantMoment (id id' moment category : string)
    (db : DB) (me : Character) :
  find_character db id = Some me ->
  find_character (addSignificantMoment id moment category db) id'
  = (fun c =>
       if (id' =? id)%string
       then
         let ms := push_moment {| m_tick := w_tick (world db);
                                  m_category := category; m_moment := moment |}
                     (moments_of me) in
         set_story ms (next_life_story (w_tick (world db)) ms (life_story_of me)) c
       else c)
      <$> find_character db id'.
Proof.
  intros Hme. unfold addSignificantMoment. rewrite Hme. find_update. reflexivity.
Qed.

Lemma find_character_addSignificantMoment_other (id id' moment category : string)
    (db : DB) :
  id' <> id ->
  find_character (addSignificantMoment id moment category db) id'
  = find_character db id'.
Proof.
  intros Hne. unfold addSignificantMoment.
  destruct (find_character db id); [|reflexivity].
  now apply find_character_update_other.
Qed.

Lemma addSignificantMoment_frame (id moment category : string) (db : DB) :
  world (addSignificantMoment id moment category db) = world db
  /\ objects (addSignificantMoment id moment category db) = objects db
  /\ relationships (addSignificantMoment id moment category db) = relationships db
  /\ memories (addSignificantMoment id moment category db) = memories db
  /\ conversations (addSignificantMoment id moment category db) = conversations db
  /\ activity_log (addSignificantMoment id moment category db) = activity_log db
  /\ sent (addSignificantMoment id moment category db) = sent db.
Proof.
  unfold addSignificantMoment. now destruct (find_character db id).
Qed.

Lemma record_moments_snoc (calls : list (string * string * string))
    (id moment category : string) (db : DB) :
  record_moments (calls ++ [(id, moment, category)]) db
  = addSignificantMoment id moment category (record_moments calls db).
Proof. unfold record_moments. now rewrite fold_left_app. Qed.

Lemma record_moments_world (calls : list (string * string * string)) (db : DB) :
  world (record_moments calls db) = world db.
Proof.
  induction calls as [|[[id moment] category] calls IH] using rev_ind; [reflexivity|].
  rewrite record_moments_snoc.
  destruct (addSignificantMoment_frame id moment category (record_moments calls db))
    as [-> _]. exact IH.
Qed.

Lemma addSignificantMoment_stories_bounded (id moment category : string) (db : DB) :
  stories_bounded db -> stories_bounded (addSignificantMoment id moment category db).
Proof.
  intros Hb id' c' Hc'.
  destruct (find_character db id) as [me|] eqn:Hme.
  - rewrite (find_character_addSignificantMoment _ _ _ _ _ _ Hme) in Hc'.
    destruct (find_character db id') as [c|] eqn:Hc; [|discriminate].
    cbn in Hc'. injection Hc' as <-.
    destruct (id' =? id)%string; [|now apply (Hb id')].
    cbn. apply next_life_story_length. now apply (Hb id).
  - unfold addSignificantMoment in Hc'. rewrite Hme in Hc'. now apply (Hb id').
Qed.

Lemma record_moments_stories_bounded (calls : list (string * string * string))
    (db : DB) :
  stories_bounded db -> stories_bounded (record_moments calls db).
Proof.
  intros Hb.
  induction calls as [|[[id moment] category] calls IH] using rev_ind; [exact Hb|].
  rewrite record_moments_snoc. now apply addSignificantMoment_stories_bounded.
Qed.

(** C7: along any sequence of [addSignificantMoment] calls, started with
    life stories of at most 5000 units (a registered character starts with
    the empty one), after each call the moments of the character it was
    made for are at most 50: they are the old moments followed by the new
    one, in that order, without the oldest entries beyond 50, and without
    any of them dropped when there are fewer.  The rows of the other
    characters are as before the call, and every life story still has at
    most 5000 units. *)
Theorem moments_and_story_bounded (db : DB)
    (calls : list (string * string * string))
    (Hstories : forall id c, find_character db id = Some c ->
                             (String.length (life_story_of c) <= 5000)%nat) :
  forall (n : nat) (id moment category : string) (before : Character),
    calls !! n = Some (id, moment, category) ->
    find_character (record_moments (take n calls) db) id = Some before ->
    (exists (after : Character) (dropped : list Moment),
        find_character (record_moments (take (S n) calls) db) id = Some after
        /\ (length (moments_of after) <= 50)%nat
        /\ moments_of before
             ++ [{| m_tick := w_tick (world db); m_category := category;
                    m_moment := moment |}]
           = dropped ++ moments_of after
        /\ length dropped = (length (moments_of before) + 1 - 50)%nat
        /\ (String.length (life_story_of after) <= 5000)%nat)
    /\ (forall id', id' <> id ->
                    find_character (record_moments (take (S n) calls) db) id'
                    = find_character (record_moments (take n calls) db) id')
    /\ (forall id' c', find_character (record_moments (take (S n) calls) db) id'
                        = Some c' ->
                       (String.length (life_story_of c') <= 5000)%nat).
Proof.
  intros n id moment category before Hn Hbefore.
  rewrite (take_S_r _ _ _ Hn), record_moments_snoc.
  pose proof (record_moments_stories_bounded (take n calls) db Hstories) as Hb.
  split; [|split].
  - rewrite (find_character_addSignificantMoment _ _ _ _ _ _ Hbefore), Hbefore.
    cbn [fmap option_fmap option_map]. rewrite String.eqb_refl.
    rewrite record_moments_world.
    destruct (push_moment_suffix
                {| m_tick := w_tick (world db); m_category := category;
                   m_moment := moment |} (moments_of before)) as (dropped & Hd & Hlen).
    eexists _, dropped. split; [reflexivity|]. cbn. repeat split.
    + apply push_moment_length.
    + exact Hd.
    + rewrite Hlen, length_app. reflexivity.
    + apply next_life_story_length. now apply (Hb id).
  - intros id' Hne. now apply find_character_addSignificantMoment_other.
  - now apply addSignificantMoment_stories_bounded.
Qed.

Lemma moments_and_story_bounded_witness :
  let alice := Meadow.veteran "alice" 49 4990 in
  let db := Meadow.meadow 5 [alice] in
  let calls := [("alice", first_meeting "bob", "social");
                ("alice", first_meeting "carol", "social")]%string in
  let met who := {| m_tick := 5; m_category := "social"; m_moment := first_meeting who |} in
  let before :=
    set_story (push_moment (met "bob") (moments_of alice))
      (next_life_story 5 (push_moment (met "bob") (moments_of alice))
         (life_story_of alice)) alice in
  (forall id c, find_character db id = Some c ->
                (String.length (life_story_of c) <= 5000)%nat)
  /\ calls !! 1%nat = Some ("alice", first_meeting "carol", "social")%string
  /\ find_character (record_moments (take 1 calls) db) "alice" = Some before
  /\ length (moments_of before) = 50%nat
  /\ String.length (life_story_of before) = 4000%nat
  /\ exists after dropped,
       find_character (record_moments (take 2 calls) db) "alice" = Some after
       /\ moments_of before ++ [met "carol"] = dropped ++ moments_of after
       /\ length dropped = 1%nat
       /\ (length (moments_of after) <= 50)%nat
       /\ (String.length (life_story_of after) <= 5000)%nat.
Proof.
  intros alice db calls met before.
  assert (Hstories : forall id c, find_character db id = Some c ->
                                  (String.length (life_story_of c) <= 5000)%nat).
  { intros id c Hc. apply find_some in Hc as [[<-|[]] _]. vm_compute.
    apply Nat.leb_le. vm_compute. reflexivity. }
  assert (Hbefore : find_character (record_moments (take 1 calls) db) "alice"
                    = Some before) by reflexivity.
  assert (Hfifty : length (moments_of before) = 50%nat) by (vm_compute; reflexivity).
  split; [exact Hstories|]. split; [reflexivity|]. split; [exact Hbefore|].
  split; [exact Hfifty|]. split; [vm_compute; reflexivity|].
  destruct (moments_and_story_bounded db calls Hstories 1 "alice"
              (first_meeting "carol") "social" before eq_refl Hbefore)
    as [(after & dropped & Hafter & Hlen & Hd & Hdropped & Hstory) _].
  exists after, dropped. rewrite Hfifty in Hdropped.
  repeat split; assumption.
Defined.

End StoryClaims.

(** ** The world clock *)

Module ClockClaims.
Import Leveling Text Store Core StoreFacts.

Lemma worldTick_tick (pick : nat) (db : DB) :
  w_tick (world (Rich.worldTick pick db)) = w_tick (world db) + 1.
Proof.
  unfold Rich.worldTick.
  repeat match goal with
         | |- context [if ?b then _ else _] => destruct b
         end; reflexivity.
Qed.

(** The rows of [characters] after a tick of the richer clock. *)
Lemma worldTick_characters (pick : nat) (db : DB) :
  characters (Rich.worldTick pick db)
  = if Z.rem (w_tick (world db) + 1) 10 =? 0
    then map (Rich.regen_row (w_tick (world db) + 1)) (characters db)
    else characters db.
Proof.
  unfold Rich.worldTick.
  cbn [world set_world Rich.advance_tick w_tick w_day_length w_night_length w_is_night].
  destruct (Z.rem (w_tick (world db) + 1) 10 =? 0);
    repeat match goal with
           | |- context [if ?b then _ else _] => destruct b
           end; reflexivity.
Qed.

(** C8, as the code has it: on a tick whose number is divisible by 10 the
    clock sets the energy of exactly the characters idle for more than 20
    ticks ([last_action_tick < tick - 20]) to
    [min(max_energy, energy + 5)], a missing value read as 100, and leaves
    every other row as it was; on any other tick it leaves all rows. *)
Theorem regen_idle_more_than_20 (pick : nat) (db : DB) :
  w_tick (world (Rich.worldTick pick db)) = w_tick (world db) + 1
  /\ length (characters (Rich.worldTick pick db)) = length (characters db)
  /\ forall (i : nat) (c : Character),
       characters db !! i = Some c ->
       exists c' : Character,
         characters (Rich.worldTick pick db) !! i = Some c'
         /\ c_id c' = c_id c
         /\ (Z.rem (w_tick (world db) + 1) 10 = 0 ->
             20 < w_tick (world db) + 1 - c_last_action_tick c ->
             c_energy c'
             = Some (Z.min (coalesce (c_max_energy c) 100)
                       (coalesce (c_energy c) 100 + 5)))
         /\ (Z.rem (w_tick (world db) + 1) 10 <> 0
             \/ w_tick (world db) + 1 - c_last_action_tick c <= 20 ->
             c' = c).
Proof.
  split; [apply worldTick_tick|].
  rewrite worldTick_characters.
  destruct (Z.eqb_spec (Z.rem (w_tick (world db) + 1) 10) 0) as [Hdiv|Hndiv].
  - split; [apply length_map|].
    intros i c Hc. exists (Rich.regen_row (w_tick (world db) + 1) c).
    split; [now rewrite list_lookup_fmap, Hc|].
    unfold Rich.regen_row.
    destruct (Z.ltb_spec (c_last_action_tick c) (w_tick (world db) + 1 - 20))
      as [Hidle|Hbusy].
    + split; [reflexivity|]. split; [intros _ _; reflexivity|].
      intros [?|?]; [contradiction|lia].
    + split; [reflexivity|]. split; [intros _ ?; lia|reflexivity].
  - split; [reflexivity|].
    intros i c Hc. exists c. split; [exact Hc|]. split; [reflexivity|].
    split; [intros ? _; contradiction|reflexivity].
Qed.

Lemma regen_idle_more_than_20_witness :
  let alice :=
    set_energy (fun _ => 50) (set_last_action_tick 5 (Meadow.newcomer "alice" 5 5)) in
  let db := Meadow.meadow 29 [alice] in
  characters db !! 0%nat = Some alice
  /\ Z.rem (w_tick (world db) + 1) 10 = 0
  /\ 20 < w_tick (world db) + 1 - c_last_action_tick alice
  /\ exists c', characters (Rich.worldTick 0 db) !! 0%nat = Some c'
                /\ c_energy c' = Some 55.
Proof.
  intros alice db.
  assert (Hdiv : Z.rem (w_tick (world db) + 1) 10 = 0) by reflexivity.
  assert (Hidle : 20 < w_tick (world db) + 1 - c_last_action_tick alice)
    by (cbn; lia).
  split; [reflexivity|]. split; [exact Hdiv|]. split; [exact Hidle|].
  destruct (regen_idle_more_than_20 0 db) as (_ & _ & Hrows).
  destruct (Hrows 0%nat alice eq_refl) as (c' & Hc' & _ & Hregen & _).
  exists c'. split; [exact Hc'|]. now rewrite (Hregen Hdiv Hidle).
Defined.

(** The claim as stated asks for regeneration from 20 idle ticks on.  At
    tick 30 a character whose last action was at tick 10 has been idle for
    20 ticks, and the clock leaves the 50 energy as it is. *)
Lemma regen_skips_idle_exactly_20 :
  let alice :=
    set_energy (fun _ => 50) (set_last_action_tick 10 (Meadow.newcomer "alice" 5 5)) in
  let db := Meadow.meadow 29 [alice] in
  let db' := Rich.worldTick 0 db in
  w_tick (world db') = 30
  /\ Z.rem (w_tick (world db')) 10 = 0
  /\ w_tick (world db') - c_last_action_tick alice >= 20
  /\ c_energy alice = Some 50 /\ c_max_energy alice = Some 100
  /\ (c_energy <$> find_character db' "alice") = Some (Some 50)
  /\ Some 50 <> Some (Z.min 100 (50 + 5)).
Proof.
  cbv zeta. repeat split; try (vm_compute; congruence).
Qed.

End ClockClaims.

(** ** The talk action: whom a talk reaches *)

Module ListenerClaims.
Import Leveling Text Store Core StoreFacts.

Lemma first_least_nil {A : Type} (key : A -> Z) (l : list A) :
  first_least key l = None <-> l = [].
Proof.
  split; [|now intros ->].
  destruct l as [|r l]; [reflexivity|]. cbn.
  destruct (first_least key l) as [r'|]; [|discriminate].
  now destruct (key r' <? key r).
Qed.

Lemma first_least_least {A : Type} (key : A -> Z) (l : list A) (r : A) :
  first_least key l = Some r ->
  In r l /\ forall r', In r' l -> key r <= key r'.
Proof.
  revert r. induction l as [|a l IH]; intros r; [discriminate|]. cbn.
  destruct (first_least key l) as [m|] eqn:Hm.
  - destruct (IH m eq_refl) as [Hin Hle].
    destruct (Z.ltb_spec (key m) (key a)) as [Hlt|Hge]; intros [= <-].
    + split; [now right|]. intros r' [<-|Hr']; [lia|now apply Hle].
    + split; [now left|]. intros r' [<-|Hr']; [lia|].
      specialize (Hle r' Hr'). lia.
  - apply first_least_nil in Hm as ->. intros [= <-].
    split; [now left|]. intros r' [<-|[]]. lia.
Qed.

(** Another active character within two tiles on each axis. *)
Lemma talk_candidate_spec (charId : string) (x y : Z) (c : Character) :
  talk_candidate charId x y c = true
  <-> c_id c <> charId /\ c_is_active c = true
      /\ Z.abs (c_x c - x) <= 2 /\ Z.abs (c_y c - y) <= 2.
Proof.
  unfold talk_candidate. rewrite !andb_true_iff, negb_true_iff.
  rewrite String.eqb_neq, !Z.leb_le. tauto.
Qed.

Lemma nearby_listener_None (db : DB) (charId : string) (x y : Z) :
  nearby_listener db charId x y = None
  <-> forall c, In c (characters db) -> talk_candidate charId x y c = false.
Proof.
  unfold nearby_listener. rewrite first_least_nil. split.
  - intros Hnil c Hc. destruct (talk_candidate charId x y c) eqn:Hcand; [|reflexivity].
    assert (Hin : In c (List.filter (talk_candidate charId x y) (characters db)))
      by (apply filter_In; now split).
    rewrite Hnil in Hin. destruct Hin.
  - intros Hnone.
    destruct (List.filter (talk_candidate charId x y) (characters db)) as [|c l] eqn:Hf;
      [reflexivity|].
    assert (Hin : In c (List.filter (talk_candidate charId x y) (characters db)))
      by (rewrite Hf; now left).
    apply filter_In in Hin as [Hin Hcand]. rewrite (Hnone c Hin) in Hcand. discriminate.
Qed.

(** The listener is within the square, and no other active character is
    nearer in Euclidean distance, inside the square or outside. *)
Lemma nearby_listener_Some (db : DB) (charId : string) (x y : Z) (l : Character) :
  nearby_listener db charId x y = Some l ->
  In l (characters db)
  /\ talk_candidate charId x y l = true
  /\ forall c, In c (characters db) -> c_id c <> charId -> c_is_active c = true ->
               dist2 x y l <= dist2 x y c.
Proof.
  unfold nearby_listener. intros H. apply first_least_least in H as [Hin Hle].
  apply filter_In in Hin as [Hin Hcand]. repeat split; [exact Hin|exact Hcand|].
  intros c Hc Hother Hactive.
  destruct (talk_candidate charId x y c) eqn:Hc2.
  - apply Hle. apply filter_In. now split.
  - apply talk_candidate_spec in Hcand as (_ & _ & Hlx & Hly).
    assert (Hfar : 2 < Z.abs (c_x c - x) \/ 2 < Z.abs (c_y c - y)).
    { destruct (Z_le_gt_dec (Z.abs (c_x c - x)) 2) as [Hx|Hx]; [|lia].
      destruct (Z_le_gt_dec (Z.abs (c_y c - y)) 2) as [Hy|Hy]; [|lia].
      assert (talk_candidate charId x y c = true)
        by (apply talk_candidate_spec; tauto).
      congruence. }
    unfold dist2. nia.
Qed.

(** An accepted talk answers with the listener's name and the new count. *)
Lemma rich_talk_commit_accepted (db : DB) (me l : Character) (a message : string) :
  exists db' msg xp energy warning cooldownIn,
    Rich.talk_commit db me l a message
    = (db', Accepted (Talked msg (c_name l) xp energy
                        (Rich.recent_exchanges_of db a (c_id l) + 1)
                        warning cooldownIn)).
Proof.
  unfold Rich.talk_commit. cbv zeta.
  destruct (0 <? Rich.talk_xp _ _); [destruct (awardXp _ _ _)|]; repeat eexists.
Qed.

Lemma simple_talk_commit_accepted (db : DB) (me l : Character) (a message : string) :
  exists db' msg xp,
    Simple.talk_commit db me l a message
    = (db', Accepted (TalkedSimple msg (c_name l) xp)).
Proof.
  unfold Simple.talk_commit. cbv zeta.
  destruct (awardXp _ _ _). repeat eexists.
Qed.

(** The talk route of the richer server past its first four checks. *)
Lemma rich_talk_route (db : DB) (rq : Request) (me : Character) (message : string) :
  authenticate db (rq_charId rq) (rq_token rq) = Some me ->
  canAct db (rq_charId rq) = true ->
  rq_action rq = "talk"%string ->
  rq_message rq = Some message ->
  message <> EmptyString ->
  Rich.energyCost <= or_default (c_energy me) 100 ->
  Rich.handle_action rq db
  = match nearby_listener db (rq_charId rq) (c_x me) (c_y me) with
    | None => (db, Rejected NoTargetNearby)
    | Some l =>
        if Rich.on_cooldown db (rq_charId rq) (c_id l)
        then (db, Rejected (ConversationCooldown (c_name l)
                              (Rich.cooldown_until_of db (rq_charId rq) (c_id l)
                               - w_tick (world db))))
        else (updateLastAction (rq_charId rq)
                (fst (Rich.talk_commit db me l (rq_charId rq) message)),
              snd (Rich.talk_commit db me l (rq_charId rq) message))
    end.
Proof.
  intros Hauth Hturn Hact Hmsg Hne Henergy.
  unfold Rich.handle_action, Rich.dispatch. rewrite Hauth, Hturn, Hact. cbn [negb].
  change ("talk" =? "move")%string with false.
  change ("talk" =? "talk")%string with true. cbv iota.
  unfold Rich.talk_case. rewrite Hmsg.
  apply String.eqb_neq in Hne. rewrite Hne.
  assert (Hlt : (or_default (c_energy me) 100 <? Rich.energyCost) = false)
    by (apply Z.ltb_ge; exact Henergy).
  rewrite Hlt.
  destruct (nearby_listener _ _ _ _) as [l|]; [|reflexivity].
  destruct (Rich.on_cooldown db (rq_charId rq) (c_id l)); [reflexivity|].
  destruct (rich_talk_commit_accepted db me l (rq_charId rq) message)
    as (db' & msg & xp & e & w & ci & ->).
  reflexivity.
Qed.

(** The talk route of the simpler server past its first three checks. *)
Lemma simple_talk_route (db : DB) (rq : Request) (me : Character) (message : string) :
  authenticate db (rq_charId rq) (rq_token rq) = Some me ->
  canAct db (rq_charId rq) = true ->
  rq_action rq = "talk"%string ->
  rq_message rq = Some message ->
  message <> EmptyString ->
  Simple.handle_action rq db
  = match nearby_listener db (rq_charId rq) (c_x me) (c_y me) with
    | None => (db, Rejected NoTargetNearby)
    | Some l =>
        (updateLastAction (rq_charId rq)
           (fst (Simple.talk_commit db me l (rq_charId rq) message)),
         snd (Simple.talk_commit db me l (rq_charId rq) message))
    end.
Proof.
  intros Hauth Hturn Hact Hmsg Hne.
  unfold Simple.handle_action, Simple.dispatch. rewrite Hauth, Hturn, Hact. cbn [negb].
  change ("talk" =? "move")%string with false.
  change ("talk" =? "talk")%string with true. cbv iota.
  unfold Simple.talk_case. rewrite Hmsg.
  apply String.eqb_neq in Hne. rewrite Hne.
  destruct (nearby_listener _ _ _ _) as [l|]; [|reflexivity].
  destruct (simple_talk_commit_accepted db me l (rq_charId rq) message)
    as (db' & msg & xp & ->).
  reflexivity.
Qed.

(** C6, as the code has it: a talk submission that has passed the checks
    before the talk query (token, turn, message, and energy in the richer
    variant) is rejected with the no-target error exactly when no other
    active character stands within two tiles on each axis, that is in
    the 5 x 5 square around the speaker; otherwise the listener is a
    character of that square and no other active character is nearer to the
    speaker in Euclidean distance. *)
Theorem talk_listener_nearest_in_square (db : DB) (rq : Request) (me : Character)
    (message : string)
    (Hauth : authenticate db (rq_charId rq) (rq_token rq) = Some me)
    (Hturn : canAct db (rq_charId rq) = true)
    (Hact : rq_action rq = "talk"%string)
    (Hmsg : rq_message rq = Some message)
    (Hne : message <> EmptyString) :
  let in_square c :=
    c_id c <> rq_charId rq /\ c_is_active c = true
    /\ Z.abs (c_x c - c_x me) <= 2 /\ Z.abs (c_y c - c_y me) <= 2 in
  let nearest l :=
    In l (characters db) /\ in_square l
    /\ forall c, In c (characters db) -> c_id c <> rq_charId rq ->
                 c_is_active c = true ->
                 dist2 (c_x me) (c_y me) l <= dist2 (c_x me) (c_y me) c in
  (Simple.handle_action rq db = (db, Rejected NoTargetNearby)
   <-> forall c, In c (characters db) -> ~ in_square c)
  /\ ((exists c, In c (characters db) /\ in_square c) ->
      exists l db' msg xp,
        nearest l
        /\ Simple.handle_action rq db
           = (db', Accepted (TalkedSimple msg (c_name l) xp)))
  /\ (Rich.energyCost <= or_default (c_energy me) 100 ->
      (Rich.handle_action rq db = (db, Rejected NoTargetNearby)
       <-> forall c, In c (characters db) -> ~ in_square c)
      /\ ((exists c, In c (characters db) /\ in_square c) ->
          exists l,
            nearest l
            /\ ((exists ticks,
                    Rich.handle_action rq db
                    = (db, Rejected (ConversationCooldown (c_name l) ticks)))
                \/ (exists db' msg xp energy count warning cooldownIn,
                      Rich.handle_action rq db
                      = (db', Accepted (Talked msg (c_name l) xp energy count
                                          warning cooldownIn)))))).
Proof.
  intros in_square nearest.
  assert (Hnone : nearby_listener db (rq_charId rq) (c_x me) (c_y me) = None
                  <-> forall c, In c (characters db) -> ~ in_square c).
  { rewrite nearby_listener_None. split; intros H c Hc.
    - intros Hsq. apply talk_candidate_spec in Hsq. rewrite (H c Hc) in Hsq.
      discriminate.
    - destruct (talk_candidate _ _ _ c) eqn:Hcand; [|reflexivity].
      apply talk_candidate_spec in Hcand. now destruct (H c Hc). }
  assert (Hsome : (exists c, In c (characters db) /\ in_square c) ->
                  exists l, nearby_listener db (rq_charId rq) (c_x me) (c_y me) = Some l
                            /\ nearest l).
  { intros (c & Hc & Hsq).
    destruct (nearby_listener db (rq_charId rq) (c_x me) (c_y me)) as [l|] eqn:Hl.
    - exists l. split; [reflexivity|].
      apply nearby_listener_Some in Hl as (Hin & Hcand & Hle).
      apply talk_candidate_spec in Hcand. now repeat split.
    - now destruct (proj1 Hnone eq_refl c Hc). }
  split; [|split].
  - rewrite <- Hnone, (simple_talk_route db rq me message) by assumption.
    destruct (nearby_listener _ _ _ _) as [l|]; [|tauto].
    destruct (simple_talk_commit_accepted db me l (rq_charId rq) message)
      as (db' & msg & xp & ->).
    split; discriminate.
  - intros Hex. destruct (Hsome Hex) as (l & Hl & Hnearest).
    rewrite (simple_talk_route db rq me message), Hl by assumption.
    destruct (simple_talk_commit_accepted db me l (rq_charId rq) message)
      as (db' & msg & xp & ->).
    now eexists l, _, msg, xp.
  - intros Henergy.
    rewrite (rich_talk_route db rq me message) by assumption. split.
    + rewrite <- Hnone.
      destruct (nearby_listener _ _ _ _) as [l|]; [|tauto].
      destruct (Rich.on_cooldown db (rq_charId rq) (c_id l)); [split; discriminate|].
      destruct (rich_talk_commit_accepted db me l (rq_charId rq) message)
        as (db' & msg & xp & e & w & ci & ->).
      split; discriminate.
    + intros Hex. destruct (Hsome Hex) as (l & -> & Hnearest).
      exists l. split; [exact Hnearest|].
      destruct (Rich.on_cooldown db (rq_charId rq) (c_id l)); [left; eauto|right].
      destruct (rich_talk_commit_accepted db me l (rq_charId rq) message)
        as (db' & msg & xp & e & w & ci & ->).
      repeat eexists.
Qed.

Lemma talk_listener_nearest_in_square_witness :
  let alice := Meadow.newcomer "alice" 5 5 in
  let db := Meadow.meadow 5 [alice; Meadow.newcomer "bob" 6 5;
                             Meadow.newcomer "carol" 7 7] in
  let rq := Meadow.submit "alice" "talk" None None (Some "hello"%string) in
  authenticate db (rq_charId rq) (rq_token rq) = Some alice
  /\ canAct db (rq_charId rq) = true
  /\ rq_message rq = Some "hello"%string
  /\ "hello"%string <> EmptyString
  /\ exists l db' msg xp,
       In l (characters db) /\ c_name l = "bob"%string
       /\ Simple.handle_action rq db
          = (db', Accepted (TalkedSimple msg (c_name l) xp)).
Proof.
  intros alice db rq.
  assert (Hne : "hello"%string <> EmptyString) by discriminate.
  repeat split; [exact Hne|].
  destruct (talk_listener_nearest_in_square db rq alice "hello"
              eq_refl eq_refl eq_refl eq_refl Hne) as (_ & Hsimple & _).
  destruct Hsimple as (l & db' & msg & xp & (Hin & _ & _) & Hrun).
  - exists (Meadow.newcomer "bob" 6 5). split; [right; now left|].
    cbn. repeat split; [discriminate|lia|lia].
  - exists l, db', msg, xp. repeat split; [exact Hin| |exact Hrun].
    vm_compute in Hrun. injection Hrun as _ _ Hname _. exact (eq_sym Hname).
Defined.

(** The claim as stated measures the reach of a talk by Euclidean distance
    2.  With the only other character two tiles away on both axes, at
    distance [sqrt 8 > 2], no active character is within that distance,
    yet neither server answers with the no-target error: the talk reaches
    the diagonal neighbour. *)
Lemma talk_reaches_diagonal_neighbour :
  let alice := Meadow.newcomer "alice" 5 5 in
  let db := Meadow.meadow 5 [alice; Meadow.newcomer "bob" 7 7] in
  let rq := Meadow.submit "alice" "talk" None None (Some "hello"%string) in
  (forall c, In c (characters db) -> c_id c <> "alice"%string ->
             c_is_active c = true -> 2 ^ 2 < dist2 (c_x alice) (c_y alice) c)
  /\ snd (Rich.handle_action rq db) <> Rejected NoTargetNearby
  /\ snd (Simple.handle_action rq db) <> Rejected NoTargetNearby
  /\ (exists db' msg xp energy count warning cooldownIn,
        Rich.handle_action rq db
        = (db', Accepted (Talked msg "bob" xp energy count warning cooldownIn)))
  /\ (exists db' msg xp,
        Simple.handle_action rq db = (db', Accepted (TalkedSimple msg "bob" xp))).
Proof.
  cbv zeta. split; [|split; [|split; [|split]]].
  - intros c [<-|[<-|[]]] Hother _; [now destruct Hother|vm_compute; reflexivity].
  - vm_compute. discriminate.
  - vm_compute. discriminate.
  - vm_compute. repeat eexists.
  - vm_compute. repeat eexists.
Qed.

End ListenerClaims.

(** ** The texts of BIGINT columns *)

Module TextFacts.
Import Text.

Lemma digits_of_nonnil (z : Z) : digits_of z <> Decimal.Nil.
Proof.
  unfold digits_of. destruct (Z.to_N z) as [|p]; [discriminate|].
  apply DecimalPos.Unsigned.to_uint_nonnil.
Qed.

Lemma bigint_text_digits (z : Z) :
  0 <= z -> bigint_text z = NilEmpty.string_of_uint (digits_of z).
Proof.
  intros Hz. unfold bigint_text, string_of_Z, digits_of.
  destruct z as [|p|p]; [reflexivity| |lia].
  cbn. pose proof (DecimalPos.Unsigned.to_uint_nonnil p) as Hp.
  now destruct (Pos.to_uint p).
Qed.

Lemma digits_of_value (z : Z) : 0 <= z -> Z.of_N (Pos.of_uint (digits_of z)) = z.
Proof.
  intros Hz. unfold digits_of.
  change (Pos.of_uint (N.to_uint (Z.to_N z))) with (N.of_uint (N.to_uint (Z.to_N z))).
  rewrite DecimalN.Unsigned.of_to. now apply Z2N.id.
Qed.

Lemma usize_length (d : Decimal.uint) :
  DecimalPos.Unsigned.usize d = N.of_nat (String.length (NilEmpty.string_of_uint d)).
Proof.
  induction d; cbn [DecimalPos.Unsigned.usize NilEmpty.string_of_uint String.length];
    rewrite ?IHd, ?Nat2N.inj_succ; reflexivity.
Qed.

(** The value of a digit sequence from its first digit and the rest. *)
Lemma value_cons (d : Decimal.uint) :
  d <> Decimal.Nil ->
  (Pos.of_uint d
   = DecimalPos.Unsigned.hd d * 10 ^ DecimalPos.Unsigned.usize (DecimalPos.Unsigned.tl d) + Pos.of_uint (DecimalPos.Unsigned.tl d))%N.
Proof.
  intros Hd. rewrite !DecimalPos.Unsigned.of_uint_alt.
  destruct d; [contradiction|..]; unfold Decimal.rev at 1; cbn [Decimal.revapp];
    rewrite DecimalPos.Unsigned.of_lu_revapp; cbn [DecimalPos.Unsigned.hd DecimalPos.Unsigned.tl DecimalPos.Unsigned.of_lu]; lia.
Qed.

Lemma value_bound (d : Decimal.uint) : (Pos.of_uint d < 10 ^ DecimalPos.Unsigned.usize d)%N.
Proof.
  induction d; [cbn; lia|..];
    match goal with
    | |- (Pos.of_uint ?x < _)%N =>
        rewrite (value_cons x) by discriminate;
        cbn [DecimalPos.Unsigned.hd DecimalPos.Unsigned.tl DecimalPos.Unsigned.usize]; rewrite N.pow_succ_r'; lia
    end.
Qed.

Lemma text_cons (d : Decimal.uint) :
  d <> Decimal.Nil ->
  NilEmpty.string_of_uint d
  = String (digit_char (DecimalPos.Unsigned.hd d)) (NilEmpty.string_of_uint (DecimalPos.Unsigned.tl d)).
Proof. intros Hd. destruct d; [contradiction|..]; reflexivity. Qed.

Lemma hd_digit (d : Decimal.uint) : (DecimalPos.Unsigned.hd d <= 9)%N.
Proof. destruct d; cbn; lia. Qed.

Lemma digit_char_compare (m n : N) :
  (m <= 9)%N -> (n <= 9)%N ->
  Ascii.compare (digit_char m) (digit_char n) = N.compare m n.
Proof.
  intros Hm Hn. unfold Ascii.compare, digit_char.
  rewrite !N_ascii_embedding by lia.
  destruct (N.compare_spec m n), (N.compare_spec (48 + m) (48 + n)); try reflexivity; lia.
Qed.

(** Two digit sequences of the same length compare as their values. *)
Lemma compare_same_size (d d' : Decimal.uint) :
  DecimalPos.Unsigned.usize d = DecimalPos.Unsigned.usize d' ->
  String.compare (NilEmpty.string_of_uint d) (NilEmpty.string_of_uint d')
  = N.compare (Pos.of_uint d) (Pos.of_uint d').
Proof.
  revert d'.
  assert (Hstep : forall u : Decimal.uint,
             u <> Decimal.Nil ->
             (forall u', DecimalPos.Unsigned.usize (DecimalPos.Unsigned.tl u) = DecimalPos.Unsigned.usize u' ->
                         String.compare (NilEmpty.string_of_uint (DecimalPos.Unsigned.tl u))
                           (NilEmpty.string_of_uint u')
                         = N.compare (Pos.of_uint (DecimalPos.Unsigned.tl u)) (Pos.of_uint u')) ->
             forall u', DecimalPos.Unsigned.usize u = DecimalPos.Unsigned.usize u' ->
                        String.compare (NilEmpty.string_of_uint u)
                          (NilEmpty.string_of_uint u')
                        = N.compare (Pos.of_uint u) (Pos.of_uint u')).
  { clear d. intros d Hd IH d' Hsize.
    assert (Hd' : d' <> Decimal.Nil).
    { intros ->. destruct d; [contradiction|..]; cbn in Hsize; lia. }
    assert (Htl : DecimalPos.Unsigned.usize (DecimalPos.Unsigned.tl d) = DecimalPos.Unsigned.usize (DecimalPos.Unsigned.tl d')).
    { destruct d; [contradiction|..]; (destruct d'; [contradiction|..]);
        cbn in Hsize |- *; lia. }
    rewrite (text_cons d Hd), (text_cons d' Hd'). cbn [String.compare].
    rewrite digit_char_compare by apply hd_digit.
    rewrite (value_cons d Hd), (value_cons d' Hd'), <- Htl.
    specialize (IH _ Htl).
    pose proof (value_bound (DecimalPos.Unsigned.tl d)) as Hb.
    pose proof (value_bound (DecimalPos.Unsigned.tl d')) as Hb'. rewrite <- Htl in Hb'.
    set (k := (10 ^ DecimalPos.Unsigned.usize (DecimalPos.Unsigned.tl d))%N) in *.
    destruct (N.compare_spec (DecimalPos.Unsigned.hd d) (DecimalPos.Unsigned.hd d')) as [Heq|Hlt|Hgt].
    - rewrite IH, Heq.
      destruct (N.compare_spec (Pos.of_uint (DecimalPos.Unsigned.tl d)) (Pos.of_uint (DecimalPos.Unsigned.tl d')));
        symmetry; [apply N.compare_eq_iff | apply N.compare_lt_iff | apply N.compare_gt_iff];
        lia.
    - symmetry. apply N.compare_lt_iff. nia.
    - symmetry. apply N.compare_gt_iff. nia. }
  induction d; intros d' Hsize.
  - destruct d'; [reflexivity|..]; cbn in Hsize; lia.
  - apply Hstep; [discriminate|exact IHd|exact Hsize].
  - apply Hstep; [discriminate|exact IHd|exact Hsize].
  - apply Hstep; [discriminate|exact IHd|exact Hsize].
  - apply Hstep; [discriminate|exact IHd|exact Hsize].
  - apply Hstep; [discriminate|exact IHd|exact Hsize].
  - apply Hstep; [discriminate|exact IHd|exact Hsize].
  - apply Hstep; [discriminate|exact IHd|exact Hsize].
  - apply Hstep; [discriminate|exact IHd|exact Hsize].
  - apply Hstep; [discriminate|exact IHd|exact Hsize].
  - apply Hstep; [discriminate|exact IHd|exact Hsize].
Qed.

(** Between two non-negative numbers with the same number of digits the
    comparison of the texts is the comparison of the numbers. *)
Lemma text_ltb_same_width (a b : Z) :
  0 <= a -> 0 <= b ->
  String.length (bigint_text a) = String.length (bigint_text b) ->
  String.ltb (bigint_text a) (bigint_text b) = (a <? b).
Proof.
  intros Ha Hb Hlen. rewrite !bigint_text_digits in * by assumption.
  unfold String.ltb. rewrite compare_same_size by (rewrite !usize_length; congruence).
  rewrite <- (digits_of_value a Ha) at 2. rewrite <- (digits_of_value b Hb) at 2.
  unfold Z.ltb. now rewrite N2Z.inj_compare.
Qed.

(** The text of a non-negative number is never below the text [0]. *)
Lemma text_not_below_zero (t : Z) : 0 <= t -> String.ltb (bigint_text t) "0" = false.
Proof.
  intros Ht. rewrite bigint_text_digits by assumption.
  pose proof (digits_of_nonnil t) as Hd. rewrite (text_cons _ Hd).
  unfold String.ltb. cbn [String.compare].
  change "0"%char with (digit_char 0).
  rewrite digit_char_compare by (try apply hd_digit; lia).
  destruct (N.compare_spec (DecimalPos.Unsigned.hd (digits_of t)) 0) as [_|Hlt|_]; [|lia|reflexivity].
  now destruct (NilEmpty.string_of_uint _).
Qed.

Lemma append_nil (t : string) : ("" ++ t)%string = t.
Proof. reflexivity. Qed.

Lemma append_cons (c : ascii) (s t : string) :
  (String c s ++ t)%string = String c (s ++ t)%string.
Proof. reflexivity. Qed.

(** Reading back a digit sequence followed by more text. *)
Lemma parse_digits_app (d : Decimal.uint) (s : string) :
  NilEmpty.uint_of_string (NilEmpty.string_of_uint d ++ s)
  = option_map (Decimal.app d) (NilEmpty.uint_of_string s).
Proof.
  induction d; cbn [NilEmpty.string_of_uint]; rewrite ?append_nil, ?append_cons;
    [now destruct (NilEmpty.uint_of_string s)|..];
    cbn [NilEmpty.uint_of_string]; rewrite IHd;
    (destruct (NilEmpty.uint_of_string s) as [d'|]; [|reflexivity]);
    cbn [option_map uint_of_char]; f_equal; apply DecimalFacts.to_list_inj;
    cbn [DecimalFacts.to_list]; rewrite !DecimalFacts.app_spec; reflexivity.
Qed.

Lemma value_app (d d' : Decimal.uint) :
  (Pos.of_uint (Decimal.app d d')
   = Pos.of_uint d * 10 ^ DecimalPos.Unsigned.usize d' + Pos.of_uint d')%N.
Proof.
  rewrite !DecimalPos.Unsigned.of_uint_alt.
  assert (Hrev : Decimal.rev (Decimal.app d d') = Decimal.revapp d' (Decimal.rev d)).
  { apply DecimalFacts.to_list_inj. rewrite DecimalFacts.rev_spec, DecimalFacts.app_spec, DecimalFacts.revapp_spec, DecimalFacts.rev_spec.
    rewrite rev_append_rev. apply rev_app_distr. }
  rewrite Hrev, DecimalPos.Unsigned.of_lu_revapp. lia.
Qed.

Lemma digit_char_not_minus (n : N) : (n <= 9)%N -> Ascii.eqb (digit_char n) "-" = false.
Proof.
  intros Hn. apply Ascii.eqb_neq. intros Heq.
  apply (f_equal N_of_ascii) in Heq. unfold digit_char in Heq.
  rewrite N_ascii_embedding in Heq by lia. cbn in Heq. lia.
Qed.

(** [tick + 30] on the text of a non-negative tick: the digits of the
    tick followed by 3 and 0. *)
Lemma text_plus_30 (t : Z) : 0 <= t -> text_plus t 30 = 100 * t + 30.
Proof.
  intros Ht. unfold text_plus, bigint_of_text.
  rewrite bigint_text_digits by assumption.
  change (string_of_Z 30) with (NilEmpty.string_of_uint (Decimal.D3 (Decimal.D0 Decimal.Nil))).
  pose proof (digits_of_nonnil t) as Hd.
  assert (Hparse : NilZero.int_of_string
                     (NilEmpty.string_of_uint (digits_of t)
                      ++ NilEmpty.string_of_uint (Decimal.D3 (Decimal.D0 Decimal.Nil)))
                   = Some (Decimal.Pos (Decimal.app (digits_of t)
                                          (Decimal.D3 (Decimal.D0 Decimal.Nil))))).
  { pose proof (parse_digits_app (digits_of t)
                  (NilEmpty.string_of_uint (Decimal.D3 (Decimal.D0 Decimal.Nil)))) as Hp.
    rewrite NilEmpty.usu in Hp. cbn [option_map] in Hp.
    rewrite (text_cons _ Hd) in Hp |- *. rewrite append_cons in Hp |- *.
    cbn [NilZero.int_of_string NilZero.uint_of_string].
    rewrite digit_char_not_minus by apply hd_digit.
    now rewrite Hp. }
  rewrite Hparse. unfold Z.of_int, Z.of_uint. rewrite value_app.
  rewrite N2Z.inj_add, N2Z.inj_mul, digits_of_value by assumption. cbn. lia.
Qed.

End TextFacts.

(** ** The talk action: fatigue, XP and first meetings *)

Module TalkFacts.
Import Leveling Text Store Core Effects StoreFacts StoryClaims.

Lemma awardXp_fst_eq (a : string) (amount : Z) (db db' : DB) (xp : option XpResult) :
  awardXp a amount db = (db', xp) -> db' = fst (awardXp a amount db).
Proof. now intros ->. Qed.

(** The relationship rows after an accepted talk: the upsert of the row
    of the ordered pair, nothing else. *)
Lemma rich_talk_commit_relationships (db : DB) (me l : Character) (a message : string) :
  relationships (fst (Rich.talk_commit db me l a message))
  = relationships
      (Rich.upsert_relationship a (c_id l) (w_tick (world db))
         (Rich.recent_exchanges_of db a (c_id l) + 1)
         (if 15 <=? Rich.recent_exchanges_of db a (c_id l) + 1
          then text_plus (w_tick (world db)) 30 else 0) db).
Proof.
  unfold Rich.talk_commit. cbv zeta.
  set (n := Rich.recent_exchanges_of db a (c_id l) + 1).
  match goal with
  | |- context [awardXp a ?r ?d] =>
      destruct (awardXp a r d) as [db7 xp] eqn:Haward;
      apply awardXp_fst_eq in Haward;
      pose proof (awardXp_frame a r d) as (_ & _ & Hrel & _)
  end.
  destruct (0 <? Rich.talk_xp _ n); cbn [fst relationships insert_log broadcast].
  - subst db7. rewrite Hrel.
    destruct (relationships _ !! (a, c_id l)); [reflexivity|].
    repeat match goal with
           | |- context [addSignificantMoment ?i ?m ?c ?d] =>
               destruct (addSignificantMoment_frame i m c d) as (_ & _ & -> & _)
           end.
    reflexivity.
  - destruct (relationships _ !! (a, c_id l)); [reflexivity|].
    repeat match goal with
           | |- context [addSignificantMoment ?i ?m ?c ?d] =>
               destruct (addSignificantMoment_frame i m c d) as (_ & _ & -> & _)
           end.
    reflexivity.
Qed.

Lemma rich_talk_commit_world (db : DB) (me l : Character) (a message : string) :
  world (fst (Rich.talk_commit db me l a message)) = world db.
Proof.
  unfold Rich.talk_commit. cbv zeta.
  match goal with
  | |- context [awardXp a ?r ?d] =>
      destruct (awardXp a r d) as [db7 xp] eqn:Haward;
      apply awardXp_fst_eq in Haward;
      pose proof (awardXp_frame a r d) as (Hw & _)
  end.
  destruct (0 <? Rich.talk_xp _ _); cbn [fst world insert_log broadcast].
  - subst db7. rewrite Hw.
    destruct (relationships _ !! (a, c_id l)); [reflexivity|].
    repeat match goal with
           | |- context [addSignificantMoment ?i ?m ?c ?d] =>
               destruct (addSignificantMoment_frame i m c d) as (-> & _)
           end.
    reflexivity.
  - destruct (relationships _ !! (a, c_id l)); [reflexivity|].
    repeat match goal with
           | |- context [addSignificantMoment ?i ?m ?c ?d] =>
               destruct (addSignificantMoment_frame i m c d) as (-> & _)
           end.
    reflexivity.
Qed.

Lemma find_character_upsert (a b : string) (t n cd : Z) (db : DB) (id : string) :
  find_character (Rich.upsert_relationship a b t n cd db) id = find_character db id.
Proof. reflexivity. Qed.

(** Name the store handed to [awardXp] in [talk_commit], and the store it
    returns. *)
Ltac name_award a :=
  match goal with
  | |- context [awardXp a ?r ?d] =>
      let Haward := fresh "Haward" in
      destruct (awardXp a r d) as [db7 xp] eqn:Haward;
      apply awardXp_fst_eq in Haward; set (db6 := d) in *
  end.

(** The speaker's row after [talk_commit]. *)
Lemma rich_talk_commit_speaker (db : DB) (me l : Character) (a message : string)
    (a0 : Character) :
  find_character db a = Some a0 -> c_id l <> a ->
  find_character (fst (Rich.talk_commit db me l a message)) a
  = Some (speaker_row db l a a0).
Proof.
  intros Ha Hne. unfold Rich.talk_commit, speaker_row. cbv zeta.
  set (n := Rich.recent_exchanges_of db a (c_id l) + 1).
  cbn [relationships insert_memory insert_conversation update_character
       set_characters].
  set (first := match relationships db !! (a, c_id l) with
                | None => true
                | Some _ => false
                end).
  name_award a.
  assert (H6 : find_character db6 a
               = Some (if first
                       then met (w_tick (world db)) (c_name l) (tired a0) (tired a0)
                       else tired a0)).
  { subst db6. destruct first.
    - rewrite find_character_addSignificantMoment_other by congruence.
      erewrite find_character_addSignificantMoment.
      2:{ rewrite find_character_upsert. find_update. rewrite Ha. cbn.
          rewrite String.eqb_refl. reflexivity. }
      rewrite find_character_upsert. find_update. rewrite Ha. cbn.
      rewrite !String.eqb_refl. reflexivity.
    - rewrite find_character_upsert. find_update. rewrite Ha. cbn.
      rewrite String.eqb_refl. reflexivity. }
  destruct (0 <? Rich.talk_xp first n); cbn [fst]; find_update.
  - subst db7. rewrite (find_character_awardXp _ _ _ _ _ H6), H6. cbn.
    now rewrite String.eqb_refl.
  - exact H6.
Qed.

(** The listener's row after [talk_commit]. *)
Lemma rich_talk_commit_listener (db : DB) (me l : Character) (a message : string)
    (b0 : Character) :
  find_character db (c_id l) = Some b0 -> c_id l <> a ->
  find_character (fst (Rich.talk_commit db me l a message)) (c_id l)
  = Some (listener_row db me l a b0).
Proof.
  intros Hb Hne. unfold Rich.talk_commit, listener_row. cbv zeta.
  set (n := Rich.recent_exchanges_of db a (c_id l) + 1).
  cbn [relationships insert_memory insert_conversation update_character
       set_characters].
  name_award a.
  assert (H6 : find_character db6 (c_id l)
               = Some (match relationships db !! (a, c_id l) with
                       | None => met (w_tick (world db)) (c_name me) b0 b0
                       | Some _ => b0
                       end)).
  { subst db6. destruct (relationships db !! (a, c_id l)).
    - rewrite find_character_upsert. find_update. rewrite Hb. cbn.
      apply String.eqb_neq in Hne. now rewrite Hne.
    - apply String.eqb_neq in Hne as Hneb.
      erewrite find_character_addSignificantMoment.
      2:{ rewrite find_character_addSignificantMoment_other by exact Hne.
          rewrite find_character_upsert. find_update. rewrite Hb. cbn.
          rewrite Hneb. reflexivity. }
      rewrite find_character_addSignificantMoment_other by exact Hne.
      rewrite find_character_upsert. find_update. rewrite Hb. cbn.
      rewrite Hneb, String.eqb_refl.
      match goal with
      | |- context [world (addSignificantMoment ?i ?m ?c ?d)] =>
          destruct (addSignificantMoment_frame i m c d) as [-> _]
      end.
      reflexivity. }
  destruct (0 <? Rich.talk_xp _ n); cbn [fst]; find_update.
  - subst db7. rewrite find_character_awardXp_other by exact Hne. exact H6.
  - exact H6.
Qed.

(** The rows of all other characters stay as they were. *)
Lemma rich_talk_commit_others (db : DB) (me l : Character) (a message id' : string) :
  id' <> a -> id' <> c_id l ->
  find_character (fst (Rich.talk_commit db me l a message)) id'
  = find_character db id'.
Proof.
  intros Ha Hb. unfold Rich.talk_commit. cbv zeta.
  name_award a.
  assert (H6 : find_character db6 id' = find_character db id').
  { subst db6. destruct (relationships _ !! (a, c_id l)).
    - rewrite find_character_upsert. find_update.
      apply String.eqb_neq in Ha. rewrite Ha. now destruct (find_character db id').
    - rewrite !find_character_addSignificantMoment_other by assumption.
      rewrite find_character_upsert. find_update.
      apply String.eqb_neq in Ha. rewrite Ha. now destruct (find_character db id'). }
  destruct (0 <? Rich.talk_xp _ _); cbn [fst]; find_update.
  - subst db7. rewrite find_character_awardXp_other by exact Ha. exact H6.
  - exact H6.
Qed.

End TalkFacts.

Module TalkClaims.
Import Leveling Text Store Core Effects StoreFacts StoryClaims ListenerClaims TalkFacts.

(** The speaker and the listener of a talk attempt are two characters. *)
Lemma talks_to_distinct (db : DB) (rq : Request) (me l : Character) (message : string) :
  Rich.talks_to db rq me l message -> c_id l <> rq_charId rq.
Proof.
  intros (_ & _ & _ & _ & _ & _ & Hl).
  apply nearby_listener_Some in Hl as (_ & Hcand & _).
  now apply talk_candidate_spec in Hcand.
Qed.

(** Without a relationship row the cooldown test compares numbers. *)
Lemma no_row_not_on_cooldown (db : DB) (a b : string) :
  relationships db !! (a, b) = None ->
  Rich.cooldown_until_of db a b <= w_tick (world db) ->
  Rich.on_cooldown db a b = false.
Proof.
  unfold Rich.cooldown_until_of, Rich.on_cooldown, Rich.stored_cooldown.
  intros -> Hcool. now apply Z.ltb_ge.
Qed.

(** A talk attempt past the cooldown test is accepted, and leaves the
    store of [talk_commit] with the stamp of the turn gate. *)
Lemma rich_talk_accepted (db : DB) (rq : Request) (me l : Character) (message : string) :
  Rich.talks_to db rq me l message ->
  Rich.on_cooldown db (rq_charId rq) (c_id l) = false ->
  exists msg xp energy warning cooldownIn,
    Rich.handle_action rq db
    = (updateLastAction (rq_charId rq)
         (fst (Rich.talk_commit db me l (rq_charId rq) message)),
       Accepted (Talked msg (c_name l) xp energy
                   (Rich.recent_exchanges_of db (rq_charId rq) (c_id l) + 1)
                   warning cooldownIn)).
Proof.
  intros (Hauth & Hturn & Hact & Hmsg & Hne & Henergy & Hl) Hcool.
  rewrite (rich_talk_route db rq me message) by assumption. rewrite Hl, Hcool.
  destruct (rich_talk_commit_accepted db me l (rq_charId rq) message)
    as (db' & msg & xp & e & w & ci & ->).
  now exists msg, xp, e, w, ci.
Qed.

(** The relationship rows after an accepted talk: the row of the ordered
    pair holds the new count and the new cooldown, the others are as
    before. *)
Lemma rich_talk_relationship_row (db : DB) (me l : Character) (a message : string) :
  let b := c_id l in
  let tick := w_tick (world db) in
  let n := Rich.recent_exchanges_of db a b + 1 in
  let db' := updateLastAction a (fst (Rich.talk_commit db me l a message)) in
  (exists r, relationships db' !! (a, b) = Some r
             /\ r_recent_exchanges r = Some n
             /\ r_cooldown_until_tick r
                = Some (if 15 <=? n then text_plus tick 30 else 0))
  /\ forall key, key <> (a, b) -> relationships db' !! key = relationships db !! key.
Proof.
  intros b tick n db'.
  assert (Hrel : relationships db'
                 = relationships
                     (Rich.upsert_relationship a b tick n
                        (if 15 <=? n then text_plus tick 30 else 0) db))
    by apply rich_talk_commit_relationships.
  unfold Rich.upsert_relationship in Hrel. cbn [relationships set_relationships] in Hrel.
  split.
  - rewrite Hrel, lookup_insert_eq. eexists. split; [reflexivity|].
    unfold n, Rich.recent_exchanges_of.
    destruct (relationships db !! (a, b)); cbn; split; reflexivity.
  - intros key Hkey. rewrite Hrel. now apply lookup_insert_ne.
Qed.

(** The outcome of a talk attempt from A to B.  When the cooldown test
    holds the attempt fails with the cooldown error, which reports
    [cooldownUntil - tick], and changes nothing.  Otherwise it is
    accepted, the count of the ordered pair becomes [recentExchanges + 1],
    and the cooldown written is the text of the tick followed by 30 when
    that count has reached 15 and 0 otherwise; no other relationship row
    changes. *)
Lemma talk_attempt_outcome (db : DB) (rq : Request) (me listener : Character)
    (message : string) :
  Rich.talks_to db rq me listener message ->
  let a := rq_charId rq in
  let b := c_id listener in
  let tick := w_tick (world db) in
  let n := Rich.recent_exchanges_of db a b + 1 in
  (Rich.on_cooldown db a b = true ->
   Rich.handle_action rq db
   = (db, Rejected (ConversationCooldown (c_name listener)
                      (Rich.cooldown_until_of db a b - tick))))
  /\ (Rich.on_cooldown db a b = false ->
      exists db' msg xp energy warning cooldownIn r,
        Rich.handle_action rq db
        = (db', Accepted (Talked msg (c_name listener) xp energy n warning cooldownIn))
        /\ relationships db' !! (a, b) = Some r
        /\ r_recent_exchanges r = Some n
        /\ r_cooldown_until_tick r = Some (if 15 <=? n then text_plus tick 30 else 0)
        /\ Rich.recent_exchanges_of db' a b = n
        /\ Rich.cooldown_until_of db' a b = (if 15 <=? n then text_plus tick 30 else 0)
        /\ forall key, key <> (a, b) ->
                       relationships db' !! key = relationships db !! key).
Proof.
  intros Htalk a b tick n. split.
  - intros Hcool. destruct Htalk as (Hauth & Hturn & Hact & Hmsg & Hne & Henergy & Hl).
    rewrite (rich_talk_route db rq me message) by assumption. rewrite Hl.
    fold a b. now rewrite Hcool.
  - intros Hcool. subst a b tick n.
    destruct (rich_talk_accepted db rq me listener message Htalk Hcool)
      as (msg & xp & e & w & ci & Hrun).
    destruct (rich_talk_relationship_row db me listener (rq_charId rq) message)
      as [(r & Hr & Hrecent & Hcd) Hothers].
    assert (Hor : forall v, or_default (Some v) 0 = v).
    { intros v. unfold or_default. now destruct (Z.eqb_spec v 0). }
    exists (updateLastAction (rq_charId rq)
              (fst (Rich.talk_commit db me listener (rq_charId rq) message))),
      msg, xp, e, w, ci, r.
    repeat split; try assumption.
    + unfold Rich.recent_exchanges_of at 1. now rewrite Hr, Hrecent, Hor.
    + unfold Rich.cooldown_until_of. now rewrite Hr, Hcd, Hor.
Qed.

Lemma talk_xp_cases (first : bool) (n : Z) :
  (first = true /\ Rich.talk_xp first n = 20)
  \/ (first = false /\ n <= 5 /\ Rich.talk_xp first n = 5)
  \/ (first = false /\ 5 < n <= 10 /\ Rich.talk_xp first n = 2)
  \/ (first = false /\ 10 < n /\ Rich.talk_xp first n = 0).
Proof.
  unfold Rich.talk_xp. destruct first; [now left|right].
  destruct (Z.leb_spec n 5); [left; now repeat split|right].
  destruct (Z.leb_spec n 10); [left|right]; repeat split; try reflexivity; lia.
Qed.

Lemma award_row_xp (me c : Character) (amount : Z) :
  c_xp (award_row me amount c) = c_xp me + amount.
Proof. unfold award_row. now destruct (c_level me <? _). Qed.

Lemma award_row_moments (me c : Character) (amount : Z) :
  moments_of (award_row me amount c) = moments_of c.
Proof. unfold award_row. now destruct (c_level me <? _). Qed.

(** The speaker's XP after an accepted talk. *)
Lemma speaker_row_xp (db : DB) (l : Character) (a : string) (a0 : Character) :
  c_xp (speaker_row db l a a0)
  = c_xp a0
    + Rich.talk_xp (match relationships db !! (a, c_id l) with
                    | None => true
                    | Some _ => false
                    end)
        (Rich.recent_exchanges_of db a (c_id l) + 1).
Proof.
  unfold speaker_row. cbv zeta.
  set (first := match relationships db !! (a, c_id l) with
                | None => true
                | Some _ => false
                end).
  set (n := Rich.recent_exchanges_of db a (c_id l) + 1).
  destruct (Z.ltb_spec 0 (Rich.talk_xp first n)) as [Hpos|Hzero].
  - rewrite award_row_xp. now destruct first.
  - destruct (talk_xp_cases first n) as [[_ H]|[(_ & _ & H)|[(_ & _ & H)|(_ & _ & H)]]];
      rewrite H in *; try lia.
    destruct first; cbn; lia.
Qed.

(** The speaker's moments after an accepted talk. *)
Lemma speaker_row_moments (db : DB) (l : Character) (a : string) (a0 : Character) :
  moments_of (speaker_row db l a a0)
  = match relationships db !! (a, c_id l) with
    | None =>
        push_moment {| m_tick := w_tick (world db); m_category := "social";
                       m_moment := first_meeting (c_name l) |} (moments_of a0)
    | Some _ => moments_of a0
    end.
Proof.
  unfold speaker_row. cbv zeta.
  destruct (0 <? _); [rewrite award_row_moments|];
    now destruct (relationships db !! (a, c_id l)).
Qed.

(** The listener's moments after an accepted talk. *)
Lemma listener_row_moments (db : DB) (me l : Character) (a : string) (b0 : Character) :
  moments_of (listener_row db me l a b0)
  = match relationships db !! (a, c_id l) with
    | None =>
        push_moment {| m_tick := w_tick (world db); m_category := "social";
                       m_moment := first_meeting (c_name me) |} (moments_of b0)
    | Some _ => moments_of b0
    end.
Proof. unfold listener_row. now destruct (relationships db !! (a, c_id l)). Qed.

(** The rows of the speaker and of the listener after an accepted talk,
    stamp included. *)
Lemma rich_talk_rows (db : DB) (rq : Request) (me l : Character) (message : string) :
  Rich.talks_to db rq me l message ->
  exists a0 b0,
    find_character db (rq_charId rq) = Some a0
    /\ find_character db (c_id l) = Some b0
    /\ find_character
         (updateLastAction (rq_charId rq)
            (fst (Rich.talk_commit db me l (rq_charId rq) message)))
         (rq_charId rq)
       = Some (set_last_action_tick (w_tick (world db))
                 (speaker_row db l (rq_charId rq) a0))
    /\ find_character
         (updateLastAction (rq_charId rq)
            (fst (Rich.talk_commit db me l (rq_charId rq) message)))
         (c_id l)
       = Some (listener_row db me l (rq_charId rq) b0).
Proof.
  intros Htalk. pose proof (talks_to_distinct _ _ _ _ _ Htalk) as Hne.
  destruct Htalk as (Hauth & _ & _ & _ & _ & _ & Hl).
  destruct (authenticate_found _ _ _ _ Hauth) as [_ [a0 Ha0]].
  apply nearby_listener_Some in Hl as (Hin & _ & _).
  assert (Hb0 : exists b0, find_character db (c_id l) = Some b0).
  { unfold find_character.
    destruct (find (fun c => (c_id c =? c_id l)%string) (characters db)) as [b0|] eqn:Hf;
      [eauto|].
    eapply find_none in Hf; [|exact Hin]. cbn in Hf.
    now rewrite String.eqb_refl in Hf. }
  destruct Hb0 as [b0 Hb0]. exists a0, b0. repeat split; try assumption.
  - unfold updateLastAction. find_update.
    rewrite (rich_talk_commit_speaker _ _ _ _ _ _ Ha0 Hne). cbn.
    rewrite String.eqb_refl. now rewrite rich_talk_commit_world.
  - unfold updateLastAction. find_update.
    rewrite (rich_talk_commit_listener _ _ _ _ _ _ Hb0 Hne). cbn.
    apply String.eqb_neq in Hne. now rewrite Hne.
Qed.

Lemma neighbours_talk (tick : Z) (r : option Relationship) :
  1 <= tick ->
  Rich.talks_to (Meadow.neighbours tick r)
    (Meadow.submit "alice" "talk" None None (Some "hello"%string))
    (Meadow.newcomer "alice" 5 5) (Meadow.newcomer "bob" 6 5) "hello".
Proof.
  intros Hpos. unfold Rich.talks_to.
  assert (Hchars : characters (Meadow.neighbours tick r)
                   = [Meadow.newcomer "alice" 5 5; Meadow.newcomer "bob" 6 5])
    by now destruct r.
  assert (Htick : w_tick (world (Meadow.neighbours tick r)) = tick) by now destruct r.
  unfold authenticate, canAct, find_character, nearby_listener.
  rewrite Hchars, Htick. cbn.
  repeat split; try reflexivity; try discriminate; try (apply Z.leb_le; lia).
Defined.

(** C3, on the code.  The claim has the talk that brings the count to 15
    set the cooldown to the tick plus 30, and an attempt rejected exactly
    while the tick is below the cooldown.  The tick is a BIGINT column and
    reaches JavaScript as a text, so [tick + 30] appends the digits 30 and
    the test compares two texts.  At tick 100 the talk that brings the
    count of (alice, bob) to 15 is accepted and stores the cooldown 10030,
    not 130; one tick later, at 101, the next attempt of alice is accepted
    as exchange 16, not rejected with 29 ticks to wait.  At tick 9 the
    same talk stores the cooldown 930, not 39; thirty ticks later, at 39,
    the attempt of alice is rejected with 891 ticks to wait, not
    accepted. *)
Theorem cooldown_is_not_tick_plus_30 :
  let rq := Meadow.submit "alice" "talk" None None (Some "hello"%string) in
  let alice := Meadow.newcomer "alice" 5 5 in
  let bob := Meadow.newcomer "bob" 6 5 in
  let tiring := Meadow.neighbours 100 (Some (Meadow.acquainted 14 0)) in
  let tired := fst (Rich.handle_action rq tiring) in
  let later := Rich.worldTick 0 tired in
  let early := Meadow.neighbours 9 (Some (Meadow.acquainted 14 0)) in
  let worn := fst (Rich.handle_action rq early) in
  let waited := Invariants.ticks (repeat 0%nat 30) worn in
  Rich.talks_to tiring rq alice bob "hello"
  /\ (exists msg xp energy warning cooldownIn,
        snd (Rich.handle_action rq tiring)
        = Accepted (Talked msg "bob" xp energy 15 warning cooldownIn))
  /\ Rich.recent_exchanges_of tired "alice" "bob" = 15
  /\ Rich.cooldown_until_of tired "alice" "bob" = 10030
  /\ w_tick (world later) = 101
  /\ Rich.cooldown_until_of later "alice" "bob" = 10030
  /\ (exists msg xp energy warning cooldownIn,
        snd (Rich.handle_action rq later)
        = Accepted (Talked msg "bob" xp energy 16 warning cooldownIn))
  /\ Rich.talks_to early rq alice bob "hello"
  /\ (exists msg xp energy warning cooldownIn,
        snd (Rich.handle_action rq early)
        = Accepted (Talked msg "bob" xp energy 15 warning cooldownIn))
  /\ Rich.cooldown_until_of worn "alice" "bob" = 930
  /\ w_tick (world waited) = 39
  /\ Rich.handle_action rq waited
     = (waited, Rejected (ConversationCooldown "bob" 891)).
Proof.
  cbv zeta.
  split; [apply neighbours_talk; lia|].
  split; [vm_compute; repeat eexists|].
  split; [vm_compute; reflexivity|].
  split; [vm_compute; reflexivity|].
  split; [vm_compute; reflexivity|].
  split; [vm_compute; reflexivity|].
  split; [vm_compute; repeat eexists|].
  split; [apply neighbours_talk; lia|].
  split; [vm_compute; repeat eexists|].
  split; [vm_compute; reflexivity|].
  split; [vm_compute; reflexivity|].
  vm_compute. reflexivity.
Qed.



(** What one accepted talk records.  Without a relationship row for the
    ordered pair, as at the first-ever talk between two characters, it
    pushes one first-meeting moment onto the moments of the speaker and
    one onto the moments of the listener and awards the speaker the
    first-meeting bonus; with a row it leaves the moments and awards less. *)
Lemma talk_first_meeting_effects (db : DB) (rq : Request) (me listener : Character)
    (message : string) :
  Rich.talks_to db rq me listener message ->
  Rich.on_cooldown db (rq_charId rq) (c_id listener) = false ->
  let a := rq_charId rq in
  let b := c_id listener in
  let moment who :=
    {| m_tick := w_tick (world db); m_category := "social";
       m_moment := first_meeting who |} in
  exists db' a0 b0 a' b' result,
    Rich.handle_action rq db = (db', Accepted result)
    /\ a <> b
    /\ find_character db a = Some a0 /\ find_character db b = Some b0
    /\ find_character db' a = Some a' /\ find_character db' b = Some b'
    /\ relationships db' !! (a, b) <> None
    /\ (relationships db !! (a, b) = None ->
        moments_of a' = push_moment (moment (c_name listener)) (moments_of a0)
        /\ moments_of b' = push_moment (moment (c_name me)) (moments_of b0)
        /\ c_xp a' = c_xp a0 + XP_first_meeting)
    /\ (relationships db !! (a, b) <> None ->
        moments_of a' = moments_of a0
        /\ moments_of b' = moments_of b0
        /\ c_xp a' < c_xp a0 + XP_first_meeting).
Proof.
  intros Htalk Hcool a b moment. subst a b.
  pose proof (talks_to_distinct _ _ _ _ _ Htalk) as Hne.
  destruct (rich_talk_relationship_row db me listener (rq_charId rq) message)
    as [(r & Hr & _) _].
  destruct (rich_talk_accepted db rq me listener message Htalk Hcool)
    as (msg & xp & e & w & ci & Hrun).
  destruct (rich_talk_rows db rq me listener message Htalk)
    as (a0 & b0 & Ha0 & Hb0 & Ha' & Hb').
  eexists _, a0, b0,
    (set_last_action_tick (w_tick (world db))
       (speaker_row db listener (rq_charId rq) a0)),
    (listener_row db me listener (rq_charId rq) b0).
  eexists.
  split; [exact Hrun|]. split; [congruence|].
  split; [exact Ha0|]. split; [exact Hb0|]. split; [exact Ha'|]. split; [exact Hb'|].
  split; [congruence|].
  change (moments_of (set_last_action_tick (w_tick (world db))
                        (speaker_row db listener (rq_charId rq) a0)))
    with (moments_of (speaker_row db listener (rq_charId rq) a0)).
  change (c_xp (set_last_action_tick (w_tick (world db))
                  (speaker_row db listener (rq_charId rq) a0)))
    with (c_xp (speaker_row db listener (rq_charId rq) a0)).
  rewrite speaker_row_moments, listener_row_moments, speaker_row_xp.
  split; intros Hrow.
  - rewrite Hrow. now repeat split.
  - destruct (relationships db !! (rq_charId rq, c_id listener)); [|contradiction].
    repeat split.
    destruct (talk_xp_cases false
                (Rich.recent_exchanges_of db (rq_charId rq) (c_id listener) + 1))
      as [[Hf _]|[(_ & _ & H)|[(_ & _ & H)|(_ & _ & H)]]];
      [discriminate| | |]; rewrite H; unfold XP_first_meeting; lia.
Qed.

End TalkClaims.

(** ** Histories of talks *)

Module HistoryFacts.
Import Leveling Text Store Core Effects StoreFacts StoryClaims ListenerClaims.
Import TalkFacts TalkClaims History.

Lemma move_case_frame (db : DB) (me : Character) (rq : Request) :
  relationships (fst (Rich.move_case db me rq)) = relationships db
  /\ not_talked (snd (Rich.move_case db me rq)).
Proof.
  unfold Rich.move_case.
  destruct (rq_direction rq) as [d|]; [|now split].
  destruct (dirs _) as [[dx dy]|]; [|destruct (inherited_key _); now split].
  destruct (_ || _); [now split|].
  destruct (blocking_at _ _ _); [now split|]. cbn [fst snd]. split; [|exact I].
  now destruct (awardXp_frame (rq_charId rq) XP_move
    (broadcast (BMove (rq_charId rq) (c_name me) (c_x me + dx) (c_y me + dy) d)
       (insert_log {| a_tick := w_tick (world db); a_character_id := Some (rq_charId rq);
                      a_action := "move"; a_message := (c_name me ++ " moves " ++ d)%string |}
          (update_character (rq_charId rq) (set_position (c_x me + dx) (c_y me + dy)) db))))
    as (_ & _ & -> & _).
Qed.

Lemma examine_case_frame (db : DB) (me : Character) (rq : Request) :
  relationships (fst (Rich.examine_case db me rq)) = relationships db
  /\ not_talked (snd (Rich.examine_case db me rq)).
Proof.
  unfold Rich.examine_case. destruct (examine_query _ _ _ _); now split.
Qed.

Lemma interact_case_frame (db : DB) (me : Character) (rq : Request) :
  relationships (fst (Rich.interact_case db me rq)) = relationships db
  /\ not_talked (snd (Rich.interact_case db me rq)).
Proof.
  unfold Rich.interact_case. cbv zeta.
  destruct (interact_query _ _ _ _) as [o|]; [|now split].
  destruct (_ || _).
  - match goal with
    | |- context [awardXp ?i ?r ?d] =>
        destruct (awardXp i r d) as [db4 xp] eqn:Haward;
        apply awardXp_fst_eq in Haward;
        pose proof (awardXp_frame i r d) as (_ & _ & Hrel & _)
    end.
    cbn [fst snd]. split; [|exact I]. subst db4. now rewrite Hrel.
  - match goal with
    | |- context [awardXp ?i ?r ?d] =>
        destruct (awardXp i r d) as [db4 xp] eqn:Haward;
        apply awardXp_fst_eq in Haward;
        pose proof (awardXp_frame i r d) as (_ & _ & Hrel & _)
    end.
    cbn [fst snd relationships broadcast insert_log]. split; [|exact I].
    subst db4. now rewrite Hrel.
Qed.

Lemma handle_action_finish (db : DB) (rq : Request) (me : Character) :
  authenticate db (rq_charId rq) (rq_token rq) = Some me ->
  canAct db (rq_charId rq) = true ->
  relationships (fst (Rich.handle_action rq db))
  = relationships (fst (Rich.dispatch db me rq))
  /\ snd (Rich.handle_action rq db) = snd (Rich.dispatch db me rq).
Proof.
  intros Hauth Hturn. unfold Rich.handle_action. rewrite Hauth, Hturn. cbn [negb].
  destruct (Rich.dispatch db me rq) as [db' [r|result]]; now split.
Qed.

(** Either the submission is an accepted talk, or it leaves the
    relationship rows. *)
Lemma handle_action_talk_or_frame (rq : Request) (db : DB) :
  (exists me l message,
      Rich.talks_to db rq me l message
      /\ Rich.on_cooldown db (rq_charId rq) (c_id l) = false
      /\ accepted_talk rq db = Some (rq_charId rq, c_id l))
  \/ (accepted_talk rq db = None
      /\ relationships (fst (Rich.handle_action rq db)) = relationships db).
Proof.
  unfold accepted_talk.
  destruct (authenticate db (rq_charId rq) (rq_token rq)) as [me|] eqn:Hauth.
  2:{ right. split; [reflexivity|]. unfold Rich.handle_action. now rewrite Hauth. }
  destruct (canAct db (rq_charId rq)) eqn:Hturn.
  2:{ right. unfold Rich.handle_action. rewrite Hauth, Hturn. now split. }
  destruct (handle_action_finish db rq me Hauth Hturn) as [Hrel Hsnd].
  rewrite Hrel, Hsnd. unfold Rich.dispatch.
  destruct (rq_action rq =? "move")%string eqn:Hmove.
  { right. destruct (move_case_frame db me rq) as [-> Hnt]. split; [|reflexivity].
    destruct (snd (Rich.move_case db me rq)) as [|[]]; try reflexivity. destruct Hnt. }
  destruct (rq_action rq =? "talk")%string eqn:Htalk.
  { apply String.eqb_eq in Htalk.
    unfold Rich.talk_case.
    destruct (rq_message rq) as [message|] eqn:Hmsg; [|right; now split].
    destruct (message =? "")%string eqn:Hempty; [right; now split|].
    destruct (Z.ltb_spec (or_default (c_energy me) 100) Rich.energyCost) as [Hlow|Henergy];
      [right; now split|].
    destruct (nearby_listener db (rq_charId rq) (c_x me) (c_y me)) as [l|] eqn:Hl;
      [|right; now split].
    destruct (Rich.on_cooldown db (rq_charId rq) (c_id l)) eqn:Hcool;
      [right; now split|].
    left. exists me, l, message.
    assert (Ht : Rich.talks_to db rq me l message).
    { repeat split; try assumption. now apply String.eqb_neq. }
    split; [exact Ht|]. split; [exact Hcool|].
    destruct (rich_talk_commit_accepted db me l (rq_charId rq) message)
      as (db' & msg & xp & e & w & ci & ->). reflexivity. }
  destruct (rq_action rq =? "examine")%string.
  { right. destruct (examine_case_frame db me rq) as [-> Hnt]. split; [|reflexivity].
    destruct (snd (Rich.examine_case db me rq)) as [|[]]; try reflexivity. destruct Hnt. }
  destruct (rq_action rq =? "interact")%string.
  { right. destruct (interact_case_frame db me rq) as [-> Hnt]. split; [|reflexivity].
    destruct (snd (Rich.interact_case db me rq)) as [|[]]; try reflexivity. destruct Hnt. }
  right. now split.
Qed.

Lemma worldTick_relationships (pick : nat) (db : DB) :
  relationships (Rich.worldTick pick db)
  = if Z.rem (w_tick (world db) + 1) 50 =? 0
    then Rich.decay_row <$> relationships db
    else relationships db.
Proof.
  unfold Rich.worldTick.
  cbn [world set_world Rich.advance_tick w_tick w_day_length w_night_length w_is_night].
  destruct (Z.rem (w_tick (world db) + 1) 50 =? 0);
    repeat match goal with
           | |- context [if ?b then _ else _] => destruct b
           end; reflexivity.
Qed.

Lemma worldTick_row (pick : nat) (db : DB) (k : string * string) :
  relationships (Rich.worldTick pick db) !! k = None <-> relationships db !! k = None.
Proof.
  rewrite worldTick_relationships.
  destruct (Z.rem _ 50 =? 0); [|reflexivity].
  rewrite lookup_fmap. now destruct (relationships db !! k).
Qed.

Lemma step_submit_fst (rq : Request) (db : DB) :
  fst (step (Submit rq) db) = fst (Rich.handle_action rq db).
Proof. cbn. now destruct (Rich.handle_action rq db). Qed.

(** What a step does to the row of an ordered pair and to the XP of its
    first member. *)
Lemma step_row (a b : string) (s : Step) (db : DB) :
  (is_talk a b s db = true
   /\ relationships (fst (step s db)) !! (a, b) <> None
   /\ xp_of (fst (step s db)) a - xp_of db a
      = Rich.talk_xp (match relationships db !! (a, b) with None => true | Some _ => false end)
          (Rich.recent_exchanges_of db a b + 1))
  \/ (is_talk a b s db = false
      /\ (relationships (fst (step s db)) !! (a, b) = None
          <-> relationships db !! (a, b) = None)).
Proof.
  destruct s as [rq|pick]; [|right; split; [reflexivity|apply worldTick_row]].
  rewrite step_submit_fst. unfold is_talk.
  destruct (handle_action_talk_or_frame rq db)
    as [(me & l & message & Htalk & Hcool & ->)|[-> ->]]; [|right; now split].
  destruct (rich_talk_accepted db rq me l message Htalk Hcool)
    as (msg & xp & e & w & ci & ->). cbn [fst].
  destruct (rich_talk_relationship_row db me l (rq_charId rq) message)
    as [(r & Hr & _) Hothers].
  destruct (String.eqb_spec (rq_charId rq) a) as [<-|Ha];
    [destruct (String.eqb_spec (c_id l) b) as [<-|Hb]|].
  - left. split; [reflexivity|]. split; [congruence|].
    destruct (rich_talk_rows db rq me l message Htalk) as (a0 & b0 & Ha0 & _ & Ha' & _).
    unfold xp_of. rewrite Ha', Ha0.
    change (c_xp (set_last_action_tick (w_tick (world db))
                    (speaker_row db l (rq_charId rq) a0)))
      with (c_xp (speaker_row db l (rq_charId rq) a0)).
    rewrite speaker_row_xp. lia.
  - right. split; [reflexivity|]. rewrite Hothers; [reflexivity|congruence].
  - right. split; [reflexivity|]. rewrite Hothers; [reflexivity|congruence].
Qed.

(** Along a history the first-meeting bonus of an ordered pair is awarded
    at its first accepted talk and at no other step. *)
Lemma first_meeting_bonus_count (a b : string) (steps : list Step) (db : DB) :
  count_steps (awards_first_meeting a b) steps db
  = match relationships db !! (a, b) with
    | None => Nat.min 1 (count_steps (is_talk a b) steps db)
    | Some _ => 0%nat
    end.
Proof.
  revert db. induction steps as [|s rest IH]; intros db.
  - cbn. now destruct (relationships db !! (a, b)).
  - cbn [count_steps]. rewrite IH. unfold awards_first_meeting.
    destruct (step_row a b s db) as [(Htalk & Hrow & Hxp)|(Htalk & Hrow)]; rewrite Htalk.
    + rewrite Hxp. cbn [andb].
      destruct (relationships (fst (step s db)) !! (a, b)); [|contradiction].
      destruct (relationships db !! (a, b)).
      * destruct (talk_xp_cases false (Rich.recent_exchanges_of db a b + 1))
          as [[Hf _]|[(_ & _ & H)|[(_ & _ & H)|(_ & _ & H)]]];
          [discriminate| | |]; rewrite H; reflexivity.
      * reflexivity.
    + cbn [andb].
      destruct (relationships db !! (a, b)) eqn:Hdb.
      * destruct (relationships (fst (step s db)) !! (a, b)); [reflexivity|].
        now pose proof (proj1 Hrow eq_refl).
      * rewrite (proj2 Hrow eq_refl). reflexivity.
Qed.

End HistoryFacts.

(** ** First meetings *)

Module MeetingClaims.
Import Leveling Text Store Core Effects StoreFacts StoryClaims ListenerClaims.
Import TalkFacts TalkClaims History HistoryFacts.

(** C5: an accepted talk from A to B made while the ordered pair has no
    relationship row, as the first-ever talk between A and B is, pushes
    exactly one first-meeting moment onto the moments of A and exactly one
    onto the moments of B and awards A the first-meeting bonus; and along
    any history of submissions and ticks the bonus of the ordered pair is
    awarded exactly once, at its first accepted talk, when the pair starts
    without a row, and never when it starts with one. *)
Theorem first_meeting_once :
  (forall (db : DB) (rq : Request) (me listener : Character) (message : string),
      Rich.talks_to db rq me listener message ->
      Rich.cooldown_until_of db (rq_charId rq) (c_id listener) <= w_tick (world db) ->
      relationships db !! (rq_charId rq, c_id listener) = None ->
      exists db' a0 b0 a' b' result,
        Rich.handle_action rq db = (db', Accepted result)
        /\ rq_charId rq <> c_id listener
        /\ find_character db (rq_charId rq) = Some a0
        /\ find_character db (c_id listener) = Some b0
        /\ find_character db' (rq_charId rq) = Some a'
        /\ find_character db' (c_id listener) = Some b'
        /\ moments_of a'
           = push_moment {| m_tick := w_tick (world db); m_category := "social";
                            m_moment := first_meeting (c_name listener) |}
               (moments_of a0)
        /\ moments_of b'
           = push_moment {| m_tick := w_tick (world db); m_category := "social";
                            m_moment := first_meeting (c_name me) |}
               (moments_of b0)
        /\ c_xp a' = c_xp a0 + XP_first_meeting
        /\ relationships db' !! (rq_charId rq, c_id listener) <> None)
  /\ (forall (a b : string) (steps : list Step) (db : DB),
        relationships db !! (a, b) = None ->
        count_steps (awards_first_meeting a b) steps db
        = Nat.min 1 (count_steps (is_talk a b) steps db))
  /\ (forall (a b : string) (steps : list Step) (db : DB),
        relationships db !! (a, b) <> None ->
        count_steps (awards_first_meeting a b) steps db = 0%nat).
Proof.
  split; [|split].
  - intros db rq me listener message Htalk Hcool Hrow.
    apply (no_row_not_on_cooldown _ _ _ Hrow) in Hcool.
    destruct (talk_first_meeting_effects db rq me listener message Htalk Hcool)
      as (db' & a0 & b0 & a' & b' & result & Hrun & Hne & Ha0 & Hb0 & Ha' & Hb'
          & Hrow' & Hfirst & _).
    destruct (Hfirst Hrow) as (Hma & Hmb & Hxp).
    exists db', a0, b0, a', b', result. now repeat split.
  - intros a b steps db Hrow. now rewrite first_meeting_bonus_count, Hrow.
  - intros a b steps db Hrow. rewrite first_meeting_bonus_count.
    now destruct (relationships db !! (a, b)).
Qed.

Lemma first_meeting_once_witness :
  let alice := Meadow.newcomer "alice" 5 5 in
  let bob := Meadow.newcomer "bob" 6 5 in
  let db := Meadow.neighbours 100 None in
  let hello id := Submit (Meadow.submit id "talk" None None (Some "hello"%string)) in
  let history := [hello "alice"; Tick 0; hello "bob"; Tick 0; hello "alice"]%string in
  Rich.talks_to db (Meadow.submit "alice" "talk" None None (Some "hello"%string))
    alice bob "hello"
  /\ Rich.cooldown_until_of db "alice" "bob" <= 100
  /\ relationships db !! ("alice", "bob")%string = None
  /\ (exists db' a',
        fst (Rich.handle_action
               (Meadow.submit "alice" "talk" None None (Some "hello"%string)) db) = db'
        /\ find_character db' "alice" = Some a'
        /\ moments_of a'
           = [{| m_tick := 100; m_category := "social";
                 m_moment := "Met bob for the first time" |}]
        /\ c_xp a' = 20)
  /\ count_steps (is_talk "alice" "bob") history db = 2%nat
  /\ count_steps (awards_first_meeting "alice" "bob") history db = 1%nat.
Proof.
  intros alice bob db hello history.
  assert (Hpos : 1 <= 100) by lia.
  assert (Hcool : Rich.cooldown_until_of db "alice" "bob" <= 100)
    by (vm_compute; discriminate).
  assert (Hrow : relationships db !! ("alice", "bob")%string = None) by reflexivity.
  assert (Htalks : count_steps (is_talk "alice" "bob") history db = 2%nat)
    by (vm_compute; reflexivity).
  destruct first_meeting_once as (Hfirst & Hcount & _).
  split; [now apply neighbours_talk|]. split; [exact Hcool|]. split; [exact Hrow|].
  split; [|split; [exact Htalks|]].
  - destruct (Hfirst db _ alice bob "hello" (neighbours_talk 100 None Hpos) Hcool Hrow)
      as (db' & a0 & b0 & a' & b' & result & Hrun & _ & Ha0 & _ & Ha' & _ & Hma & _
          & Hxp & _).
    exists db', a'. split; [now rewrite Hrun|]. split; [exact Ha'|].
    vm_compute in Ha0. injection Ha0 as <-. split; [exact Hma|exact Hxp].
  - rewrite (Hcount "alice" "bob" history db Hrow), Htalks. reflexivity.
Defined.

(** The first talk in the opposite direction is a first meeting of its own
    ordered pair: after Alice has talked to Bob and Bob has talked to
    Alice, each of them holds the same first-meeting moment twice. *)
Example both_directions_record_the_meeting_twice :
  let hello id := Submit (Meadow.submit id "talk" None None (Some "hello"%string)) in
  let db := run [hello "alice"; Tick 0; hello "bob"]%string (Meadow.neighbours 100 None) in
  (map m_moment <$> (moments_of <$> find_character db "alice"))
  = Some ["Met bob for the first time"; "Met bob for the first time"]%string
  /\ (map m_moment <$> (moments_of <$> find_character db "bob"))
     = Some ["Met alice for the first time"; "Met alice for the first time"]%string.
Proof. vm_compute. split; reflexivity. Qed.

End MeetingClaims.

(** ** The examine action in the two variants *)

Module ExamineClaims.
Import Leveling Text Store Core Effects StoreFacts History.

(** What the code does on examine: the two variants handle it in the
    same way.  A successful examine, in either variant, answers with the
    object and its description, leaves the XP of every character, and
    leaves the store as it was but for one activity log entry and the
    stamp of the turn gate. *)
Lemma examine_effects_in_both_variants (db : DB) (rq : Request) (me : Character)
    (o : WorldObject)
    (Hauth : authenticate db (rq_charId rq) (rq_token rq) = Some me)
    (Hturn : canAct db (rq_charId rq) = true)
    (Hact : rq_action rq = "examine"%string)
    (Hseen : examine_query db (rq_target rq) (c_x me) (c_y me) = Some o) :
  let entry :=
    {| a_tick := w_tick (world db); a_character_id := Some (rq_charId rq);
       a_action := "examine";
       a_message := (c_name me ++ " examines the " ++ o_name o)%string |} in
  let db' :=
    update_character (rq_charId rq) (set_last_action_tick (w_tick (world db)))
      (insert_log entry db) in
  Rich.handle_action rq db = (db', Accepted (Examined o (o_description o)))
  /\ Simple.handle_action rq db = (db', Accepted (Examined o (o_description o)))
  /\ (forall id, xp_of db' id = xp_of db id)
  /\ activity_log db' = activity_log db ++ [entry]
  /\ world db' = world db /\ objects db' = objects db
  /\ relationships db' = relationships db /\ memories db' = memories db
  /\ conversations db' = conversations db /\ sent db' = sent db.
Proof.
  intros entry db'.
  split; [|split].
  - unfold Rich.handle_action, Rich.dispatch. rewrite Hauth, Hturn, Hact. cbn [negb].
    change ("examine" =? "move")%string with false.
    change ("examine" =? "talk")%string with false.
    change ("examine" =? "examine")%string with true. cbv iota.
    unfold Rich.examine_case. rewrite Hseen. reflexivity.
  - unfold Simple.handle_action, Simple.dispatch. rewrite Hauth, Hturn, Hact. cbn [negb].
    change ("examine" =? "move")%string with false.
    change ("examine" =? "talk")%string with false.
    change ("examine" =? "examine")%string with true. cbv iota.
    unfold Simple.examine_case. rewrite Hseen. reflexivity.
  - split; [|now repeat split].
    intros id. unfold xp_of, db'. find_update.
    destruct (find_character db id) as [c|]; [|reflexivity].
    cbn. now destruct (id =? rq_charId rq)%string.
Qed.

Lemma examine_effects_in_both_variants_witness :
  let alice := Meadow.newcomer "alice" 9 7 in
  let db := Meadow.meadow 5 [alice] in
  let rq := Meadow.submit "alice" "examine" None (Some "POND"%string) None in
  authenticate db (rq_charId rq) (rq_token rq) = Some alice
  /\ canAct db (rq_charId rq) = true
  /\ examine_query db (rq_target rq) (c_x alice) (c_y alice) = Some Meadow.pond
  /\ exists db',
       Rich.handle_action rq db
       = (db', Accepted (Examined Meadow.pond (o_description Meadow.pond)))
       /\ Simple.handle_action rq db
          = (db', Accepted (Examined Meadow.pond (o_description Meadow.pond)))
       /\ xp_of db' "alice" = xp_of db "alice".
Proof.
  intros alice db rq.
  destruct (examine_effects_in_both_variants db rq alice Meadow.pond
              eq_refl eq_refl eq_refl eq_refl) as (Hrich & Hsimple & Hxp & _).
  repeat split. eexists. split; [exact Hrich|]. split; [exact Hsimple|apply Hxp].
Defined.

(** C9, on the code.  The claim has the simpler variant award a small XP
    amount for a successful examine.  The table of rewards of both
    servers has the entry 2 for examine, as it has entries for move, talk
    and interact, which their cases pay through [awardXp]; the examine
    case of neither server calls [awardXp].  The simpler server accepts
    the examine below, answers with the description, and leaves the XP of
    the character at 0, as the richer server does. *)
Theorem simple_examine_awards_no_xp :
  let db := Meadow.meadow 5 [Meadow.newcomer "alice" 9 7] in
  let rq := Meadow.submit "alice" "examine" None (Some "pond"%string) None in
  XP_examine = 2
  /\ snd (Simple.handle_action rq db)
     = Accepted (Examined Meadow.pond (o_description Meadow.pond))
  /\ xp_of db "alice" = 0
  /\ xp_of (fst (Simple.handle_action rq db)) "alice" = 0
  /\ xp_of (fst (Simple.handle_action rq db)) "alice"
     = xp_of (fst (Rich.handle_action rq db)) "alice".
Proof. vm_compute. repeat split. Qed.

End ExamineClaims.

(* ================================================================== *)
(** * Part III: further properties of the code *)
(* ================================================================== *)

Module ThresholdFacts.
Import Leveling Thresholds LevelingFacts.

Lemma loop_after_acc (k : nat) : ls_xpAccumulated (loop_after k) = xp_sum k.
Proof.
  induction k as [|k IH]; [reflexivity|].
  destruct (loop_after_step k) as [Hstep _].
  rewrite Hstep, IH, loop_after_level. cbn [xp_sum].
  do 2 f_equal. lia.
Qed.

Lemma xp_sum_step (k : nat) : xp_sum k + 100 <= xp_sum (S k).
Proof.
  cbn [xp_sum]. pose proof (xpForLevel_ge_100 (Z.of_nat (S k))). lia.
Qed.

Lemma xp_sum_mono (i j : nat) : (i <= j)%nat -> xp_sum i <= xp_sum j.
Proof.
  induction 1 as [|j Hle IH]; [lia|].
  pose proof (xp_sum_step j). lia.
Qed.

Lemma xp_sum_nonneg (k : nat) : 0 <= xp_sum k.
Proof. apply (xp_sum_mono 0 k). lia. Qed.

(** A total lies in the band of one level only. *)
Lemma xp_sum_band_unique (i j : nat) (t : Z) :
  xp_sum i <= t < xp_sum (S i) -> xp_sum j <= t < xp_sum (S j) -> i = j.
Proof.
  intros Hi Hj.
  destruct (Nat.lt_trichotomy i j) as [Hlt | [Heq | Hgt]]; [|exact Heq|].
  - pose proof (xp_sum_mono (S i) j Hlt). lia.
  - pose proof (xp_sum_mono (S j) i Hgt). lia.
Qed.

(** The loop of [calculateLevel] stops after the number of bodies that
    puts the total in the band of the level reached. *)
Lemma calculateLevel_band (total : Z) :
  0 <= total ->
  exists n : nat,
    calculateLevel total = level_info_of total (loop_after n)
    /\ xp_sum n <= total < xp_sum (S n).
Proof.
  intros Hnn.
  destruct (while_loop_iter (loop_fuel total) total loop_init)
    as (n & _ & Heq & Htrue & _).
  pose proof (while_loop_exits total (loop_fuel total) (le_n _)) as Hexit.
  rewrite Heq in Hexit. fold (loop_after n) in Hexit.
  exists n. split.
  - unfold calculateLevel. rewrite Heq. reflexivity.
  - split.
    + destruct n as [|m]; [cbn; lia|].
      specialize (Htrue m (Nat.lt_succ_diag_r m)). fold (loop_after m) in Htrue.
      unfold loop_cond in Htrue. apply Z.leb_le in Htrue.
      rewrite loop_after_needed, loop_after_acc, loop_after_level in Htrue.
      cbn [xp_sum]. replace (Z.of_nat (S m)) with (1 + Z.of_nat m) by lia. exact Htrue.
    + unfold loop_cond in Hexit. apply Z.leb_gt in Hexit.
      rewrite loop_after_needed, loop_after_acc, loop_after_level in Hexit.
      cbn [xp_sum]. replace (Z.of_nat (S n)) with (1 + Z.of_nat n) by lia. lia.
Qed.

End ThresholdFacts.

Module ThresholdProperties.
Import Leveling Thresholds LevelingFacts ThresholdFacts.

(** X1.  For a total that is not negative, [calculateLevel] answers a level
    of at least 1, the requirement [xpForLevel] of that level, and a
    progress inside the level that is not negative and below the
    requirement; the total is the threshold of the level plus the
    progress. *)
Theorem calculateLevel_decomposes (total : Z) (Hnn : 0 <= total) :
  let info := calculateLevel total in
  1 <= level info
  /\ xpToNextLevel info = xpForLevel (level info)
  /\ 0 <= currentLevelXp info < xpToNextLevel info
  /\ xp_to_reach (level info) + currentLevelXp info = total
  /\ totalXp info = total.
Proof.
  destruct (calculateLevel_band total Hnn) as (n & Heq & Hlo & Hhi).
  cbv zeta. rewrite Heq. unfold level_info_of, xp_to_reach.
  cbn [level xpToNextLevel currentLevelXp totalXp].
  rewrite loop_after_needed, loop_after_acc, loop_after_level.
  replace (Z.to_nat (1 + Z.of_nat n - 1)) with n by lia.
  cbn [xp_sum] in Hhi. replace (Z.of_nat (S n)) with (1 + Z.of_nat n) in Hhi by lia.
  repeat split; lia.
Qed.

Lemma calculateLevel_decomposes_witness :
  0 <= 250
  /\ let info := calculateLevel 250 in
     1 <= level info
     /\ xpToNextLevel info = xpForLevel (level info)
     /\ 0 <= currentLevelXp info < xpToNextLevel info
     /\ xp_to_reach (level info) + currentLevelXp info = 250
     /\ totalXp info = 250.
Proof.
  split; [lia | apply (calculateLevel_decomposes 250); lia].
Defined.

(** X2.  [calculateLevel] inverts the thresholds: at the threshold of a
    level plus a progress below the requirement of that level it answers
    that level and that progress. *)
Theorem calculateLevel_inverts_thresholds (lvl progress : Z)
    (Hlvl : 1 <= lvl) (Hprogress : 0 <= progress < xpForLevel lvl) :
  calculateLevel (xp_to_reach lvl + progress)
  = {| level := lvl; currentLevelXp := progress; xpToNextLevel := xpForLevel lvl;
       totalXp := xp_to_reach lvl + progress |}.
Proof.
  set (total := xp_to_reach lvl + progress).
  assert (Hband : xp_sum (Z.to_nat (lvl - 1)) <= total < xp_sum (S (Z.to_nat (lvl - 1)))).
  { subst total. unfold xp_to_reach. cbn [xp_sum].
    replace (Z.of_nat (S (Z.to_nat (lvl - 1)))) with lvl by lia. lia. }
  assert (Hnn : 0 <= total).
  { pose proof (xp_sum_nonneg (Z.to_nat (lvl - 1))). lia. }
  destruct (calculateLevel_band total Hnn) as (n & Heq & Hn).
  assert (n = Z.to_nat (lvl - 1)) as -> by (eapply xp_sum_band_unique; eassumption).
  rewrite Heq. unfold level_info_of.
  rewrite loop_after_needed, loop_after_acc, loop_after_level.
  replace (1 + Z.of_nat (Z.to_nat (lvl - 1))) with lvl by lia.
  f_equal. subst total. unfold xp_to_reach. lia.
Qed.

Lemma calculateLevel_inverts_thresholds_witness :
  1 <= 3 /\ 0 <= 40 < xpForLevel 3
  /\ calculateLevel (xp_to_reach 3 + 40)
     = {| level := 3; currentLevelXp := 40; xpToNextLevel := xpForLevel 3;
          totalXp := xp_to_reach 3 + 40 |}.
Proof.
  split; [lia|]. split; [vm_compute; split; [discriminate | reflexivity]|].
  apply (calculateLevel_inverts_thresholds 3 40); [lia|].
  vm_compute; split; [discriminate | reflexivity].
Defined.

End ThresholdProperties.

Module AwardProperties.
Import Leveling Text Store Core Effects StoreFacts.

(** X3.  [awardXp] on a known character writes the new XP, the level
    [calculateLevel] gives for it and the hit-point cap of that level.
    When the level rises above the stored one the character is healed to
    the new cap, one [level_up] entry is logged and one event is
    broadcast; otherwise hit points, log and broadcasts stay as they are.
    An unknown character leaves the store as it is and gives [null]. *)
Theorem awardXp_effects (id : string) (amount : Z) (db : DB) :
  match find_character db id with
  | None => awardXp id amount db = (db, None)
  | Some me =>
      let info := calculateLevel (c_xp me + amount) in
      let db' := fst (awardXp id amount db) in
      exists c',
        find_character db' id = Some c'
        /\ c_xp c' = c_xp me + amount
        /\ c_level c' = level info
        /\ c_max_hp c' = maxHpForLevel (level info)
        /\ (c_level me < level info ->
            c_hp c' = c_max_hp c'
            /\ snd (awardXp id amount db) = Some (XpLeveledUp (level info) amount)
            /\ activity_log db'
               = activity_log db
                 ++ [{| a_tick := w_tick (world db); a_character_id := Some id;
                        a_action := "level_up";
                        a_message := (c_name me ++ " leveled up to "
                                      ++ string_of_Z (level info) ++ "!")%string |}]
            /\ sent db'
               = sent db ++ [BLevelUp id (c_name me) (level info)
                               (maxHpForLevel (level info))])
        /\ (level info <= c_level me ->
            c_hp c' = c_hp me
            /\ snd (awardXp id amount db) = Some (XpGained amount info)
            /\ activity_log db' = activity_log db
            /\ sent db' = sent db)
  end.
Proof.
  destruct (find_character db id) as [me|] eqn:Hme.
  - cbv zeta. exists (award_row me amount me).
    split; [|split; [|split; [|split; [|split]]]].
    + rewrite (find_character_awardXp id id amount db me Hme), Hme. cbn.
      rewrite String.eqb_refl. reflexivity.
    + unfold award_row. destruct (_ <? _); reflexivity.
    + unfold award_row. destruct (_ <? _); reflexivity.
    + unfold award_row. destruct (_ <? _); reflexivity.
    + intros Hup. apply Z.ltb_lt in Hup.
      unfold award_row, awardXp. rewrite Hme. cbv zeta. rewrite Hup.
      repeat split; reflexivity.
    + intros Hsame. apply Z.ltb_ge in Hsame.
      unfold award_row, awardXp. rewrite Hme. cbv zeta. rewrite Hsame.
      repeat split; reflexivity.
  - unfold awardXp. rewrite Hme. reflexivity.
Qed.

End AwardProperties.

Module RejectionProperties.
Import Leveling Text Store Core StoreFacts ListenerClaims.

Ltac split_branches :=
  repeat match goal with
         | |- context [match ?x with _ => _ end] => destruct x
         end.

Lemma rich_dispatch_rejected (db : DB) (me : Character) (rq : Request) (r : Rejection) :
  snd (Rich.dispatch db me rq) = Rejected r -> fst (Rich.dispatch db me rq) = db.
Proof.
  unfold Rich.dispatch.
  destruct (rq_action rq =? "move")%string.
  { unfold Rich.move_case. split_branches; cbn; intros; try reflexivity; discriminate. }
  destruct (rq_action rq =? "talk")%string.
  { unfold Rich.talk_case.
    destruct (rq_message rq) as [message|]; [|reflexivity].
    destruct (message =? "")%string; [reflexivity|].
    destruct (_ <? Rich.energyCost); [reflexivity|].
    destruct (nearby_listener _ _ _ _) as [l|]; [|reflexivity].
    destruct (Rich.on_cooldown _ _ _); [reflexivity|].
    destruct (rich_talk_commit_accepted db me l (rq_charId rq) message)
      as (db' & msg & xp & energy & warning & cooldownIn & Heq).
    rewrite Heq. discriminate. }
  destruct (rq_action rq =? "examine")%string.
  { unfold Rich.examine_case. split_branches; cbn; intros; try reflexivity; discriminate. }
  destruct (rq_action rq =? "interact")%string.
  { unfold Rich.interact_case. split_branches; cbn; intros; try reflexivity; discriminate. }
  reflexivity.
Qed.

Lemma simple_dispatch_rejected (db : DB) (me : Character) (rq : Request) (r : Rejection) :
  snd (Simple.dispatch db me rq) = Rejected r -> fst (Simple.dispatch db me rq) = db.
Proof.
  unfold Simple.dispatch.
  destruct (rq_action rq =? "move")%string.
  { unfold Simple.move_case. split_branches; cbn; intros; try reflexivity; discriminate. }
  destruct (rq_action rq =? "talk")%string.
  { unfold Simple.talk_case.
    destruct (rq_message rq) as [message|]; [|reflexivity].
    destruct (message =? "")%string; [reflexivity|].
    destruct (nearby_listener _ _ _ _) as [l|]; [|reflexivity].
    destruct (simple_talk_commit_accepted db me l (rq_charId rq) message)
      as (db' & msg & xp & Heq).
    rewrite Heq. discriminate. }
  destruct (rq_action rq =? "examine")%string.
  { unfold Simple.examine_case. split_branches; cbn; intros; try reflexivity; discriminate. }
  destruct (rq_action rq =? "interact")%string.
  { unfold Simple.interact_case. split_branches; cbn; intros; try reflexivity; discriminate. }
  reflexivity.
Qed.

(** X4.  A submission either variant of the server answers with an error
    leaves the whole store as it was: no row, log entry or broadcast is
    written before a rejection. *)
Theorem rejection_leaves_store (rq : Request) (db : DB) (r : Rejection) :
  (snd (Rich.handle_action rq db) = Rejected r -> fst (Rich.handle_action rq db) = db)
  /\ (snd (Simple.handle_action rq db) = Rejected r
      -> fst (Simple.handle_action rq db) = db).
Proof.
  split.
  - unfold Rich.handle_action.
    destruct (authenticate _ _ _) as [me|]; [|reflexivity].
    destruct (negb _); [reflexivity|].
    pose proof (rich_dispatch_rejected db me rq) as Hd.
    destruct (Rich.dispatch db me rq) as [db' [r'|a]]; cbn in *.
    + intros _. apply (Hd r'). reflexivity.
    + discriminate.
  - unfold Simple.handle_action.
    destruct (authenticate _ _ _) as [me|]; [|reflexivity].
    destruct (negb _); [reflexivity|].
    pose proof (simple_dispatch_rejected db me rq) as Hd.
    destruct (Simple.dispatch db me rq) as [db' [r'|a]]; cbn in *.
    + intros _. apply (Hd r'). reflexivity.
    + discriminate.
Qed.

End RejectionProperties.

Module EvolutionFacts.
Import Leveling Text Store Core Effects Invariants StoreFacts StoryClaims ClockClaims
       TalkFacts History.

(** With unique ids the row of the token check is the row found by id. *)
Lemma authenticate_unique (db : DB) (id : string) (token : option string)
    (me : Character) :
  unique_ids db -> authenticate db id token = Some me ->
  find_character db id = Some me.
Proof.
  unfold unique_ids, authenticate, find_character.
  destruct token as [t|]; [|discriminate].
  induction (characters db) as [|c l IH]; cbn; [discriminate|].
  intros Hnd. inversion Hnd as [|x l' Hnotin Hnd']; subst.
  destruct (c_id c =? id)%string eqn:Hid; cbn.
  - destruct (c_token c =? t)%string; [easy|].
    intros Hfind. exfalso. apply find_some in Hfind as [Hin Hc].
    apply andb_prop in Hc as [Hc _]. apply String.eqb_eq in Hc, Hid.
    apply Hnotin, list_elem_of_In. rewrite Hid, <- Hc. now apply in_map.
  - now apply IH.
Qed.

Lemma map_ids_update (id : string) (f : Character -> Character) (l : list Character) :
  (forall c, c_id (f c) = c_id c) ->
  map c_id (map (fun c => if (c_id c =? id)%string then f c else c) l) = map c_id l.
Proof.
  intros Hid. rewrite List.map_map. apply List.map_ext. intros c.
  destruct (_ =? _)%string; [apply Hid | reflexivity].
Qed.

Lemma blocking_at_free (db : DB) (x y : Z) :
  blocking_at db x y = None ->
  forall o, In o (objects db) -> o_x o = x -> o_y o = y -> o_blocking o = false.
Proof.
  intros Hnone o Hin Hx Hy. unfold blocking_at in Hnone.
  pose proof (find_none _ _ Hnone o Hin) as Hf. cbn in Hf.
  rewrite Hx, Hy, !Z.eqb_refl in Hf. exact Hf.
Qed.

Lemma dirs_unit (key : string) (dx dy : Z) :
  dirs key = Some (dx, dy) -> Z.abs dx + Z.abs dy = 1.
Proof.
  unfold dirs.
  repeat match goal with
         | |- context [if ?b then _ else _] => destruct b
         end; intros [= <- <-] || discriminate; reflexivity.
Qed.

Lemma worldTick_static (pick : nat) (db : DB) :
  w_width (world (Rich.worldTick pick db)) = w_width (world db)
  /\ w_height (world (Rich.worldTick pick db)) = w_height (world db)
  /\ objects (Rich.worldTick pick db) = objects db.
Proof.
  unfold Rich.worldTick.
  repeat match goal with
         | |- context [if ?b then _ else _] => destruct b
         end; repeat split; reflexivity.
Qed.

Lemma worldTick_ids (pick : nat) (db : DB) :
  map c_id (characters (Rich.worldTick pick db)) = map c_id (characters db).
Proof.
  rewrite worldTick_characters. destruct (_ =? 0); [|reflexivity].
  rewrite List.map_map. apply List.map_ext. intros c. unfold Rich.regen_row.
  destruct (_ <? _); reflexivity.
Qed.

Section Evolution.

Variable R : Character -> Character -> Prop.
Hypothesis R_refl : forall c, R c c.
Hypothesis R_trans : forall a b c, R a b -> R b c -> R a c.

Lemma evolves_refl (db : DB) : evolves R db db.
Proof. intros id c Hc. exists c. split; [exact Hc | apply R_refl]. Qed.

Lemma evolves_trans (db1 db2 db3 : DB) :
  evolves R db1 db2 -> evolves R db2 db3 -> evolves R db1 db3.
Proof.
  intros He1 He2 id c Hc.
  destruct (He1 id c Hc) as (c1 & Hc1 & HR1).
  destruct (He2 id c1 Hc1) as (c2 & Hc2 & HR2).
  exists c2. split; [exact Hc2 | eapply R_trans; eassumption].
Qed.

Lemma advances_refl (db : DB) : advances R db db.
Proof. split; [|split; [|split]]; try reflexivity. apply evolves_refl. Qed.

Lemma advances_trans (db1 db2 db3 : DB) :
  advances R db1 db2 -> advances R db2 db3 -> advances R db1 db3.
Proof.
  intros (Hw1 & Ho1 & Hi1 & He1) (Hw2 & Ho2 & Hi2 & He2).
  split; [congruence|]. split; [congruence|]. split; [congruence|].
  eapply evolves_trans; eassumption.
Qed.

(** An operation that leaves the world row, the objects and the
    characters. *)
Lemma advances_rows (db db' : DB) :
  world db' = world db -> objects db' = objects db ->
  characters db' = characters db -> advances R db db'.
Proof.
  intros Hw Ho Hc. split; [exact Hw|]. split; [exact Ho|].
  split; [now rewrite Hc|].
  intros id c Hfind. exists c. split; [|apply R_refl].
  unfold find_character in *. now rewrite Hc.
Qed.

Lemma advances_update (id : string) (f : Character -> Character) (db : DB) :
  (forall c, c_id (f c) = c_id c) ->
  (forall c, find_character db id = Some c -> R c (f c)) ->
  advances R db (update_character id f db).
Proof.
  intros Hid HR. split; [reflexivity|]. split; [reflexivity|]. split.
  - cbn. now apply map_ids_update.
  - intros id' c Hc. rewrite (find_character_update id id' f db Hid), Hc. cbn.
    destruct (id' =? id)%string eqn:E.
    + apply String.eqb_eq in E. subst id'. exists (f c).
      split; [reflexivity | now apply HR].
    + exists c. split; [reflexivity | apply R_refl].
Qed.

Lemma advances_awardXp (id : string) (amount : Z) (db : DB) :
  (forall me, find_character db id = Some me -> R me (award_row me amount me)) ->
  advances R db (fst (awardXp id amount db)).
Proof.
  intros HR. destruct (awardXp_frame id amount db) as (Hw & Ho & _).
  split; [exact Hw|]. split; [exact Ho|].
  destruct (find_character db id) as [me|] eqn:Hme.
  - split.
    + rewrite (awardXp_characters id amount db me Hme). apply map_ids_update.
      intros c. unfold award_row. destruct (_ <? _); reflexivity.
    + intros id' c Hc.
      rewrite (find_character_awardXp id id' amount db me Hme), Hc. cbn.
      destruct (id' =? id)%string eqn:E.
      * apply String.eqb_eq in E. subst id'.
        assert (c = me) by congruence. subst c.
        exists (award_row me amount me). split; [reflexivity | now apply HR].
      * exists c. split; [reflexivity | apply R_refl].
  - unfold awardXp. rewrite Hme. cbn. split; [reflexivity | apply evolves_refl].
Qed.

Lemma advances_addSignificantMoment (id moment category : string) (db : DB) :
  (forall me, find_character db id = Some me ->
     let m := {| m_tick := w_tick (world db); m_category := category;
                 m_moment := moment |} in
     R me (set_story (push_moment m (moments_of me))
             (next_life_story (w_tick (world db)) (push_moment m (moments_of me))
                (life_story_of me)) me)) ->
  advances R db (addSignificantMoment id moment category db).
Proof.
  intros HR. unfold addSignificantMoment.
  destruct (find_character db id) as [me|] eqn:Hme; [|apply advances_refl].
  apply advances_update; [intros; reflexivity|].
  intros c Hc. assert (c = me) by congruence. subst c. now apply HR.
Qed.

(** The size of the world and the blocking objects the moves are checked
    against, and the closure of [R] under the row updates of the server. *)
Variables (width height : Z) (objs : list WorldObject).

Hypothesis R_move : forall c x y,
  free_tile width height objs x y ->
  Z.abs (x - c_x c) + Z.abs (y - c_y c) = 1 ->
  R c (set_position x y c).
Hypothesis R_award : forall c amount, 0 < amount -> R c (award_row c amount c).
Hypothesis R_story : forall c m,
  R c (set_story (push_moment m (moments_of c))
         (next_life_story (m_tick m) (push_moment m (moments_of c)) (life_story_of c))
         c).
Hypothesis R_tired : forall c,
  Rich.energyCost <= or_default (c_energy c) 100 -> R c (tired c).
Hypothesis R_rest : forall c r,
  r = 30 \/ r = 50 ->
  R c (set_energy (fun c => Z.min (coalesce (c_max_energy c) 100)
                              (coalesce (c_energy c) 0 + r)) c).
Hypothesis R_regen : forall c,
  R c (set_energy (fun c => Z.min (coalesce (c_max_energy c) 100)
                              (coalesce (c_energy c) 100 + 5)) c).
Hypothesis R_stamp : forall c t, R c (set_last_action_tick t c).

(** One operation off the outside of the store expression. *)
Ltac peel :=
  lazymatch goal with
  | |- advances _ ?d (insert_log _ ?x) =>
      apply (advances_trans d x); [|apply advances_rows; reflexivity]
  | |- advances _ ?d (broadcast _ ?x) =>
      apply (advances_trans d x); [|apply advances_rows; reflexivity]
  | |- advances _ ?d (insert_memory _ ?x) =>
      apply (advances_trans d x); [|apply advances_rows; reflexivity]
  | |- advances _ ?d (insert_conversation _ ?x) =>
      apply (advances_trans d x); [|apply advances_rows; reflexivity]
  | |- advances _ ?d (Rich.upsert_relationship _ _ _ _ _ ?x) =>
      apply (advances_trans d x); [|apply advances_rows; reflexivity]
  | |- advances _ ?d (fst (awardXp _ _ ?x)) =>
      apply (advances_trans d x);
      [|apply advances_awardXp; intros; apply R_award; try reflexivity; try lia]
  | |- advances _ ?d (addSignificantMoment _ _ _ ?x) =>
      apply (advances_trans d x);
      [|apply advances_addSignificantMoment; intros me' _; cbv zeta;
        apply (R_story me' {| m_tick := w_tick (world x); m_category := _;
                              m_moment := _ |})]
  end.

Lemma move_case_advances (db : DB) (me : Character) (rq : Request) :
  find_character db (rq_charId rq) = Some me ->
  w_width (world db) = width -> w_height (world db) = height -> objects db = objs ->
  advances R db (fst (Rich.move_case db me rq)).
Proof.
  intros Hme Hw Hh Ho. unfold Rich.move_case.
  destruct (rq_direction rq) as [direction|]; [|apply advances_refl].
  destruct (dirs _) as [[dx dy]|] eqn:Hd;
    [|destruct (inherited_key _); apply advances_refl].
  destruct (_ || _) eqn:Hb; [apply advances_refl|].
  destruct (blocking_at _ _ _) eqn:Hblk; [apply advances_refl|].
  cbn [fst]. do 3 peel.
  apply advances_update; [intros; reflexivity|].
  intros c Hc. assert (c = me) by congruence. subst c.
  apply R_move.
  - repeat (apply Bool.orb_false_elim in Hb as [Hb ?]).
    rewrite <- Hw, <- Hh, <- Ho.
    split; [lia|]. split; [lia|]. now apply blocking_at_free.
  - apply dirs_unit in Hd. replace (c_x me + dx - c_x me) with dx by lia.
    replace (c_y me + dy - c_y me) with dy by lia. exact Hd.
Qed.

Lemma talk_commit_advances (db : DB) (me l : Character) (a message : string) :
  find_character db a = Some me ->
  Rich.energyCost <= or_default (c_energy me) 100 ->
  advances R db (fst (Rich.talk_commit db me l a message)).
Proof.
  intros Hme Henergy. unfold Rich.talk_commit. cbv zeta.
  cbn [relationships insert_memory insert_conversation update_character
       set_characters].
  name_award a.
  assert (H6 : advances R db db6).
  { subst db6.
    destruct (relationships db !! (a, c_id l)); repeat peel;
      (apply advances_update; [intros; reflexivity|]);
      intros c Hc; (assert (c = me) by congruence); subst c;
      now apply R_tired. }
  destruct (0 <? _) eqn:Hpos; cbn [fst]; do 2 peel; [|exact H6].
  subst db7. apply (advances_trans db db6); [exact H6|].
  apply advances_awardXp. intros. apply R_award. now apply Z.ltb_lt.
Qed.

Lemma talk_case_advances (db : DB) (me : Character) (rq : Request) :
  find_character db (rq_charId rq) = Some me ->
  advances R db (fst (Rich.talk_case db me rq)).
Proof.
  intros Hme. unfold Rich.talk_case. cbv zeta.
  destruct (rq_message rq) as [message|]; [|apply advances_refl].
  destruct (message =? "")%string; [apply advances_refl|].
  destruct (or_default (c_energy me) 100 <? Rich.energyCost) eqn:He;
    [apply advances_refl|].
  destruct (nearby_listener _ _ _ _) as [l|]; [|apply advances_refl].
  destruct (Rich.on_cooldown _ _ _); [apply advances_refl|].
  apply talk_commit_advances; [exact Hme | now apply Z.ltb_ge].
Qed.

Lemma examine_case_advances (db : DB) (me : Character) (rq : Request) :
  advances R db (fst (Rich.examine_case db me rq)).
Proof.
  unfold Rich.examine_case.
  destruct (examine_query _ _ _ _); [|apply advances_refl].
  cbn [fst]. peel. apply advances_refl.
Qed.

Lemma interact_case_advances (db : DB) (me : Character) (rq : Request) :
  advances R db (fst (Rich.interact_case db me rq)).
Proof.
  unfold Rich.interact_case. cbv zeta.
  destruct (interact_query _ _ _ _) as [o|]; [|apply advances_refl].
  destruct (_ || _).
  - match goal with
    | |- context [awardXp ?i ?r ?d] =>
        destruct (awardXp i r d) as [db4 xp] eqn:Haward;
        apply awardXp_fst_eq in Haward; subst db4
    end.
    cbn [fst]. do 3 peel.
    apply advances_update; [intros; reflexivity|].
    intros c _. apply R_rest. destruct (includes _ "cottage"); auto.
  - match goal with
    | |- context [awardXp ?i ?r ?d] =>
        destruct (awardXp i r d) as [db1 xp] eqn:Haward;
        apply awardXp_fst_eq in Haward; subst db1
    end.
    cbn [fst]. do 3 peel. apply advances_refl.
Qed.

Lemma dispatch_advances (db : DB) (me : Character) (rq : Request) :
  find_character db (rq_charId rq) = Some me ->
  w_width (world db) = width -> w_height (world db) = height -> objects db = objs ->
  advances R db (fst (Rich.dispatch db me rq)).
Proof.
  intros Hme Hw Hh Ho. unfold Rich.dispatch.
  destruct (_ =? "move")%string; [now apply move_case_advances|].
  destruct (_ =? "talk")%string; [now apply talk_case_advances|].
  destruct (_ =? "examine")%string; [apply examine_case_advances|].
  destruct (_ =? "interact")%string; [apply interact_case_advances|].
  apply advances_refl.
Qed.

Lemma handle_action_advances (rq : Request) (db : DB) :
  unique_ids db ->
  w_width (world db) = width -> w_height (world db) = height -> objects db = objs ->
  advances R db (fst (Rich.handle_action rq db)).
Proof.
  intros Hkey Hw Hh Ho. unfold Rich.handle_action.
  destruct (authenticate _ _ _) as [me|] eqn:Hauth; [|apply advances_refl].
  destruct (negb _); [apply advances_refl|].
  pose proof (dispatch_advances db me rq
                (authenticate_unique _ _ _ _ Hkey Hauth) Hw Hh Ho) as Hd.
  destruct (Rich.dispatch db me rq) as [db' [r|result]]; cbn [fst] in *; [exact Hd|].
  apply (advances_trans db db'); [exact Hd|].
  unfold updateLastAction. apply advances_update; [intros; reflexivity|].
  intros. apply R_stamp.
Qed.

Lemma worldTick_evolves (pick : nat) (db : DB) : evolves R db (Rich.worldTick pick db).
Proof.
  intros id c Hc. unfold find_character in *. rewrite worldTick_characters.
  destruct (_ =? 0); [|exists c; split; [exact Hc | apply R_refl]].
  rewrite find_map_same_id, Hc.
  - exists (Rich.regen_row (w_tick (world db) + 1) c). split; [reflexivity|].
    unfold Rich.regen_row. destruct (_ <? _); [apply R_regen | apply R_refl].
  - intros c0. unfold Rich.regen_row. destruct (_ <? _); reflexivity.
Qed.

(** What is constant along a history, and what evolves. *)
Lemma run_evolves (steps : list Step) (db : DB) :
  unique_ids db ->
  w_width (world db) = width -> w_height (world db) = height -> objects db = objs ->
  unique_ids (run steps db)
  /\ w_width (world (run steps db)) = width
  /\ w_height (world (run steps db)) = height
  /\ objects (run steps db) = objs
  /\ evolves R db (run steps db).
Proof.
  revert db. induction steps as [|s steps IH]; intros db Hkey Hw Hh Ho.
  - cbn. repeat split; try assumption. apply evolves_refl.
  - assert (Hstep : unique_ids (fst (step s db))
                    /\ w_width (world (fst (step s db))) = width
                    /\ w_height (world (fst (step s db))) = height
                    /\ objects (fst (step s db)) = objs
                    /\ evolves R db (fst (step s db))).
    { destruct s as [rq|pick].
      - rewrite HistoryFacts.step_submit_fst.
        destruct (handle_action_advances rq db Hkey Hw Hh Ho) as (Hw' & Ho' & Hi' & He').
        unfold unique_ids. rewrite Hi', Hw', Ho'. repeat split; assumption.
      - cbn [step fst].
        destruct (worldTick_static pick db) as (Hw' & Hh' & Ho').
        unfold unique_ids. rewrite worldTick_ids, Hw', Hh', Ho'.
        repeat split; try assumption. apply worldTick_evolves. }
    destruct Hstep as (Hkey1 & Hw1 & Hh1 & Ho1 & He1).
    destruct (IH _ Hkey1 Hw1 Hh1 Ho1) as (Hkey2 & Hw2 & Hh2 & Ho2 & He2).
    change (run (s :: steps) db) with (run steps (fst (step s db))).
    repeat split; try assumption. eapply evolves_trans; eassumption.
Qed.

End Evolution.

End EvolutionFacts.

Module HistoryProperties.
Import Leveling Text Store Core Effects Invariants StoreFacts StoryClaims
       LevelingFacts EvolutionFacts History.

Ltac unchanged_row :=
  intros; unfold award_row, tired; cbv zeta;
  repeat match goal with
         | |- context [if ?b then _ else _] => destruct b
         end; cbn; auto.

Lemma neighbours_unique_ids (tick : Z) (r : option Relationship) :
  unique_ids (Meadow.neighbours tick r).
Proof.
  unfold unique_ids.
  destruct r; cbn;
    (apply NoDup_cons_2; [|apply NoDup_singleton]);
    intros Hin; apply list_elem_of_In in Hin; cbn in Hin; intuition discriminate.
Qed.

Lemma same_identity_closed :
  (forall c, same_identity c c)
  /\ (forall a b c, same_identity a b -> same_identity b c -> same_identity a c).
Proof.
  unfold same_identity. split; [tauto|]. intros a b c. intuition congruence.
Qed.

(** X5.  Along every history of submissions and ticks of the richer
    server, from a store with unique character ids: the ids stay unique,
    the size of the world and the objects stay as they are, and every
    character keeps its id, token, name, turn interval, active flag and
    energy cap. *)
Theorem identity_never_changes (steps : list Step) (db : DB)
    (Hkey : unique_ids db) :
  unique_ids (run steps db)
  /\ w_width (world (run steps db)) = w_width (world db)
  /\ w_height (world (run steps db)) = w_height (world db)
  /\ objects (run steps db) = objects db
  /\ forall id c, find_character db id = Some c ->
       exists c', find_character (run steps db) id = Some c' /\ same_identity c c'.
Proof.
  destruct same_identity_closed as [Hrefl Htrans].
  apply (run_evolves same_identity Hrefl Htrans) with (width := w_width (world db))
    (height := w_height (world db)) (objs := objects db);
    try reflexivity; try exact Hkey; unfold same_identity; unchanged_row; tauto.
Qed.

Lemma identity_never_changes_witness :
  let db := Meadow.neighbours 100 None in
  let steps :=
    [Submit (Meadow.submit "alice" "talk" None None (Some "hello"%string)); Tick 0;
     Submit (Meadow.submit "bob" "move" (Some "south"%string) None None)] in
  unique_ids db
  /\ unique_ids (run steps db)
  /\ w_width (world (run steps db)) = w_width (world db)
  /\ w_height (world (run steps db)) = w_height (world db)
  /\ objects (run steps db) = objects db
  /\ forall id c, find_character db id = Some c ->
       exists c', find_character (run steps db) id = Some c' /\ same_identity c c'.
Proof.
  cbv zeta. split; [apply neighbours_unique_ids|].
  apply identity_never_changes, neighbours_unique_ids.
Defined.

(** X6.  Along every history the XP of a character never decreases; a
    character whose level and hit-point cap agree with its XP and whose
    hit points are within the cap stays so, and its level never
    decreases. *)
Theorem progress_never_lost (steps : list Step) (db : DB) (Hkey : unique_ids db)
    (id : string) (c : Character) (Hc : find_character db id = Some c) :
  exists c',
    find_character (run steps db) id = Some c'
    /\ c_xp c <= c_xp c'
    /\ (progress_ok c -> progress_ok c' /\ c_level c <= c_level c').
Proof.
  set (R := fun c c' : Character =>
              c_xp c <= c_xp c'
              /\ (progress_ok c -> progress_ok c' /\ c_level c <= c_level c')).
  assert (Hrefl : forall c, R c c).
  { intros c0. split; [lia|]. intros Hp. split; [exact Hp | lia]. }
  assert (Htrans : forall a b c, R a b -> R b c -> R a c).
  { intros a b c0 [H1 H2] [H3 H4]. split; [lia|]. intros Ha.
    destruct (H2 Ha) as [Hb Hl]. destruct (H4 Hb) as [Hc0 Hl']. split; [exact Hc0 | lia]. }
  assert (Hsame : forall c c' : Character,
             c_xp c' = c_xp c -> c_level c' = c_level c -> c_hp c' = c_hp c ->
             c_max_hp c' = c_max_hp c -> R c c').
  { intros c0 c' Hx Hl Hh Hm. unfold R, progress_ok. rewrite Hx, Hl, Hh, Hm.
    split; [lia|]. intros Hp. split; [exact Hp | lia]. }
  destruct (run_evolves R Hrefl Htrans (w_width (world db)) (w_height (world db))
              (objects db)) with (steps := steps) (db := db)
    as (_ & _ & _ & _ & Hev); try reflexivity; try exact Hkey;
    try (intros; apply Hsame; reflexivity).
  - intros c0 amount Hpos. unfold R, award_row, progress_ok. cbv zeta.
    set (info := calculateLevel (c_xp c0 + amount)).
    destruct (c_level c0 <? level info) eqn:Hup;
      cbn [c_xp c_level c_hp c_max_hp set_progress heal].
    + apply Z.ltb_lt in Hup. split; [lia|]. intros _.
      repeat split; try reflexivity; lia.
    + apply Z.ltb_ge in Hup. split; [lia|]. intros (Hlevel & Hcap & Hhp).
      pose proof (calculateLevel_mono (c_xp c0) (c_xp c0 + amount) ltac:(lia)) as Hmono.
      fold info in Hmono. rewrite <- Hlevel in Hmono.
      assert (Heq : level info = c_level c0) by lia.
      unfold info in *. rewrite ?Heq.
      repeat split; try reflexivity; lia.
  - exact (Hev id c Hc).
Qed.

Lemma progress_never_lost_witness :
  let db := Meadow.neighbours 100 None in
  let steps :=
    [Submit (Meadow.submit "alice" "talk" None None (Some "hello"%string)); Tick 0;
     Submit (Meadow.submit "bob" "move" (Some "south"%string) None None)] in
  unique_ids db
  /\ find_character db "alice" = Some (Meadow.newcomer "alice" 5 5)
  /\ exists c',
       find_character (run steps db) "alice" = Some c'
       /\ c_xp (Meadow.newcomer "alice" 5 5) <= c_xp c'
       /\ (progress_ok (Meadow.newcomer "alice" 5 5)
           -> progress_ok c' /\ c_level (Meadow.newcomer "alice" 5 5) <= c_level c').
Proof.
  cbv zeta. split; [apply neighbours_unique_ids|]. split; [reflexivity|].
  apply progress_never_lost; [apply neighbours_unique_ids | reflexivity].
Defined.

(** X7.  Along every history the energy the server reads for a character
    (a missing value read as 100) stays between -3 and the energy cap
    once it is there.  The lower bound is -3 and not 0: the energy check
    of talk reads a stored 0 as 100. *)
Theorem energy_stays_in_range (steps : list Step) (db : DB) (Hkey : unique_ids db)
    (id : string) (c : Character) (Hc : find_character db id = Some c)
    (Hrange : energy_in_range c) :
  exists c', find_character (run steps db) id = Some c' /\ energy_in_range c'.
Proof.
  set (R := fun c c' : Character => energy_in_range c -> energy_in_range c').
  assert (Hrefl : forall c, R c c) by (intros c0 H; exact H).
  assert (Htrans : forall a b c, R a b -> R b c -> R a c)
    by (intros a b c0 H1 H2 Ha; exact (H2 (H1 Ha))).
  assert (Hsame : forall c c' : Character,
             c_energy c' = c_energy c -> c_max_energy c' = c_max_energy c -> R c c').
  { intros c0 c' He Hm. unfold R, energy_in_range. now rewrite He, Hm. }
  destruct (run_evolves R Hrefl Htrans (w_width (world db)) (w_height (world db))
              (objects db)) with (steps := steps) (db := db)
    as (_ & _ & _ & _ & Hev); try reflexivity; try exact Hkey;
    try (intros; apply Hsame; reflexivity).
  - intros; apply Hsame; unfold award_row; cbv zeta; destruct (_ <? _); reflexivity.
  - intros c0. unfold R, tired, energy_in_range, or_default, coalesce, Rich.energyCost.
    cbn. destruct (c_energy c0) as [e|]; [destruct (Z.eqb_spec e 0)|]; lia.
  - intros c0 r Hr. unfold R, energy_in_range, coalesce. cbn.
    destruct (c_energy c0); lia.
  - intros c0. unfold R, energy_in_range, coalesce. cbn. destruct (c_energy c0); lia.
  - destruct (Hev id c Hc) as (c' & Hc' & HR). exists c'. split; [exact Hc' | exact (HR Hrange)].
Qed.

Lemma energy_stays_in_range_witness :
  let db := Meadow.neighbours 100 None in
  let steps :=
    [Submit (Meadow.submit "alice" "talk" None None (Some "hello"%string)); Tick 0;
     Submit (Meadow.submit "bob" "move" (Some "south"%string) None None)] in
  unique_ids db
  /\ find_character db "alice" = Some (Meadow.newcomer "alice" 5 5)
  /\ energy_in_range (Meadow.newcomer "alice" 5 5)
  /\ exists c', find_character (run steps db) "alice" = Some c' /\ energy_in_range c'.
Proof.
  cbv zeta. split; [apply neighbours_unique_ids|]. split; [reflexivity|].
  assert (Hrange : energy_in_range (Meadow.newcomer "alice" 5 5))
    by (unfold energy_in_range; cbn; lia).
  split; [exact Hrange|].
  apply energy_stays_in_range with (c := Meadow.newcomer "alice" 5 5); [apply neighbours_unique_ids | reflexivity | exact Hrange].
Defined.

(** X8.  Along every history a character that stands inside the world
    and off every blocking object stays inside the world and off every
    blocking object. *)
Theorem characters_stay_on_free_tiles (steps : list Step) (db : DB)
    (Hkey : unique_ids db) (id : string) (c : Character)
    (Hc : find_character db id = Some c)
    (Hfree : free_tile (w_width (world db)) (w_height (world db)) (objects db)
               (c_x c) (c_y c)) :
  exists c',
    find_character (run steps db) id = Some c'
    /\ free_tile (w_width (world (run steps db))) (w_height (world (run steps db)))
         (objects (run steps db)) (c_x c') (c_y c').
Proof.
  set (free := free_tile (w_width (world db)) (w_height (world db)) (objects db)).
  set (R := fun c c' : Character => free (c_x c) (c_y c) -> free (c_x c') (c_y c')).
  assert (Hrefl : forall c, R c c) by (intros c0 H; exact H).
  assert (Htrans : forall a b c, R a b -> R b c -> R a c)
    by (intros a b c0 H1 H2 Ha; exact (H2 (H1 Ha))).
  assert (Hsame : forall c c' : Character, c_x c' = c_x c -> c_y c' = c_y c -> R c c').
  { intros c0 c' Hx Hy. unfold R. now rewrite Hx, Hy. }
  destruct (run_evolves R Hrefl Htrans (w_width (world db)) (w_height (world db))
              (objects db)) with (steps := steps) (db := db)
    as (_ & Hw & Hh & Ho & Hev); try reflexivity; try exact Hkey;
    try (intros; apply Hsame; reflexivity).
  - intros c0 x y Hxy _ _. exact Hxy.
  - intros; apply Hsame; unfold award_row; cbv zeta; destruct (_ <? _); reflexivity.
  - destruct (Hev id c Hc) as (c' & Hc' & HR). exists c'. split; [exact Hc'|].
    rewrite Hw, Hh, Ho. exact (HR Hfree).
Qed.

Lemma characters_stay_on_free_tiles_witness :
  let db := Meadow.neighbours 100 None in
  let steps :=
    [Submit (Meadow.submit "alice" "talk" None None (Some "hello"%string)); Tick 0;
     Submit (Meadow.submit "bob" "move" (Some "south"%string) None None)] in
  unique_ids db
  /\ find_character db "bob" = Some (Meadow.newcomer "bob" 6 5)
  /\ free_tile 20 15 (objects db) 6 5
  /\ exists c',
       find_character (run steps db) "bob" = Some c'
       /\ free_tile (w_width (world (run steps db))) (w_height (world (run steps db)))
            (objects (run steps db)) (c_x c') (c_y c').
Proof.
  cbv zeta. split; [apply neighbours_unique_ids|]. split; [reflexivity|].
  assert (Hfree : free_tile 20 15 (objects (Meadow.neighbours 100 None)) 6 5).
  { split; [lia|]. split; [lia|]. intros o [<- | [<- | []]]; cbn; intros; [lia | reflexivity]. }
  split; [exact Hfree|].
  apply characters_stay_on_free_tiles with (c := Meadow.newcomer "bob" 6 5);
    [apply neighbours_unique_ids | reflexivity | exact Hfree].
Defined.

(** X9.  Along every history a character with at most 50 moments and a
    life story of at most 5000 units stays within both bounds. *)
Theorem stories_stay_bounded (steps : list Step) (db : DB) (Hkey : unique_ids db)
    (id : string) (c : Character) (Hc : find_character db id = Some c)
    (Hbounded : story_bounded c) :
  exists c', find_character (run steps db) id = Some c' /\ story_bounded c'.
Proof.
  set (R := fun c c' : Character => story_bounded c -> story_bounded c').
  assert (Hrefl : forall c, R c c) by (intros c0 H; exact H).
  assert (Htrans : forall a b c, R a b -> R b c -> R a c)
    by (intros a b c0 H1 H2 Ha; exact (H2 (H1 Ha))).
  assert (Hsame : forall c c' : Character,
             c_significant_moments c' = c_significant_moments c ->
             c_life_story c' = c_life_story c -> R c c').
  { intros c0 c' Hm Hs. unfold R, story_bounded, moments_of, life_story_of.
    now rewrite Hm, Hs. }
  destruct (run_evolves R Hrefl Htrans (w_width (world db)) (w_height (world db))
              (objects db)) with (steps := steps) (db := db)
    as (_ & _ & _ & _ & Hev); try reflexivity; try exact Hkey;
    try (intros; apply Hsame; reflexivity).
  - intros; apply Hsame; unfold award_row; cbv zeta; destruct (_ <? _); reflexivity.
  - intros c0 m [_ Hstory]. split.
    + apply push_moment_length.
    + cbn. now apply next_life_story_length.
  - destruct (Hev id c Hc) as (c' & Hc' & HR). exists c'.
    split; [exact Hc' | exact (HR Hbounded)].
Qed.

Lemma stories_stay_bounded_witness :
  let db := Meadow.neighbours 100 None in
  let steps :=
    [Submit (Meadow.submit "alice" "talk" None None (Some "hello"%string)); Tick 0;
     Submit (Meadow.submit "bob" "move" (Some "south"%string) None None)] in
  unique_ids db
  /\ find_character db "bob" = Some (Meadow.newcomer "bob" 6 5)
  /\ story_bounded (Meadow.newcomer "bob" 6 5)
  /\ exists c', find_character (run steps db) "bob" = Some c' /\ story_bounded c'.
Proof.
  cbv zeta. split; [apply neighbours_unique_ids|]. split; [reflexivity|].
  assert (Hb : story_bounded (Meadow.newcomer "bob" 6 5))
    by (unfold story_bounded; cbn; lia).
  split; [exact Hb|].
  apply stories_stay_bounded with (c := Meadow.newcomer "bob" 6 5); [apply neighbours_unique_ids | reflexivity | exact Hb].
Defined.

End HistoryProperties.

Module TurnFacts.
Import Leveling Text Store Core Effects Invariants StoreFacts ClockClaims
       EvolutionFacts HistoryProperties History.

Lemma ticks_cons (p : nat) (picks : list nat) (db : DB) :
  ticks (p :: picks) db = ticks picks (Rich.worldTick p db).
Proof. reflexivity. Qed.

Lemma ticks_tick (picks : list nat) (db : DB) :
  w_tick (world (ticks picks db)) = w_tick (world db) + Z.of_nat (length picks).
Proof.
  revert db. induction picks as [|p picks IH]; intros db.
  - cbn. lia.
  - rewrite ticks_cons, IH, worldTick_tick. cbn [length]. lia.
Qed.

Lemma ticks_ids (picks : list nat) (db : DB) :
  map c_id (characters (ticks picks db)) = map c_id (characters db).
Proof.
  revert db. induction picks as [|p picks IH]; intros db; [reflexivity|].
  now rewrite ticks_cons, IH, worldTick_ids.
Qed.

(** The clock writes neither the stamp of the last action nor the
    identity of a character. *)
Lemma ticks_pace (picks : list nat) (db : DB) (id : string) (c : Character) :
  find_character db id = Some c ->
  exists c',
    find_character (ticks picks db) id = Some c'
    /\ c_last_action_tick c' = c_last_action_tick c
    /\ same_identity c c'.
Proof.
  set (R := fun c c' : Character =>
              c_last_action_tick c' = c_last_action_tick c /\ same_identity c c').
  assert (Hrefl : forall c, R c c).
  { intros c0. split; [reflexivity | apply same_identity_closed]. }
  revert db c. induction picks as [|p picks IH]; intros db c Hc.
  - exists c. split; [exact Hc | apply Hrefl].
  - rewrite ticks_cons.
    destruct (worldTick_evolves R Hrefl) with (pick := p) (db := db) (id := id) (c := c)
      as (c1 & Hc1 & Hl1 & Hi1); [|exact Hc|].
    { intros c0. split; [reflexivity|]. unfold same_identity. cbn. tauto. }
    destruct (IH _ _ Hc1) as (c2 & Hc2 & Hl2 & Hi2).
    exists c2. split; [exact Hc2|]. split; [congruence|].
    eapply (proj2 same_identity_closed); eassumption.
Qed.

Lemma authenticate_of_find (db : DB) (id : string) (c : Character) :
  find_character db id = Some c ->
  authenticate db id (Some (c_token c)) = Some c.
Proof.
  unfold find_character, authenticate.
  induction (characters db) as [|x l IH]; cbn; [discriminate|].
  destruct (c_id x =? id)%string; cbn.
  - intros [= ->]. now rewrite String.eqb_refl.
  - exact IH.
Qed.

(** The shape of an accepted submission. *)
Lemma handle_action_accepted (rq : Request) (db db' : DB) (result : ActionResult) :
  Rich.handle_action rq db = (db', Accepted result) ->
  exists me dbK,
    authenticate db (rq_charId rq) (rq_token rq) = Some me
    /\ canAct db (rq_charId rq) = true
    /\ Rich.dispatch db me rq = (dbK, Accepted result)
    /\ db' = updateLastAction (rq_charId rq) dbK.
Proof.
  unfold Rich.handle_action.
  destruct (authenticate _ _ _) as [me|]; [|discriminate].
  destruct (canAct db (rq_charId rq)); cbn [negb]; [|discriminate].
  destruct (Rich.dispatch db me rq) as [dbK [r|res]] eqn:Hd; [discriminate|].
  intros [= <- <-]. now exists me, dbK.
Qed.

Lemma handle_action_identity (rq : Request) (db : DB) :
  unique_ids db -> advances same_identity db (fst (Rich.handle_action rq db)).
Proof.
  intros Hkey. destruct same_identity_closed as [Hrefl Htrans].
  apply (handle_action_advances same_identity Hrefl Htrans) with
    (width := w_width (world db)) (height := w_height (world db)) (objs := objects db);
    try reflexivity; try exact Hkey; unfold same_identity; unchanged_row; tauto.
Qed.

End TurnFacts.

Module TurnProperties.
Import Leveling Text Store Core Effects Invariants StoreFacts ClockClaims
       EvolutionFacts HistoryProperties TurnFacts History.

(** X10.  An accepted action stamps the actor with the current tick.
    From then on the turn gate lets the actor through exactly when at
    least [turn_interval] ticks have passed, and every submission in the
    name of the actor before that is answered with an error (the turn
    gate or the token check) and changes nothing. *)
Theorem turn_gate_spaces_actions (rq : Request) (db db' : DB) (result : ActionResult)
    (Hkey : unique_ids db)
    (Hok : Rich.handle_action rq db = (db', Accepted result)) :
  exists me me',
    authenticate db (rq_charId rq) (rq_token rq) = Some me
    /\ find_character db' (rq_charId rq) = Some me'
    /\ c_last_action_tick me' = w_tick (world db)
    /\ c_turn_interval me' = c_turn_interval me
    /\ (forall picks,
          canAct (ticks picks db') (rq_charId rq)
          = (c_turn_interval me <=? Z.of_nat (length picks)))
    /\ (forall picks rq2,
          rq_charId rq2 = rq_charId rq ->
          Z.of_nat (length picks) < c_turn_interval me ->
          Rich.handle_action rq2 (ticks picks db')
          = (ticks picks db', Rejected InvalidCharacterOrToken)
          \/ Rich.handle_action rq2 (ticks picks db')
             = (ticks picks db', Rejected (NotYourTurn (c_turn_interval me)))).
Proof.
  destruct (handle_action_accepted _ _ _ _ Hok) as (me & dbK & Hauth & Hturn & Hd & ->).
  pose proof (authenticate_unique _ _ _ _ Hkey Hauth) as Hme.
  destruct (handle_action_identity rq db Hkey) as (Hw & _ & Hids & Hev).
  rewrite Hok in Hw, Hids, Hev. cbn [fst] in Hw, Hids, Hev.
  set (db' := updateLastAction (rq_charId rq) dbK) in *.
  destruct (Hev _ _ Hme) as (me' & Hme' & Hsame).
  assert (Hstamp : c_last_action_tick me' = w_tick (world db)).
  { assert (HwK : world dbK = world db) by exact Hw.
    unfold db', updateLastAction in Hme'.
    rewrite find_character_update in Hme' by (intros; reflexivity).
    destruct (find_character dbK (rq_charId rq)) as [cK|]; [|discriminate].
    cbn in Hme'. rewrite String.eqb_refl in Hme'. injection Hme' as <-.
    cbn. now rewrite HwK. }
  assert (Hinterval : c_turn_interval me' = c_turn_interval me)
    by (destruct Hsame as (_ & _ & _ & H & _); exact H).
  assert (Hgate : forall picks,
             canAct (ticks picks db') (rq_charId rq)
             = (c_turn_interval me <=? Z.of_nat (length picks))).
  { intros picks. destruct (ticks_pace picks db' _ _ Hme') as (c2 & Hc2 & Hl2 & Hi2).
    unfold canAct. rewrite Hc2, ticks_tick, Hl2, Hstamp.
    destruct Hi2 as (_ & _ & _ & -> & _). rewrite Hinterval.
    rewrite Hw. f_equal. lia. }
  exists me, me'. repeat split; try assumption.
  intros picks rq2 Hid Hearly. unfold Rich.handle_action. rewrite Hid.
  destruct (authenticate (ticks picks db') (rq_charId rq) (rq_token rq2)) as [x|] eqn:Hx;
    [right | left; reflexivity].
  rewrite Hgate. apply Z.leb_gt in Hearly. rewrite Hearly. cbn [negb].
  assert (Hkey2 : unique_ids (ticks picks db')).
  { unfold unique_ids in *. now rewrite ticks_ids, Hids. }
  pose proof (authenticate_unique _ _ _ _ Hkey2 Hx) as Hx'.
  destruct (ticks_pace picks db' _ _ Hme') as (c2 & Hc2 & _ & Hi2).
  assert (x = c2) by congruence. subst x.
  destruct Hi2 as (_ & _ & _ & -> & _). now rewrite Hinterval.
Qed.

Lemma turn_gate_spaces_actions_witness :
  let db := Meadow.neighbours 100 None in
  let rq := Meadow.submit "alice" "move" (Some "north"%string) None None in
  unique_ids db
  /\ snd (Rich.handle_action rq db) = Accepted (Moved "alice moves north" 5 4)
  /\ exists me me',
       authenticate db (rq_charId rq) (rq_token rq) = Some me
       /\ find_character (fst (Rich.handle_action rq db)) (rq_charId rq) = Some me'
       /\ c_last_action_tick me' = w_tick (world db)
       /\ c_turn_interval me' = c_turn_interval me
       /\ (forall picks,
             canAct (ticks picks (fst (Rich.handle_action rq db))) (rq_charId rq)
             = (c_turn_interval me <=? Z.of_nat (length picks)))
       /\ (forall picks rq2,
             rq_charId rq2 = rq_charId rq ->
             Z.of_nat (length picks) < c_turn_interval me ->
             Rich.handle_action rq2 (ticks picks (fst (Rich.handle_action rq db)))
             = (ticks picks (fst (Rich.handle_action rq db)),
                Rejected InvalidCharacterOrToken)
             \/ Rich.handle_action rq2 (ticks picks (fst (Rich.handle_action rq db)))
                = (ticks picks (fst (Rich.handle_action rq db)),
                   Rejected (NotYourTurn (c_turn_interval me)))).
Proof.
  cbv zeta. split; [apply neighbours_unique_ids|]. split; [vm_compute; reflexivity|].
  apply (turn_gate_spaces_actions _ _ _ (Moved "alice moves north" 5 4));
    [apply neighbours_unique_ids | vm_compute; reflexivity].
Defined.

End TurnProperties.

Module FatigueFacts.
Import Leveling Text Store Core Effects Invariants StoreFacts ClockClaims
       ListenerClaims TalkFacts TalkClaims HistoryFacts EvolutionFacts TurnFacts History.

Lemma speaker_row_energy (db : DB) (l : Character) (a : string) (a0 : Character) :
  c_energy (speaker_row db l a a0)
  = Some (coalesce (c_energy a0) 100 - Rich.energyCost).
Proof.
  unfold speaker_row, award_row, met, tired. cbv zeta.
  repeat match goal with
         | |- context [if ?b then _ else _] => destruct b
         end; reflexivity.
Qed.

Lemma decay_row_keeps (r : Relationship) :
  r_sentiment (Rich.decay_row r) = r_sentiment r
  /\ r_interactions (Rich.decay_row r) = r_interactions r
  /\ r_first_met_tick (Rich.decay_row r) = r_first_met_tick r
  /\ r_last_interaction_tick (Rich.decay_row r) = r_last_interaction_tick r
  /\ r_cooldown_until_tick (Rich.decay_row r) = r_cooldown_until_tick r.
Proof.
  unfold Rich.decay_row. destruct (r_recent_exchanges r) as [n|]; [|easy].
  destruct (0 <? n); easy.
Qed.

Lemma worldTick_cooldown (pick : nat) (db : DB) (a b : string) :
  Rich.cooldown_until_of (Rich.worldTick pick db) a b = Rich.cooldown_until_of db a b.
Proof.
  unfold Rich.cooldown_until_of. rewrite worldTick_relationships.
  destruct (_ =? 0); [|reflexivity].
  rewrite lookup_fmap. destruct (relationships db !! (a, b)) as [r|]; [|reflexivity].
  cbn. now destruct (decay_row_keeps r) as (_ & _ & _ & _ & ->).
Qed.

Lemma ticks_cooldown (picks : list nat) (db : DB) (a b : string) :
  Rich.cooldown_until_of (ticks picks db) a b = Rich.cooldown_until_of db a b.
Proof.
  revert db. induction picks as [|p picks IH]; intros db; [reflexivity|].
  now rewrite ticks_cons, IH, worldTick_cooldown.
Qed.

Lemma worldTick_stored_cooldown (pick : nat) (db : DB) (a b : string) :
  Rich.stored_cooldown (Rich.worldTick pick db) a b = Rich.stored_cooldown db a b.
Proof.
  unfold Rich.stored_cooldown. rewrite worldTick_relationships.
  destruct (_ =? 0); [|reflexivity].
  rewrite lookup_fmap. destruct (relationships db !! (a, b)) as [r|]; [|reflexivity].
  cbn. now destruct (decay_row_keeps r) as (_ & _ & _ & _ & ->).
Qed.

Lemma ticks_stored_cooldown (picks : list nat) (db : DB) (a b : string) :
  Rich.stored_cooldown (ticks picks db) a b = Rich.stored_cooldown db a b.
Proof.
  revert db. induction picks as [|p picks IH]; intros db; [reflexivity|].
  now rewrite ticks_cons, IH, worldTick_stored_cooldown.
Qed.

(** The cooldown as a number, from the stored column. *)
Lemma cooldown_until_of_stored (db : DB) (a b : string) :
  Rich.cooldown_until_of db a b
  = match Rich.stored_cooldown db a b with
    | Some cooldownUntil => cooldownUntil
    | None => 0
    end.
Proof.
  unfold Rich.cooldown_until_of, Rich.stored_cooldown, or_default.
  destruct (relationships db !! (a, b)) as [r|]; [|reflexivity].
  destruct (r_cooldown_until_tick r) as [c|]; [|reflexivity].
  now destruct (Z.eqb_spec c 0).
Qed.

(** The cooldown test between non-negative numbers with the same number
    of digits is the comparison of the numbers. *)
Lemma on_cooldown_same_width (db : DB) (a b : string) :
  0 <= w_tick (world db) ->
  (forall cooldownUntil,
      Rich.stored_cooldown db a b = Some cooldownUntil ->
      0 <= cooldownUntil
      /\ String.length (bigint_text (w_tick (world db)))
         = String.length (bigint_text cooldownUntil)) ->
  Rich.on_cooldown db a b = (w_tick (world db) <? Rich.cooldown_until_of db a b).
Proof.
  intros Htick Hstored. rewrite cooldown_until_of_stored. unfold Rich.on_cooldown.
  destruct (Rich.stored_cooldown db a b) as [c|]; [|reflexivity].
  destruct (Hstored c eq_refl) as [Hc Hwidth].
  now apply TextFacts.text_ltb_same_width.
Qed.

End FatigueFacts.

Module FatigueProperties.
Import Leveling Text Store Core Effects Invariants StoreFacts ClockClaims
       ListenerClaims TalkFacts TalkClaims HistoryFacts EvolutionFacts TurnFacts
       FatigueFacts History.

(** X11.  The energy check of talk, for a submission that passes the
    token check, the turn gate and the message check.  It rejects exactly
    a stored energy that is not NULL, not 0 and below 3; NULL and 0 are
    read as 100.  An accepted talk leaves the speaker with the stored
    energy, NULL read as 100, minus 3: a speaker at 0 ends at -3. *)
Theorem talk_energy_check (db : DB) (rq : Request) (me : Character) (message : string)
    (Hkey : unique_ids db)
    (Hauth : authenticate db (rq_charId rq) (rq_token rq) = Some me)
    (Hturn : canAct db (rq_charId rq) = true)
    (Hact : rq_action rq = "talk"%string)
    (Hmsg : rq_message rq = Some message)
    (Hne : message <> EmptyString) :
  let low := exists e, c_energy me = Some e /\ e <> 0 /\ e < 3 in
  (low ->
   Rich.handle_action rq db
   = (db, Rejected (InsufficientEnergy (coalesce (c_energy me) 100))))
  /\ (~ low ->
      (forall e, snd (Rich.handle_action rq db) <> Rejected (InsufficientEnergy e))
      /\ forall db' result,
           Rich.handle_action rq db = (db', Accepted result) ->
           exists me',
             find_character db' (rq_charId rq) = Some me'
             /\ c_energy me' = Some (coalesce (c_energy me) 100 - 3)).
Proof.
  cbv zeta. split.
  - intros (e & He & Hnz & Hlow).
    unfold Rich.handle_action, Rich.dispatch. rewrite Hauth, Hturn, Hact. cbn [negb].
    change ("talk" =? "move")%string with false.
    change ("talk" =? "talk")%string with true. cbv iota.
    unfold Rich.talk_case. rewrite Hmsg.
    apply String.eqb_neq in Hne. rewrite Hne. cbv zeta.
    rewrite He. unfold or_default, coalesce, Rich.energyCost.
    apply Z.eqb_neq in Hnz. rewrite Hnz.
    apply Z.ltb_lt in Hlow. now rewrite Hlow.
  - intros Hnot.
    assert (Henergy : Rich.energyCost <= or_default (c_energy me) 100).
    { unfold or_default, Rich.energyCost.
      destruct (c_energy me) as [e|]; [|lia].
      destruct (Z.eqb_spec e 0); [lia|].
      destruct (Z.lt_ge_cases e 3); [|assumption].
      exfalso. apply Hnot. now exists e. }
    pose proof (rich_talk_route db rq me message Hauth Hturn Hact Hmsg Hne Henergy)
      as Hroute.
    destruct (nearby_listener db (rq_charId rq) (c_x me) (c_y me)) as [l|] eqn:Hl.
    2:{ rewrite Hroute. split; [discriminate|]. discriminate. }
    destruct (Rich.on_cooldown db (rq_charId rq) (c_id l)).
    { rewrite Hroute. split; [discriminate|]. discriminate. }
    assert (Htalk : Rich.talks_to db rq me l message) by (repeat split; assumption).
    destruct (rich_talk_commit_accepted db me l (rq_charId rq) message)
      as (dbT & msg & xp & en & w & ci & Hcommit).
    rewrite Hroute, Hcommit. cbn [fst snd]. split; [discriminate|].
    intros db' result [= <- _].
    destruct (rich_talk_rows db rq me l message Htalk) as (a0 & b0 & Ha0 & _ & Hrow & _).
    rewrite Hcommit in Hrow. cbn [fst] in Hrow.
    pose proof (authenticate_unique _ _ _ _ Hkey Hauth) as Hme.
    assert (a0 = me) by congruence. subst a0.
    eexists. split; [exact Hrow|]. cbn. apply speaker_row_energy.
Qed.

Lemma talk_energy_check_witness :
  let worn := set_energy (fun _ => 0) (Meadow.newcomer "alice" 5 5) in
  let db := Meadow.meadow 100 [worn; Meadow.newcomer "bob" 6 5] in
  let rq := Meadow.submit "alice" "talk" None None (Some "hello"%string) in
  unique_ids db
  /\ authenticate db (rq_charId rq) (rq_token rq) = Some worn
  /\ canAct db (rq_charId rq) = true
  /\ ~ (exists e, c_energy worn = Some e /\ e <> 0 /\ e < 3)
  /\ exists me',
       find_character (fst (Rich.handle_action rq db)) "alice" = Some me'
       /\ c_energy me' = Some (-3).
Proof.
  cbv zeta.
  assert (Hkey : unique_ids
                   (Meadow.meadow 100 [set_energy (fun _ => 0) (Meadow.newcomer "alice" 5 5);
                                       Meadow.newcomer "bob" 6 5])).
  { unfold unique_ids. cbn. apply NoDup_cons_2; [|apply NoDup_singleton].
    intros Hin. apply list_elem_of_In in Hin. cbn in Hin. intuition discriminate. }
  assert (Hnot : ~ (exists e,
                      c_energy (set_energy (fun _ => 0) (Meadow.newcomer "alice" 5 5)) = Some e
                      /\ e <> 0 /\ e < 3)).
  { intros (e & [= <-] & Hnz & _). now apply Hnz. }
  split; [exact Hkey|]. split; [reflexivity|]. split; [reflexivity|]. split; [exact Hnot|].
  destruct (talk_energy_check
              (Meadow.meadow 100 [set_energy (fun _ => 0) (Meadow.newcomer "alice" 5 5);
                                  Meadow.newcomer "bob" 6 5])
              (Meadow.submit "alice" "talk" None None (Some "hello"%string))
              (set_energy (fun _ => 0) (Meadow.newcomer "alice" 5 5)) "hello"
              Hkey eq_refl eq_refl eq_refl eq_refl ltac:(discriminate))
    as [_ Haccepted].
  destruct (Haccepted Hnot) as [_ Hrow].
  assert (Hok : exists result,
             Rich.handle_action
               (Meadow.submit "alice" "talk" None None (Some "hello"%string))
               (Meadow.meadow 100
                  [set_energy (fun _ => 0) (Meadow.newcomer "alice" 5 5);
                   Meadow.newcomer "bob" 6 5])
             = (fst (Rich.handle_action
                       (Meadow.submit "alice" "talk" None None (Some "hello"%string))
                       (Meadow.meadow 100
                          [set_energy (fun _ => 0) (Meadow.newcomer "alice" 5 5);
                           Meadow.newcomer "bob" 6 5])),
                Accepted result)).
  { eexists. vm_compute. reflexivity. }
  destruct Hok as [result Hok]. exact (Hrow _ _ Hok).
Defined.

End FatigueProperties.

Module CooldownProperties.
Import Leveling Text Store Core Effects Invariants StoreFacts ClockClaims
       ListenerClaims TalkFacts TalkClaims HistoryFacts EvolutionFacts TurnFacts
       FatigueFacts History.

(** X12.  The clock never writes a cooldown.  The cooldown test compares
    the text of the tick with the text of the stored cooldown.  For a
    non-negative tick and a stored cooldown that is non-negative and has
    as many digits as the tick, that is the comparison of the two
    numbers: a talk attempt made any number of ticks later is answered
    with the cooldown error, and the ticks still to wait, as long as the
    tick is below the cooldown of the pair, and is accepted from that tick
    on. *)
Theorem cooldown_holds_between_equal_widths (db : DB) (picks : list nat) (rq : Request)
    (me l : Character) (message : string)
    (Htalk : Rich.talks_to (ticks picks db) rq me l message)
    (Htick : 0 <= w_tick (world db))
    (Hstored : forall cooldownUntil,
        Rich.stored_cooldown db (rq_charId rq) (c_id l) = Some cooldownUntil ->
        0 <= cooldownUntil
        /\ String.length (bigint_text (w_tick (world db) + Z.of_nat (length picks)))
           = String.length (bigint_text cooldownUntil)) :
  let now := w_tick (world db) + Z.of_nat (length picks) in
  let until := Rich.cooldown_until_of db (rq_charId rq) (c_id l) in
  w_tick (world (ticks picks db)) = now
  /\ Rich.stored_cooldown (ticks picks db) (rq_charId rq) (c_id l)
     = Rich.stored_cooldown db (rq_charId rq) (c_id l)
  /\ Rich.cooldown_until_of (ticks picks db) (rq_charId rq) (c_id l) = until
  /\ Rich.on_cooldown (ticks picks db) (rq_charId rq) (c_id l) = (now <? until)
  /\ (now < until ->
      Rich.handle_action rq (ticks picks db)
      = (ticks picks db, Rejected (ConversationCooldown (c_name l) (until - now))))
  /\ (until <= now ->
      exists result, snd (Rich.handle_action rq (ticks picks db)) = Accepted result).
Proof.
  cbv zeta. split; [apply ticks_tick|]. split; [apply ticks_stored_cooldown|].
  split; [apply ticks_cooldown|].
  assert (Hcool : Rich.on_cooldown (ticks picks db) (rq_charId rq) (c_id l)
                  = (w_tick (world db) + Z.of_nat (length picks)
                     <? Rich.cooldown_until_of db (rq_charId rq) (c_id l))).
  { rewrite on_cooldown_same_width.
    - now rewrite ticks_tick, ticks_cooldown.
    - rewrite ticks_tick. lia.
    - intros c Hc. rewrite ticks_stored_cooldown in Hc. rewrite ticks_tick.
      now apply Hstored. }
  split; [exact Hcool|].
  pose proof Htalk as (Hauth & Hturn & Hact & Hmsg & Hne & Henergy & Hl).
  rewrite (rich_talk_route _ rq me message Hauth Hturn Hact Hmsg Hne Henergy), Hl.
  rewrite Hcool, ticks_cooldown, ticks_tick. split.
  - intros Hearly. apply Z.ltb_lt in Hearly. now rewrite Hearly.
  - intros Hlate. apply Z.ltb_ge in Hlate. rewrite Hlate. cbn [snd].
    destruct (rich_talk_commit_accepted (ticks picks db) me l (rq_charId rq) message)
      as (db' & msg & xp & e & w & ci & ->).
    eexists. reflexivity.
Qed.

Lemma cooldown_holds_between_equal_widths_witness :
  let db := Meadow.neighbours 100 (Some (Meadow.acquainted 15 103)) in
  let rq := Meadow.submit "alice" "talk" None None (Some "hello"%string) in
  let alice := Meadow.newcomer "alice" 5 5 in
  let bob := Meadow.newcomer "bob" 6 5 in
  Rich.talks_to (ticks [0; 0]%nat db) rq alice bob "hello"
  /\ 0 <= w_tick (world db)
  /\ Rich.stored_cooldown db "alice" "bob" = Some 103
  /\ String.length (bigint_text 102) = String.length (bigint_text 103)
  /\ Rich.handle_action rq (ticks [0; 0]%nat db)
     = (ticks [0; 0]%nat db, Rejected (ConversationCooldown "bob" 1)).
Proof.
  cbv zeta.
  assert (Htalk : Rich.talks_to
                    (ticks [0; 0]%nat (Meadow.neighbours 100 (Some (Meadow.acquainted 15 103))))
                    (Meadow.submit "alice" "talk" None None (Some "hello"%string))
                    (Meadow.newcomer "alice" 5 5) (Meadow.newcomer "bob" 6 5) "hello").
  { repeat split; try reflexivity; [discriminate | vm_compute; discriminate]. }
  assert (Htick : 0 <= w_tick (world (Meadow.neighbours 100
                                        (Some (Meadow.acquainted 15 103)))))
    by (cbn; lia).
  assert (Hrow : Rich.stored_cooldown
                   (Meadow.neighbours 100 (Some (Meadow.acquainted 15 103)))
                   "alice" "bob" = Some 103) by (vm_compute; reflexivity).
  split; [exact Htalk|]. split; [exact Htick|]. split; [exact Hrow|].
  split; [reflexivity|].
  destruct (cooldown_holds_between_equal_widths _ _ _ _ _ _ Htalk Htick)
    as (_ & _ & _ & _ & Hearly & _).
  - intros c Hc. cbn [rq_charId Meadow.submit c_id Meadow.newcomer] in Hc.
    rewrite Hrow in Hc. injection Hc as <-. split; [lia|reflexivity].
  - apply Hearly. vm_compute. reflexivity.
Defined.

(** X13.  What a tick does to the fatigue of a pair: on a tick whose
    number is divisible by 50 a positive count of recent exchanges drops
    by 3, not below 0; any other count and any other tick leave it.  The
    cooldown of the pair is not touched, and no row appears or goes. *)
Theorem fatigue_decays_every_50_ticks (pick : nat) (db : DB) (a b : string) :
  let n := Rich.recent_exchanges_of db a b in
  let db' := Rich.worldTick pick db in
  Rich.recent_exchanges_of db' a b
  = (if (Z.rem (w_tick (world db) + 1) 50 =? 0) && (0 <? n) then Z.max 0 (n - 3) else n)
  /\ Rich.cooldown_until_of db' a b = Rich.cooldown_until_of db a b
  /\ (relationships db' !! (a, b) = None <-> relationships db !! (a, b) = None).
Proof.
  cbv zeta. split; [|split; [apply worldTick_cooldown | apply worldTick_row]].
  unfold Rich.recent_exchanges_of. rewrite worldTick_relationships.
  destruct (_ =? 0); cbn [andb]; [|now destruct (relationships db !! (a, b))].
  rewrite lookup_fmap.
  destruct (relationships db !! (a, b)) as [[s i f la [n|] cd]|];
    [|reflexivity|reflexivity].
  unfold Rich.decay_row, or_default. cbn.
  destruct (Z.eqb_spec n 0) as [->|Hnz]; [reflexivity|].
  destruct (Z.ltb_spec 0 n) as [Hpos|Hneg]; cbn.
  - destruct (Z.eqb_spec (Z.max 0 (n - 3)) 0) as [->|_]; reflexivity.
  - apply Z.eqb_neq in Hnz. now rewrite Hnz.
Qed.

(** X14.  Along every history a relationship row is never deleted, keeps
    the tick of the first meeting, never loses interactions, and a
    sentiment of at most 100 never decreases and stays at most 100. *)
Theorem relationship_rows_persist (steps : list Step) (db : DB)
    (key : string * string) (r : Relationship)
    (Hrow : relationships db !! key = Some r) :
  exists r',
    relationships (run steps db) !! key = Some r'
    /\ r_first_met_tick r' = r_first_met_tick r
    /\ r_interactions r <= r_interactions r'
    /\ (r_sentiment r <= 100 -> r_sentiment r <= r_sentiment r' <= 100).
Proof.
  revert db r Hrow. induction steps as [|s steps IH]; intros db r Hrow.
  - exists r. cbn. repeat split; try assumption; lia.
  - assert (Hstep : exists r1,
               relationships (fst (step s db)) !! key = Some r1
               /\ r_first_met_tick r1 = r_first_met_tick r
               /\ r_interactions r <= r_interactions r1
               /\ (r_sentiment r <= 100 -> r_sentiment r <= r_sentiment r1 <= 100)).
    { destruct s as [rq|pick].
      - rewrite step_submit_fst.
        destruct (handle_action_talk_or_frame rq db)
          as [(me & l & message & Htalk & Hcool & _) | [_ Hsame]].
        + destruct (rich_talk_accepted db rq me l message Htalk Hcool)
            as (msg & xp & e & w & ci & ->).
          cbn [fst]. unfold updateLastAction.
          change (relationships (update_character ?i ?f ?d)) with (relationships d).
          rewrite rich_talk_commit_relationships. unfold Rich.upsert_relationship.
          cbn [relationships set_relationships].
          destruct (decide (key = (rq_charId rq, c_id l))) as [->|Hother].
          * rewrite lookup_insert_eq, Hrow. eexists. split; [reflexivity|]. cbn.
            repeat split; lia.
          * rewrite lookup_insert_ne by congruence. exists r.
            repeat split; try assumption; lia.
        + rewrite Hsame. exists r. repeat split; try assumption; lia.
      - cbn [step fst]. rewrite worldTick_relationships.
        destruct (_ =? 0).
        + rewrite lookup_fmap, Hrow. cbn. eexists. split; [reflexivity|].
          destruct (decay_row_keeps r) as (-> & -> & -> & _). repeat split; lia.
        + exists r. repeat split; try assumption; lia. }
    destruct Hstep as (r1 & Hr1 & Hf1 & Hi1 & Hs1).
    destruct (IH _ _ Hr1) as (r2 & Hr2 & Hf2 & Hi2 & Hs2).
    exists r2. change (run (s :: steps) db) with (run steps (fst (step s db))).
    split; [exact Hr2|]. split; [congruence|]. split; [lia|].
    intros Hle. specialize (Hs1 Hle). specialize (Hs2 ltac:(lia)). lia.
Qed.

Lemma relationship_rows_persist_witness :
  let db := Meadow.neighbours 100 (Some (Meadow.acquainted 3 0)) in
  let steps :=
    [Submit (Meadow.submit "alice" "talk" None None (Some "hello"%string)); Tick 0] in
  relationships db !! ("alice", "bob")%string = Some (Meadow.acquainted 3 0)
  /\ exists r',
       relationships (run steps db) !! ("alice", "bob")%string = Some r'
       /\ r_first_met_tick r' = r_first_met_tick (Meadow.acquainted 3 0)
       /\ r_interactions (Meadow.acquainted 3 0) <= r_interactions r'
       /\ (r_sentiment (Meadow.acquainted 3 0) <= 100
           -> r_sentiment (Meadow.acquainted 3 0) <= r_sentiment r' <= 100).
Proof.
  cbv zeta.
  assert (Hrow : relationships (Meadow.neighbours 100 (Some (Meadow.acquainted 3 0)))
                   !! ("alice", "bob")%string = Some (Meadow.acquainted 3 0))
    by apply lookup_singleton_eq.
  split; [exact Hrow|]. now apply relationship_rows_persist.
Defined.

End CooldownProperties.

Module RecordFacts.
Import Leveling Text Store Core Effects Invariants StoreFacts StoryClaims ClockClaims
       ListenerClaims TalkFacts HistoryFacts History.

Lemma awardXp_records (id : string) (amount : Z) (db : DB) :
  conversations (fst (awardXp id amount db)) = conversations db
  /\ memories (fst (awardXp id amount db)) = memories db.
Proof. destruct (awardXp_frame id amount db) as (_ & _ & _ & Hm & Hc). now split. Qed.

Lemma move_case_records (db : DB) (me : Character) (rq : Request) :
  conversations (fst (Rich.move_case db me rq)) = conversations db
  /\ memories (fst (Rich.move_case db me rq)) = memories db.
Proof.
  unfold Rich.move_case.
  destruct (rq_direction rq) as [d|]; [|now split].
  destruct (dirs _) as [[dx dy]|]; [|destruct (inherited_key _); now split].
  destruct (_ || _); [now split|].
  destruct (blocking_at _ _ _); [now split|]. cbn [fst].
  match goal with
  | |- context [awardXp ?i ?r ?d] => destruct (awardXp_records i r d) as [-> ->]
  end.
  now split.
Qed.

Lemma examine_case_records (db : DB) (me : Character) (rq : Request) :
  conversations (fst (Rich.examine_case db me rq)) = conversations db
  /\ memories (fst (Rich.examine_case db me rq)) = memories db.
Proof.
  unfold Rich.examine_case. destruct (examine_query _ _ _ _); now split.
Qed.

Lemma interact_case_records (db : DB) (me : Character) (rq : Request) :
  conversations (fst (Rich.interact_case db me rq)) = conversations db
  /\ memories (fst (Rich.interact_case db me rq)) = memories db.
Proof.
  unfold Rich.interact_case. cbv zeta.
  destruct (interact_query _ _ _ _) as [o|]; [|now split].
  destruct (_ || _);
    match goal with
    | |- context [awardXp ?i ?r ?d] =>
        destruct (awardXp i r d) as [db4 xp] eqn:Haward;
        apply awardXp_fst_eq in Haward;
        pose proof (awardXp_records i r d) as [Hc Hm]
    end;
    cbn [fst conversations memories broadcast insert_log]; subst db4;
    rewrite Hc, Hm; now split.
Qed.

(** The conversation and the two memories of an accepted talk. *)
Lemma talk_commit_records (db : DB) (me l : Character) (a message : string) :
  let tick := w_tick (world db) in
  conversations (fst (Rich.talk_commit db me l a message))
  = conversations db
    ++ [{| cv_tick := tick; cv_speaker_id := a; cv_listener_id := c_id l;
           cv_message := message |}]
  /\ memories (fst (Rich.talk_commit db me l a message))
     = memories db
       ++ [{| mem_character_id := a; mem_tick := tick;
              mem_content := ("I said to " ++ c_name l ++ ": "
                              ++ dquote ++ message ++ dquote)%string |};
           {| mem_character_id := c_id l; mem_tick := tick;
              mem_content := (c_name me ++ " said to me: "
                              ++ dquote ++ message ++ dquote)%string |}].
Proof.
  unfold Rich.talk_commit. cbv zeta.
  cbn [relationships insert_memory insert_conversation update_character
       set_characters].
  name_award a.
  assert (H6 : conversations db6
               = conversations db
                 ++ [{| cv_tick := w_tick (world db); cv_speaker_id := a;
                        cv_listener_id := c_id l; cv_message := message |}]
               /\ memories db6
                  = (memories db
                     ++ [{| mem_character_id := a; mem_tick := w_tick (world db);
                            mem_content := ("I said to " ++ c_name l ++ ": "
                                            ++ dquote ++ message ++ dquote)%string |}])
                    ++ [{| mem_character_id := c_id l; mem_tick := w_tick (world db);
                           mem_content := (c_name me ++ " said to me: "
                                           ++ dquote ++ message ++ dquote)%string |}]).
  { subst db6. destruct (relationships db !! (a, c_id l)).
    - now split.
    - match goal with
      | |- context [addSignificantMoment ?i ?m ?c (addSignificantMoment ?i' ?m' ?c' ?d)] =>
          destruct (addSignificantMoment_frame i m c (addSignificantMoment i' m' c' d))
            as (_ & _ & _ & -> & -> & _);
          destruct (addSignificantMoment_frame i' m' c' d) as (_ & _ & _ & -> & -> & _)
      end.
      now split. }
  destruct H6 as [Hc6 Hm6]. rewrite <- app_assoc in Hm6. cbn [app] in Hm6.
  destruct (0 <? _); cbn [fst conversations memories broadcast insert_log].
  - subst db7. destruct (awardXp_records a (Rich.talk_xp
        (match relationships db !! (a, c_id l) with None => true | Some _ => false end)
        (Rich.recent_exchanges_of db a (c_id l) + 1)) db6) as [-> ->]. now split.
  - now split.
Qed.

Lemma worldTick_records (pick : nat) (db : DB) :
  conversations (Rich.worldTick pick db) = conversations db
  /\ memories (Rich.worldTick pick db) = memories db.
Proof.
  unfold Rich.worldTick.
  repeat match goal with
         | |- context [if ?b then _ else _] => destruct b
         end; split; reflexivity.
Qed.

End RecordFacts.

Module RecordProperties.
Import Leveling Text Store Core Effects Invariants StoreFacts StoryClaims ClockClaims
       ListenerClaims TalkFacts HistoryFacts RecordFacts History.

Lemma quiet_records (db db' : DB) (rq : Request) (me : Character) (r : Response) :
  not_talked r ->
  conversations db' = conversations db /\ memories db' = memories db ->
  records_of db db' rq me r.
Proof.
  intros Hnt Hsame. destruct r as [|[]]; try exact Hsame. destruct Hnt.
Qed.

Lemma dispatch_records (db : DB) (me : Character) (rq : Request) :
  records_of db (fst (Rich.dispatch db me rq)) rq me (snd (Rich.dispatch db me rq)).
Proof.
  unfold Rich.dispatch.
  destruct (rq_action rq =? "move")%string.
  { apply quiet_records; [apply move_case_frame | apply move_case_records]. }
  destruct (rq_action rq =? "talk")%string.
  { unfold Rich.talk_case. cbv zeta.
    destruct (rq_message rq) as [message|] eqn:Hmsg; [|now split].
    destruct (message =? "")%string; [now split|].
    destruct (or_default (c_energy me) 100 <? Rich.energyCost); [now split|].
    destruct (nearby_listener db (rq_charId rq) (c_x me) (c_y me)) as [l|] eqn:Hl;
      [|now split].
    destruct (Rich.on_cooldown _ _ _); [now split|].
    pose proof (talk_commit_records db me l (rq_charId rq) message) as [Hc Hm].
    destruct (rich_talk_commit_accepted db me l (rq_charId rq) message)
      as (db' & msg & xp & e & w & ci & Heq).
    rewrite Heq in *. cbn [fst snd records_of] in *.
    exists l, message. repeat split; assumption. }
  destruct (rq_action rq =? "examine")%string.
  { apply quiet_records; [apply examine_case_frame | apply examine_case_records]. }
  destruct (rq_action rq =? "interact")%string.
  { apply quiet_records; [apply interact_case_frame | apply interact_case_records]. }
  now split.
Qed.

(** X15.  Conversations and memories are written by accepted talks and by
    nothing else.  An accepted talk appends one conversation row, from
    the speaker to the listener of the talk query with the message as
    sent, and two memories, the speaker's and the listener's; every other
    answer of the action route, and every tick, leaves both tables. *)
Theorem only_talk_writes_records (rq : Request) (db : DB) (pick : nat) :
  (match authenticate db (rq_charId rq) (rq_token rq) with
   | Some me =>
       records_of db (fst (Rich.handle_action rq db)) rq me
         (snd (Rich.handle_action rq db))
   | None =>
       Rich.handle_action rq db = (db, Rejected InvalidCharacterOrToken)
   end)
  /\ conversations (Rich.worldTick pick db) = conversations db
  /\ memories (Rich.worldTick pick db) = memories db.
Proof.
  split; [|apply worldTick_records].
  unfold Rich.handle_action.
  destruct (authenticate _ _ _) as [me|]; [|reflexivity].
  destruct (negb _); [now split|].
  pose proof (dispatch_records db me rq) as Hd.
  destruct (Rich.dispatch db me rq) as [db' [r|result]]; exact Hd.
Qed.

End RecordProperties.

Module ClockProperties.
Import Leveling Text Store Core Invariants StoreFacts ClockClaims.

Lemma nth_pick_In (pick : nat) (pool : list string) :
  pool <> [] -> In (nth (pick mod length pool) pool EmptyString) pool.
Proof.
  intros Hne. apply nth_In. apply Nat.mod_upper_bound.
  destruct pool; [congruence | discriminate].
Qed.

(** X16.  After a tick the stored night flag, NULL read as false, is the
    phase of the cycle at the new tick: night exactly when the remainder
    of the tick by the cycle length is at least the day length (never,
    for a cycle of length 0).  The tick broadcasts the transition, when
    the phase differs from the stored flag, then the tick event with the
    new phase, then on every hundredth tick one ambient event, whose text
    is one of the five of the pool of the new phase; it logs the
    transition and the ambient event and nothing else. *)
Theorem tick_sets_the_phase (pick : nat) (db : DB) :
  let w := world db in
  let tick := w_tick w + 1 in
  let day := or_default (w_day_length w) 200 in
  let cycle := day + or_default (w_night_length w) 50 in
  let night := if cycle =? 0 then false else day <=? Z.rem tick cycle in
  let old := match w_is_night w with Some b => b | None => false end in
  let turn :=
    if night then "Night falls over the meadow. The world grows quiet..."%string
    else "Dawn breaks! A new day begins in the meadow."%string in
  let pool := if night then Rich.nightEvents else Rich.dayEvents in
  let event := nth (pick mod length pool) pool EmptyString in
  let db' := Rich.worldTick pick db in
  match w_is_night (world db') with Some b => b | None => false end = night
  /\ In event pool
  /\ sent db'
     = sent db
       ++ (if Bool.eqb night old then [] else [BDayNight tick night turn])
       ++ [BTick tick (Some night)]
       ++ (if Z.rem tick 100 =? 0 then [BEvent tick event] else [])
  /\ activity_log db'
     = activity_log db
       ++ (if Bool.eqb night old then []
           else [{| a_tick := tick; a_character_id := None;
                    a_action := "world_event"; a_message := turn |}])
       ++ (if Z.rem tick 100 =? 0
           then [{| a_tick := tick; a_character_id := None;
                    a_action := "world_event"; a_message := event |}]
           else []).
Proof.
  cbv zeta. split; [|split].
  - unfold Rich.worldTick.
    cbn [world set_world Rich.advance_tick w_tick w_day_length w_night_length w_is_night].
    set (night := if _ =? 0 then false else _).
    destruct (Bool.eqb night _) eqn:Hsame.
    + apply Bool.eqb_prop in Hsame.
      repeat match goal with
             | |- context [if ?b then _ else _] => destruct b
             end; cbn; congruence.
    + repeat match goal with
             | |- context [if ?b then _ else _] => destruct b
             end; reflexivity.
  - apply nth_pick_In. now destruct (if _ =? 0 then false else _).
  - unfold Rich.worldTick.
    cbn [world set_world Rich.advance_tick w_tick w_day_length w_night_length w_is_night].
    set (night := if _ =? 0 then false else _).
    destruct (Bool.eqb night _);
      destruct (Z.rem (w_tick (world db) + 1) 10 =? 0);
      destruct (Z.rem (w_tick (world db) + 1) 50 =? 0);
      destruct (Z.rem (w_tick (world db) + 1) 100 =? 0);
      cbn; rewrite <- ?app_assoc, ?app_nil_r; split; reflexivity.
Qed.

End ClockProperties.

Module LookProperties.
Import Leveling Text Store Core Look Invariants StoreFacts ListenerClaims.

(** X17.  Every direction [getMoveToward] suggests for a target is one of
    the table of the move case, and the step in that direction brings the
    character one tile closer to the target in Manhattan distance.  It
    suggests nothing exactly when the target is the character's own tile,
    which is when [getDirection] says 'here'. *)
Theorem getMoveToward_approaches (x y tx ty : Z) :
  Forall (fun d =>
            exists x' y',
              step_to d x y = Some (x', y')
              /\ Z.abs (tx - x') + Z.abs (ty - y')
                 = Z.abs (tx - x) + Z.abs (ty - y) - 1)
    (getMoveToward (tx - x) (ty - y))
  /\ (getMoveToward (tx - x) (ty - y) = [] <-> (tx = x /\ ty = y))
  /\ (getDirection (tx - x) (ty - y) = "here"%string <-> (tx = x /\ ty = y)).
Proof.
  unfold getMoveToward, getDirection. cbv zeta.
  destruct (Z.ltb_spec (ty - y) 0), (Z.ltb_spec 0 (ty - y)),
           (Z.ltb_spec 0 (tx - x)), (Z.ltb_spec (tx - x) 0);
    try lia; cbn [app];
    (split;
     [ repeat (apply Forall_cons; split; [eexists _, _; split; [reflexivity | lia]|]);
       apply Forall_nil; exact I
     | split;
       (split;
        [ intros Heq; try discriminate Heq; lia
        | intros [? ?]; try reflexivity; lia ]) ]).
Qed.

Lemma boundaries_blocked (w : WorldRow) (me : Character) (d : string) :
  In d (snd (boundaries w me))
  <-> (d = "north"%string /\ c_y me = 0)
      \/ (d = "south"%string /\ c_y me = w_height w - 1)
      \/ (d = "east"%string /\ c_x me = w_width w - 1)
      \/ (d = "west"%string /\ c_x me = 0).
Proof.
  unfold boundaries, push_move.
  destruct (Z.eqb_spec (c_y me) 0), (Z.eqb_spec (c_y me) (w_height w - 1)),
           (Z.eqb_spec (c_x me) (w_width w - 1)), (Z.eqb_spec (c_x me) 0);
    cbn; intuition (subst; try discriminate; try lia; auto).
Qed.

Lemma boundaries_open (w : WorldRow) (me : Character) (d : string) :
  In d (fst (boundaries w me))
  <-> (d = "north"%string /\ c_y me <> 0)
      \/ (d = "south"%string /\ c_y me <> w_height w - 1)
      \/ (d = "east"%string /\ c_x me <> w_width w - 1)
      \/ (d = "west"%string /\ c_x me <> 0).
Proof.
  unfold boundaries, push_move.
  destruct (Z.eqb_spec (c_y me) 0), (Z.eqb_spec (c_y me) (w_height w - 1)),
           (Z.eqb_spec (c_x me) (w_width w - 1)), (Z.eqb_spec (c_x me) 0);
    cbn; intuition (subst; try discriminate; try lia; auto).
Qed.

(** The answer of the move case to one of the four directions. *)
Lemma move_answer (db : DB) (rq : Request) (me : Character) (d : string)
    (dx dy : Z) :
  authenticate db (rq_charId rq) (rq_token rq) = Some me ->
  canAct db (rq_charId rq) = true ->
  rq_action rq = "move"%string ->
  rq_direction rq = Some d ->
  dirs (toLowerCase d) = Some (dx, dy) ->
  snd (Rich.handle_action rq db) = Rejected OutOfBounds
  <-> ~ (0 <= c_x me + dx < w_width (world db)
         /\ 0 <= c_y me + dy < w_height (world db)).
Proof.
  intros Hauth Hturn Hact Hdir Hd.
  unfold Rich.handle_action, Rich.dispatch. rewrite Hauth, Hturn, Hact. cbn [negb].
  change ("move" =? "move")%string with true. cbv iota.
  unfold Rich.move_case. rewrite Hdir. cbv zeta. rewrite Hd.
  destruct (_ || _) eqn:Hb.
  - cbn. split; [intros _|reflexivity].
    rewrite !Bool.orb_true_iff, !Z.ltb_lt, !Z.leb_le in Hb. lia.
  - rewrite !Bool.orb_false_iff, !Z.ltb_ge, !Z.leb_gt in Hb.
    destruct (blocking_at _ _ _); cbn; (split; [discriminate | lia]).
Qed.

(** X18.  For a character inside the world, the directions the view
    lists as blocked are exactly the directions the move case refuses as
    the edge of the world, and the directions it lists as valid are
    exactly the others; each of the four directions is in one of the two
    lists.  A valid direction can still be refused by a blocking
    object. *)
Theorem blocked_moves_are_the_edge (db : DB) (charId : string)
    (token : option string) (me : Character) (info : LookInfo) (d : string)
    (Hauth : authenticate db charId token = Some me)
    (Hlook : look db charId token = Some info)
    (Hturn : canAct db charId = true)
    (Hx : 0 <= c_x me < w_width (world db))
    (Hy : 0 <= c_y me < w_height (world db))
    (Hd : In d ["north"; "south"; "east"; "west"]%string) :
  let rq := {| rq_charId := charId; rq_token := token; rq_action := "move";
               rq_direction := Some d; rq_target := None; rq_message := None |} in
  (In d (lk_blockedMoves info)
   <-> snd (Rich.handle_action rq db) = Rejected OutOfBounds)
  /\ (In d (lk_validMoves info)
      <-> snd (Rich.handle_action rq db) <> Rejected OutOfBounds).
Proof.
  cbv zeta. unfold look in Hlook. rewrite Hauth in Hlook. injection Hlook as <-.
  cbn [lk_blockedMoves lk_validMoves].
  rewrite boundaries_blocked, boundaries_open.
  destruct Hd as [<- | [<- | [<- | [<- | []]]]];
    match goal with
    | |- context [mkRequest _ _ _ (Some ?d) _ _] =>
        let H := fresh "Hmove" in
        pose proof (move_answer db
                      {| rq_charId := charId; rq_token := token; rq_action := "move";
                         rq_direction := Some d; rq_target := None;
                         rq_message := None |}
                      me d _ _ Hauth Hturn eq_refl eq_refl eq_refl) as H;
        rewrite H
    end;
    split; split; intros Hcase;
    try (intros Hin; revert Hcase);
    intuition (try discriminate; try lia).
Qed.

Lemma blocked_moves_are_the_edge_witness :
  let alice := Meadow.newcomer "alice" 0 3 in
  let db := Meadow.meadow 5 [alice] in
  let token := Some "token-alice"%string in
  let info := {| lk_canAct := true; lk_canTalk := false; lk_needsRest := false;
                 lk_validMoves := ["north"; "south"; "east"]%string;
                 lk_blockedMoves := ["west"]%string |} in
  let rq := {| rq_charId := "alice"; rq_token := token; rq_action := "move";
               rq_direction := Some "west"%string; rq_target := None;
               rq_message := None |} in
  look db "alice" token = Some info
  /\ (In "west"%string (lk_blockedMoves info)
      <-> snd (Rich.handle_action rq db) = Rejected OutOfBounds)
  /\ (In "west"%string (lk_validMoves info)
      <-> snd (Rich.handle_action rq db) <> Rejected OutOfBounds).
Proof.
  cbv zeta. split; [reflexivity|].
  apply (blocked_moves_are_the_edge (Meadow.meadow 5 [Meadow.newcomer "alice" 0 3])
           "alice" (Some "token-alice"%string) (Meadow.newcomer "alice" 0 3));
    try reflexivity; cbn; try lia; auto.
Defined.

(** X19.  When the view says that someone is close enough to talk, the
    talk query of the action route finds a listener, and the listener it
    finds is less than 2 tiles away. *)
Theorem canTalk_hint_is_sound (db : DB) (charId : string) (token : option string)
    (me : Character) (info : LookInfo)
    (Hauth : authenticate db charId token = Some me)
    (Hlook : look db charId token = Some info)
    (Hcan : lk_canTalk info = true) :
  exists l,
    nearby_listener db charId (c_x me) (c_y me) = Some l
    /\ dist2 (c_x me) (c_y me) l < 4.
Proof.
  unfold look in Hlook. rewrite Hauth in Hlook. injection Hlook as <-.
  cbn [lk_canTalk] in Hcan. apply existsb_exists in Hcan as (c & Hin & Hnear).
  unfold others in Hin. apply List.filter_In in Hin as [Hin Hc].
  repeat (apply andb_prop in Hc as [Hc ?]).
  apply Bool.negb_true_iff, String.eqb_neq in Hc.
  unfold within_talk_hint in Hnear. apply Z.ltb_lt in Hnear.
  assert (Hcand : talk_candidate charId (c_x me) (c_y me) c = true).
  { apply talk_candidate_spec. unfold dist2 in Hnear. rewrite !Z.pow_2_r in Hnear.
    repeat split; try assumption; nia. }
  destruct (nearby_listener db charId (c_x me) (c_y me)) as [l|] eqn:Hl.
  - exists l. split; [reflexivity|].
    apply nearby_listener_Some in Hl as (_ & _ & Hleast).
    specialize (Hleast c Hin Hc ltac:(assumption)). lia.
  - exfalso. rewrite nearby_listener_None in Hl. specialize (Hl c Hin). congruence.
Qed.

Lemma canTalk_hint_is_sound_witness :
  let alice := Meadow.newcomer "alice" 5 5 in
  let db := Meadow.meadow 5 [alice; Meadow.newcomer "bob" 6 6] in
  let token := Some "token-alice"%string in
  authenticate db "alice" token = Some alice
  /\ (exists info, look db "alice" token = Some info /\ lk_canTalk info = true)
  /\ exists l,
       nearby_listener db "alice" (c_x alice) (c_y alice) = Some l
       /\ dist2 (c_x alice) (c_y alice) l < 4.
Proof.
  cbv zeta. split; [reflexivity|]. split; [eexists; split; reflexivity|].
  eapply (canTalk_hint_is_sound (Meadow.meadow 5 [Meadow.newcomer "alice" 5 5;
                                                  Meadow.newcomer "bob" 6 6])
            "alice" (Some "token-alice"%string) (Meadow.newcomer "alice" 5 5));
    reflexivity.
Defined.

End LookProperties.

Module CleanupFacts.
Import Text Store Core Cleanup Invariants StoreFacts EvolutionFacts.

Lemma seen_spec (t : string) (seen : list string) :
  existsb (String.eqb t) seen = true <-> In t seen.
Proof.
  rewrite existsb_exists. split.
  - intros (x & Hin & Heq). apply String.eqb_eq in Heq. now subst.
  - intros Hin. exists t. split; [exact Hin | apply String.eqb_refl].
Qed.

Lemma seen_spec_false (t : string) (seen : list string) :
  existsb (String.eqb t) seen = false <-> ~ In t seen.
Proof.
  rewrite <- seen_spec. now destruct (existsb _ _).
Qed.

(** A first-meeting moment the filter keeps was not seen before. *)
Lemma filter_seen_fresh (seen : list string) (ms : list Moment) (m : Moment) :
  In m (filter_seen seen ms) -> is_meeting m = true -> ~ In (m_moment m) seen.
Proof.
  revert seen. induction ms as [|a rest IH]; intros seen; cbn; [tauto|].
  destruct (is_meeting a) eqn:Ha.
  - destruct (existsb _ seen) eqn:Hseen; [apply IH|].
    intros [<- | Hin] Hm.
    + now apply seen_spec_false.
    + intros Hs. apply (IH _ Hin Hm). now right.
  - intros [<- | Hin] Hm; [congruence | now apply IH].
Qed.

Lemma filter_seen_nodup (seen : list string) (ms : list Moment) :
  NoDup (map m_moment (List.filter is_meeting (filter_seen seen ms))).
Proof.
  revert seen. induction ms as [|a rest IH]; intros seen; cbn; [apply NoDup_nil_2|].
  destruct (is_meeting a) eqn:Ha.
  - destruct (existsb _ seen); [apply IH|].
    cbn. rewrite Ha. cbn. apply NoDup_cons_2; [|apply IH].
    intros Hin. apply list_elem_of_In, in_map_iff in Hin as (m & Heq & Hin).
    apply List.filter_In in Hin as [Hin Hm].
    apply (filter_seen_fresh _ _ _ Hin Hm). rewrite Heq. now left.
  - cbn. rewrite Ha. apply IH.
Qed.

Lemma filter_seen_others (seen : list string) (ms : list Moment) :
  List.filter (fun m => negb (is_meeting m)) (filter_seen seen ms)
  = List.filter (fun m => negb (is_meeting m)) ms.
Proof.
  revert seen. induction ms as [|a rest IH]; intros seen; cbn; [reflexivity|].
  destruct (is_meeting a) eqn:Ha; cbn.
  - destruct (existsb _ seen); cbn; rewrite ?Ha; cbn; apply IH.
  - rewrite Ha. cbn. f_equal. apply IH.
Qed.

Lemma filter_seen_sublist (seen : list string) (ms : list Moment) :
  sublist (filter_seen seen ms) ms.
Proof.
  revert seen. induction ms as [|a rest IH]; intros seen; cbn; [constructor|].
  destruct (is_meeting a).
  - destruct (existsb _ seen); [apply sublist_cons | apply sublist_skip]; apply IH.
  - apply sublist_skip, IH.
Qed.

(** A text that was not seen before survives, in its first occurrence. *)
Lemma filter_seen_keeps (seen : list string) (ms : list Moment) (m : Moment) :
  In m ms -> is_meeting m = true -> ~ In (m_moment m) seen ->
  exists m', In m' (filter_seen seen ms) /\ m_moment m' = m_moment m.
Proof.
  revert seen. induction ms as [|a rest IH]; intros seen; cbn; [tauto|].
  intros [<- | Hin] Hm Hfresh.
  - rewrite Hm. apply seen_spec_false in Hfresh. rewrite Hfresh.
    exists a. split; [now left | reflexivity].
  - destruct (is_meeting a) eqn:Ha.
    + destruct (existsb _ seen) eqn:Hseen; [now apply IH|].
      destruct (String.eqb_spec (m_moment a) (m_moment m)) as [Heq|Hne].
      * exists a. split; [now left | exact Heq].
      * destruct (IH (m_moment a :: seen) Hin Hm) as (m' & Hin' & Heq').
        { intros [Hs | Hs]; [now apply Hne | now apply Hfresh]. }
        exists m'. split; [now right | exact Heq'].
    + destruct (IH seen Hin Hm Hfresh) as (m' & Hin' & Heq').
      exists m'. split; [now right | exact Heq'].
Qed.

Lemma filter_seen_idem (seen2 seen : list string) (ms : list Moment) :
  (forall t, In t seen2 -> In t seen) ->
  filter_seen seen2 (filter_seen seen ms) = filter_seen seen ms.
Proof.
  revert seen2 seen. induction ms as [|a rest IH]; intros seen2 seen Hincl; cbn;
    [reflexivity|].
  destruct (is_meeting a) eqn:Ha.
  - destruct (existsb _ seen) eqn:Hseen; [now apply IH|].
    cbn. rewrite Ha.
    assert (Hseen2 : existsb (String.eqb (m_moment a)) seen2 = false).
    { apply seen_spec_false. intros Hin. apply seen_spec_false in Hseen. auto. }
    rewrite Hseen2. f_equal. apply IH. intros t [<- | Hin]; [now left | right; auto].
  - cbn. rewrite Ha. f_equal. now apply IH.
Qed.

Lemma filter_seen_same_length (seen : list string) (ms : list Moment) :
  length (filter_seen seen ms) = length ms -> filter_seen seen ms = ms.
Proof.
  revert seen. induction ms as [|a rest IH]; intros seen; cbn; [reflexivity|].
  destruct (is_meeting a).
  - destruct (existsb _ seen).
    + intros Hlen. pose proof (sublist_length _ _ (filter_seen_sublist seen rest)). lia.
    + cbn. intros [= Hlen]. f_equal. now apply IH.
  - cbn. intros [= Hlen]. f_equal. now apply IH.
Qed.

Lemma clean_row_moments (c : Character) :
  moments_of (clean_row c) = dedupe (moments_of c).
Proof.
  unfold clean_row. cbv zeta.
  destruct (0 <? _)%nat eqn:Hremoved; [reflexivity|].
  apply Nat.ltb_ge in Hremoved. symmetry. apply filter_seen_same_length.
  pose proof (sublist_length _ _ (filter_seen_sublist [] (moments_of c))).
  unfold dedupe in *. lia.
Qed.

Lemma clean_row_id (c : Character) : c_id (clean_row c) = c_id c.
Proof. unfold clean_row. cbv zeta. now destruct (0 <? _)%nat. Qed.

Lemma clean_row_idem (c : Character) : clean_row (clean_row c) = clean_row c.
Proof.
  unfold clean_row at 1. cbv zeta. rewrite clean_row_moments.
  assert (Hidem : dedupe (dedupe (moments_of c)) = dedupe (moments_of c))
    by (unfold dedupe; apply filter_seen_idem; tauto).
  now rewrite Hidem, Nat.sub_diag.
Qed.

(** With unique ids the row found for the id of a row is that row. *)
Lemma find_own_row (l : list Character) (x : Character) :
  NoDup (map c_id l) -> In x l ->
  find (fun c => (c_id c =? c_id x)%string) l = Some x.
Proof.
  induction l as [|a rest IH]; cbn; [tauto|].
  intros Hnd. inversion Hnd as [|? ? Hnotin Hnd']; subst.
  intros [-> | Hin].
  - now rewrite String.eqb_refl.
  - destruct (String.eqb_spec (c_id a) (c_id x)) as [Heq|_]; [|now apply IH].
    exfalso. apply Hnotin, list_elem_of_In. rewrite Heq. now apply in_map.
Qed.

Lemma set_characters_same (db : DB) : set_characters (characters db) db = db.
Proof. now destruct db. Qed.

(** The loop of the script over rows with unique ids. *)
Lemma cleanup_loop (rows : list Character) (db : DB) :
  NoDup (map c_id rows) ->
  fold_left (fun d char => cleanup_one char d) rows db
  = set_characters
      (map (fun x =>
              match find (fun c => (c_id c =? c_id x)%string) rows with
              | Some c =>
                  if (0 <? length (moments_of c) - length (dedupe (moments_of c)))%nat
                  then set_moments (dedupe (moments_of c)) x
                  else x
              | None => x
              end) (characters db))
      db.
Proof.
  revert db. induction rows as [|c rest IH]; intros db Hnd.
  - cbn. rewrite List.map_id. symmetry. apply set_characters_same.
  - inversion Hnd as [|? ? Hnotin Hnd']; subst.
    cbn [fold_left]. rewrite (IH _ Hnd').
    assert (Hrest : forall x, c_id x = c_id c ->
                      find (fun c0 => (c_id c0 =? c_id x)%string) rest = None).
    { intros x Hx. destruct (find _ rest) as [y|] eqn:Hy; [|reflexivity].
      exfalso. apply find_some in Hy as [Hin Heq]. apply String.eqb_eq in Heq.
      apply Hnotin, list_elem_of_In. rewrite <- Hx, <- Heq. now apply in_map. }
    unfold cleanup_one. cbv zeta.
    destruct (0 <? _)%nat eqn:Hremoved.
    + unfold update_character, set_characters. cbn. f_equal.
      rewrite List.map_map. apply List.map_ext. intros x.
      destruct (String.eqb_spec (c_id x) (c_id c)) as [Heq|Hne].
      * cbn [c_id set_moments]. rewrite (Hrest x Heq).
        cbn [find]. rewrite Heq, String.eqb_refl. cbn in Hremoved |- *.
        now rewrite Hremoved.
      * destruct (String.eqb_spec (c_id c) (c_id x)); [congruence|]. reflexivity.
    + f_equal. apply List.map_ext. intros x. cbn [find].
      destruct (String.eqb_spec (c_id c) (c_id x)) as [Heq|_]; [|reflexivity].
      rewrite Hremoved. now rewrite (Hrest x (eq_sym Heq)).
Qed.

End CleanupFacts.

Module CleanupProperties.
Import Text Store Core Cleanup Invariants StoreFacts CleanupFacts.

(** X20.  The filter of the cleanup script keeps the moments in their
    order, keeps every moment that is not a first meeting, leaves no two
    first-meeting moments with the same text, keeps one moment of every
    text that was there, and changes nothing when run again. *)
Theorem dedupe_keeps_one_of_each (ms : list Moment) :
  sublist (dedupe ms) ms
  /\ List.filter (fun m => negb (is_meeting m)) (dedupe ms)
     = List.filter (fun m => negb (is_meeting m)) ms
  /\ NoDup (map m_moment (List.filter is_meeting (dedupe ms)))
  /\ (forall m, In m ms -> exists m', In m' (dedupe ms) /\ m_moment m' = m_moment m)
  /\ dedupe (dedupe ms) = dedupe ms.
Proof.
  unfold dedupe. split; [apply filter_seen_sublist|].
  split; [apply filter_seen_others|]. split; [apply filter_seen_nodup|].
  split; [|now apply filter_seen_idem].
  intros m Hin. destruct (is_meeting m) eqn:Hm.
  - apply filter_seen_keeps; [assumption | assumption | intros []].
  - exists m. split; [|reflexivity].
    assert (Hkept : In m (List.filter (fun m => negb (is_meeting m)) ms)).
    { apply List.filter_In. split; [exact Hin | now rewrite Hm]. }
    rewrite <- (filter_seen_others [] ms) in Hkept.
    now apply List.filter_In in Hkept as [Hkept _].
Qed.

(** X21.  On a store with unique character ids the cleanup script
    replaces the moments of every character by the filtered moments and
    writes no other column and no other table; the moments of every
    character are then free of repeated first meetings, and a second run
    of the script changes nothing. *)
Theorem cleanup_removes_repeated_meetings (db : DB) (Hkey : unique_ids db) :
  cleanup db = set_characters (map clean_row (characters db)) db
  /\ (forall c, In c (characters (cleanup db)) ->
        NoDup (map m_moment (List.filter is_meeting (moments_of c))))
  /\ (forall id c, find_character db id = Some c ->
        exists c',
          find_character (cleanup db) id = Some c'
          /\ moments_of c' = dedupe (moments_of c)
          /\ c_life_story c' = c_life_story c
          /\ (c_x c', c_y c', c_xp c', c_level c') = (c_x c, c_y c, c_xp c, c_level c))
  /\ cleanup (cleanup db) = cleanup db.
Proof.
  assert (Hrows : forall d, unique_ids d ->
                    cleanup d = set_characters (map clean_row (characters d)) d).
  { intros d Hd. unfold cleanup. rewrite (cleanup_loop _ _ Hd). f_equal.
    apply List.map_ext_in. intros x Hin. rewrite (find_own_row _ _ Hd Hin).
    reflexivity. }
  split; [now apply Hrows|]. rewrite (Hrows db Hkey). split; [|split].
  - cbn. intros c Hin. apply in_map_iff in Hin as (c0 & <- & _).
    rewrite clean_row_moments. apply filter_seen_nodup.
  - intros id c Hc. unfold find_character in *. cbn [characters set_characters].
    rewrite (find_map_same_id clean_row id _ clean_row_id), Hc. cbn.
    exists (clean_row c). split; [reflexivity|]. split; [apply clean_row_moments|].
    unfold clean_row. cbv zeta. now destruct (0 <? _)%nat.
  - rewrite Hrows.
    + cbn. unfold set_characters. cbn. f_equal. rewrite List.map_map.
      apply List.map_ext. intros c. apply clean_row_idem.
    + unfold unique_ids in *. cbn. rewrite List.map_map.
      erewrite List.map_ext; [exact Hkey|]. intros c. apply clean_row_id.
Qed.

Lemma cleanup_removes_repeated_meetings_witness :
  let met who tick := {| m_tick := tick; m_category := "social";
                         m_moment := first_meeting who |} in
  let alice := Cleanup.set_moments [met "bob" 3; met "bob" 7] (Meadow.newcomer "alice" 5 5) in
  let db := Meadow.meadow 10 [alice] in
  unique_ids db
  /\ (map moments_of (characters (cleanup db))) = [[met "bob" 3]]
  /\ cleanup (cleanup db) = cleanup db.
Proof.
  cbv zeta.
  assert (Hkey : unique_ids
                   (Meadow.meadow 10
                      [Cleanup.set_moments
                         [{| m_tick := 3; m_category := "social";
                             m_moment := first_meeting "bob" |};
                          {| m_tick := 7; m_category := "social";
                             m_moment := first_meeting "bob" |}]
                         (Meadow.newcomer "alice" 5 5)])).
  { unfold unique_ids. cbn. apply NoDup_singleton. }
  split; [exact Hkey|]. split; [vm_compute; reflexivity|].
  apply (cleanup_removes_repeated_meetings _ Hkey).
Defined.

End CleanupProperties.

Module SettingsProperties.
Import Text Store Core Settings Invariants StoreFacts.

(** X22.  The settings route.  It answers 401 exactly when the token
    check fails, 400 exactly when the token is valid and the request has
    none of the three fields, and updates in every other case; the two
    errors leave the store.  An update writes the row of the character
    only: a turn interval in the request is stored clamped into 1..1000,
    an active flag as sent, and position, progress, energy, story and the
    stamp of the last action stay as they are, as do the rows of all
    other characters and all other tables. *)
Theorem settings_update_is_clamped (charId : string) (token : option string)
    (p : Patch) (db : DB) :
  let db' := fst (update_settings charId token p db) in
  let answer := snd (update_settings charId token p db) in
  let empty :=
    p_turn_interval p = None /\ p_personality p = None /\ p_is_active p = None in
  (answer = PatchUnauthorized <-> authenticate db charId token = None)
  /\ (answer = PatchNoUpdates <-> authenticate db charId token <> None /\ empty)
  /\ (answer = PatchUpdated <-> authenticate db charId token <> None /\ ~ empty)
  /\ (answer <> PatchUpdated -> db' = db)
  /\ (answer = PatchUpdated ->
      (world db', objects db', relationships db', memories db', conversations db',
       activity_log db', sent db')
      = (world db, objects db, relationships db, memories db, conversations db,
         activity_log db, sent db)
      /\ (forall id, id <> charId -> find_character db' id = find_character db id)
      /\ (exists c, find_character db charId = Some c)
      /\ forall c, find_character db charId = Some c ->
           exists c',
             find_character db' charId = Some c'
             /\ c_turn_interval c'
                = match p_turn_interval p with
                  | Some t => Z.max 1 (Z.min 1000 t)
                  | None => c_turn_interval c
                  end
             /\ (p_turn_interval p <> None -> 1 <= c_turn_interval c' <= 1000)
             /\ c_is_active c'
                = match p_is_active p with
                  | Some b => b
                  | None => c_is_active c
                  end
             /\ set_is_active (c_is_active c) (set_turn_interval (c_turn_interval c) c')
                = c).
Proof.
  cbv zeta. unfold update_settings.
  destruct (authenticate db charId token) as [me|] eqn:Hauth; cbn [fst snd].
  2:{ split; [tauto|]. split; [split; [discriminate|tauto]|].
      split; [split; [discriminate|tauto]|]. split; [reflexivity | discriminate]. }
  assert (Hempty : no_updates p = true
                   <-> p_turn_interval p = None /\ p_personality p = None
                       /\ p_is_active p = None).
  { unfold no_updates.
    destruct (p_turn_interval p), (p_personality p), (p_is_active p);
      split; try discriminate; try tauto; intros (? & ? & ?); discriminate. }
  destruct (no_updates p) eqn:Hno; cbn [fst snd].
  { split; [split; discriminate|]. split; [split; [intros _|reflexivity]|].
    - split; [discriminate | now apply Hempty].
    - split; [split; [discriminate|]|split; [reflexivity | discriminate]].
      intros [_ Hsome]. destruct Hsome. now apply Hempty. }
  split; [split; discriminate|]. split; [split; [discriminate|]|].
  { intros [_ Hall]. apply Hempty in Hall. discriminate. }
  split; [split; [intros _|reflexivity]|].
  { split; [discriminate|]. intros Hall. apply Hempty in Hall. discriminate. }
  split; [congruence|]. intros _.
  assert (Hid : forall c, c_id (apply_patch p c) = c_id c).
  { intros c. unfold apply_patch.
    destruct (p_turn_interval p), (p_is_active p); reflexivity. }
  split; [reflexivity|]. split; [|split].
  - intros id Hne. now apply find_character_update_other.
  - now destruct (authenticate_found _ _ _ _ Hauth) as [_ Hc].
  - intros c Hc. rewrite (find_character_update charId charId _ db Hid), Hc. cbn.
    rewrite String.eqb_refl. exists (apply_patch p c). split; [reflexivity|].
    unfold apply_patch. destruct c.
    destruct (p_turn_interval p) as [t|], (p_is_active p) as [b|]; cbn;
      repeat split; try reflexivity; try lia; congruence.
Qed.

Lemma settings_update_is_clamped_witness :
  let alice := Meadow.newcomer "alice" 5 5 in
  let db := Meadow.meadow 5 [alice; Meadow.newcomer "bob" 6 5] in
  let slow := {| p_turn_interval := Some 5000; p_personality := None;
                 p_is_active := Some false |} in
  let db' := fst (update_settings "alice" (Some "token-alice"%string) slow db) in
  snd (update_settings "alice" (Some "token-alice"%string) slow db) = PatchUpdated
  /\ (exists c', find_character db' "alice" = Some c'
                 /\ c_turn_interval c' = 1000 /\ c_is_active c' = false)
  /\ find_character db' "bob" = find_character db "bob".
Proof.
  cbv zeta.
  destruct (settings_update_is_clamped "alice" (Some "token-alice"%string)
              {| p_turn_interval := Some 5000; p_personality := None;
                 p_is_active := Some false |}
              (Meadow.meadow 5 [Meadow.newcomer "alice" 5 5; Meadow.newcomer "bob" 6 5]))
    as (_ & _ & _ & _ & Hupdated).
  destruct (Hupdated eq_refl) as (_ & Hothers & _ & Hrow).
  split; [reflexivity|]. split.
  - destruct (Hrow (Meadow.newcomer "alice" 5 5) eq_refl)
      as (c' & Hc' & Hturn & _ & Hactive & _).
    exists c'. split; [exact Hc'|]. split; [exact Hturn | exact Hactive].
  - apply Hothers. discriminate.
Defined.

End SettingsProperties.

Module MaintenanceProperties.
Import Leveling Text Store Core Effects Invariants Maintenance StoreFacts ListenerClaims
       TalkFacts TalkClaims History.

(** X23.  After the reset script every pair has no recent exchanges and
    no cooldown, and the rows are otherwise as they were.  From tick 0
    on, a talk attempt is then accepted as the first exchange of a
    conversation: the exchange count is 1, and the speaker gains 5 XP
    with a listener it has a row for and 20 XP with one it has none
    for. *)
Theorem reset_cooldowns_reopens_talk (db : DB) (rq : Request) (me l : Character)
    (message : string)
    (Htick : 0 <= w_tick (world db))
    (Htalk : Rich.talks_to (reset_cooldowns db) rq me l message) :
  let a := rq_charId rq in
  let b := c_id l in
  let db0 := reset_cooldowns db in
  (forall x y, Rich.recent_exchanges_of db0 x y = 0 /\ Rich.cooldown_until_of db0 x y = 0)
  /\ (forall key,
        relationships db0 !! key = reset_row <$> relationships db !! key)
  /\ exists db' msg xp energy warning cooldownIn,
       Rich.handle_action rq db0
       = (db', Accepted (Talked msg (c_name l) xp energy 1 warning cooldownIn))
       /\ xp_of db' a - xp_of db0 a
          = match relationships db !! (a, b) with
            | None => 20
            | Some _ => 5
            end.
Proof.
  cbv zeta.
  assert (Hrows : forall key,
             relationships (reset_cooldowns db) !! key
             = reset_row <$> relationships db !! key).
  { intros key. unfold reset_cooldowns. cbn [relationships set_relationships].
    apply lookup_fmap. }
  assert (Hzero : forall x y,
             Rich.recent_exchanges_of (reset_cooldowns db) x y = 0
             /\ Rich.cooldown_until_of (reset_cooldowns db) x y = 0).
  { intros x y. unfold Rich.recent_exchanges_of, Rich.cooldown_until_of.
    rewrite Hrows. destruct (relationships db !! (x, y)); now split. }
  split; [exact Hzero|]. split; [exact Hrows|].
  destruct (Hzero (rq_charId rq) (c_id l)) as [Hrecent Hcool].
  destruct (rich_talk_accepted _ rq me l message Htalk) as (msg & xp & e & w & ci & Hok).
  { unfold Rich.on_cooldown, Rich.stored_cooldown. rewrite Hrows.
    change (world (reset_cooldowns db)) with (world db).
    destruct (relationships db !! (rq_charId rq, c_id l));
      cbn [fmap option_fmap option_map reset_row r_cooldown_until_tick];
      [now apply TextFacts.text_not_below_zero | now apply Z.ltb_ge]. }
  rewrite Hrecent in Hok. cbn in Hok.
  eexists _, msg, xp, e, w, ci. split; [exact Hok|].
  destruct (rich_talk_rows _ rq me l message Htalk) as (a0 & b0 & Ha0 & _ & Hrow & _).
  cbn [fst]. unfold xp_of. rewrite Hrow, Ha0.
  cbn [c_xp set_last_action_tick]. rewrite speaker_row_xp, Hrecent, Hrows.
  destruct (relationships db !! (rq_charId rq, c_id l)); cbn;
    unfold XP_talk, XP_first_meeting; change (0 + 1 <=? 5) with true; cbv iota; lia.
Qed.

Lemma reset_cooldowns_reopens_talk_witness :
  let db := Meadow.neighbours 100 (Some (Meadow.acquainted 15 130)) in
  let rq := Meadow.submit "alice" "talk" None None (Some "hello"%string) in
  let alice := Meadow.newcomer "alice" 5 5 in
  let bob := Meadow.newcomer "bob" 6 5 in
  0 <= w_tick (world db)
  /\ Rich.talks_to (reset_cooldowns db) rq alice bob "hello"
  /\ (exists ticks, Rich.handle_action rq db
                    = (db, Rejected (ConversationCooldown "bob" ticks)))
  /\ exists db' msg xp energy warning cooldownIn,
       Rich.handle_action rq (reset_cooldowns db)
       = (db', Accepted (Talked msg "bob" xp energy 1 warning cooldownIn))
       /\ xp_of db' "alice" - xp_of (reset_cooldowns db) "alice" = 5.
Proof.
  cbv zeta.
  assert (Htick : 0 <= w_tick (world (Meadow.neighbours 100 (Some (Meadow.acquainted 15 130)))))
    by (cbn; lia).
  assert (Htalk : Rich.talks_to
                    (reset_cooldowns (Meadow.neighbours 100 (Some (Meadow.acquainted 15 130))))
                    (Meadow.submit "alice" "talk" None None (Some "hello"%string))
                    (Meadow.newcomer "alice" 5 5) (Meadow.newcomer "bob" 6 5) "hello").
  { repeat split; try reflexivity; [discriminate | vm_compute; discriminate]. }
  split; [exact Htick|]. split; [exact Htalk|].
  split; [eexists; vm_compute; reflexivity|].
  destruct (reset_cooldowns_reopens_talk _ _ _ _ _ Htick Htalk) as (_ & _ & Hopen).
  exact Hopen.
Defined.

End MaintenanceProperties.

Module SimpleTalkFacts.
Import Leveling Text Store Core Effects Invariants StoreFacts StoryClaims ListenerClaims
       TalkFacts TalkClaims History.

Lemma simple_talk_commit_frame (db : DB) (me l : Character) (a message : string) :
  relationships (fst (Simple.talk_commit db me l a message))
  = relationships (Simple.upsert_relationship a (c_id l) (w_tick (world db)) db)
  /\ conversations (fst (Simple.talk_commit db me l a message))
     = conversations db
       ++ [{| cv_tick := w_tick (world db); cv_speaker_id := a;
              cv_listener_id := c_id l; cv_message := slice_first 500 message |}].
Proof.
  unfold Simple.talk_commit. cbv zeta.
  cbn [relationships insert_memory insert_conversation].
  name_award a. cbn [fst relationships conversations broadcast insert_log].
  subst db7. destruct (awardXp_frame a
    (if match relationships db !! (a, c_id l) with None => true | Some _ => false end
     then XP_first_meeting else XP_talk) db6) as (_ & _ & -> & _ & ->).
  subst db6. destruct (relationships db !! (a, c_id l)).
  - now split.
  - match goal with
    | |- context [addSignificantMoment ?i ?m ?c (addSignificantMoment ?i' ?m' ?c' ?d)] =>
        destruct (addSignificantMoment_frame i m c (addSignificantMoment i' m' c' d))
          as (_ & _ & -> & _ & -> & _);
        destruct (addSignificantMoment_frame i' m' c' d) as (_ & _ & -> & _ & -> & _)
    end.
    now split.
Qed.

(** The speaker's row after the [talk_commit] of the simpler variant. *)
Lemma simple_talk_commit_speaker (db : DB) (me l : Character) (a message : string)
    (a0 : Character) :
  find_character db a = Some a0 -> c_id l <> a ->
  let first := match relationships db !! (a, c_id l) with
               | None => true
               | Some _ => false
               end in
  let a1 := if first then met (w_tick (world db)) (c_name l) a0 a0 else a0 in
  find_character (fst (Simple.talk_commit db me l a message)) a
  = Some (award_row a1 (if first then XP_first_meeting else XP_talk) a1).
Proof.
  intros Ha Hne. cbv zeta. unfold Simple.talk_commit. cbv zeta.
  cbn [relationships insert_memory insert_conversation].
  set (first := match relationships db !! (a, c_id l) with
                | None => true
                | Some _ => false
                end).
  name_award a.
  assert (H6 : find_character db6 a
               = Some (if first then met (w_tick (world db)) (c_name l) a0 a0 else a0)).
  { subst db6. destruct first.
    - rewrite find_character_addSignificantMoment_other by congruence.
      erewrite find_character_addSignificantMoment by exact Ha.
      change (find_character (Simple.upsert_relationship ?x ?y ?t ?d) ?i)
        with (find_character d i).
      autorewrite with find_db. rewrite Ha. cbn. now rewrite String.eqb_refl.
    - exact Ha. }
  cbn [fst]. autorewrite with find_db. subst db7.
  rewrite (find_character_awardXp _ _ _ _ _ H6), H6. cbn.
  now rewrite String.eqb_refl.
Qed.

End SimpleTalkFacts.

Module SimpleTalkProperties.
Import Leveling Text Store Core Effects Invariants StoreFacts StoryClaims ListenerClaims
       TalkFacts TalkClaims SimpleTalkFacts History.

(** X24.  The talk of the simpler variant.  A talk that passes the token
    check, the turn gate and the message check and finds a listener is
    always accepted: no energy and no cooldown is checked.  The speaker
    gains 20 XP on the first talk to the listener and 5 XP on every later
    one, its energy is not written, the fatigue and the cooldown of every
    pair read as before, and the conversation row holds the first 500
    characters of the message. *)
Theorem simple_talk_has_no_fatigue (db : DB) (rq : Request) (me l : Character)
    (message : string)
    (Hauth : authenticate db (rq_charId rq) (rq_token rq) = Some me)
    (Hturn : canAct db (rq_charId rq) = true)
    (Hact : rq_action rq = "talk"%string)
    (Hmsg : rq_message rq = Some message)
    (Hne : message <> EmptyString)
    (Hl : nearby_listener db (rq_charId rq) (c_x me) (c_y me) = Some l) :
  let a := rq_charId rq in
  let b := c_id l in
  exists db' msg xp,
    Simple.handle_action rq db = (db', Accepted (TalkedSimple msg (c_name l) xp))
    /\ xp_of db' a - xp_of db a
       = match relationships db !! (a, b) with
         | None => 20
         | Some _ => 5
         end
    /\ c_energy <$> find_character db' a = c_energy <$> find_character db a
    /\ (forall x y,
          Rich.recent_exchanges_of db' x y = Rich.recent_exchanges_of db x y
          /\ Rich.cooldown_until_of db' x y = Rich.cooldown_until_of db x y)
    /\ conversations db'
       = conversations db
         ++ [{| cv_tick := w_tick (world db); cv_speaker_id := a; cv_listener_id := b;
                cv_message := slice_first 500 message |}].
Proof.
  cbv zeta.
  rewrite (simple_talk_route db rq me message Hauth Hturn Hact Hmsg Hne), Hl.
  destruct (simple_talk_commit_accepted db me l (rq_charId rq) message)
    as (dbT & msg & xp & Hcommit).
  pose proof (simple_talk_commit_frame db me l (rq_charId rq) message) as [Hrel Hconv].
  destruct (authenticate_found _ _ _ _ Hauth) as [_ [a0 Ha0]].
  assert (Hdistinct : c_id l <> rq_charId rq).
  { apply nearby_listener_Some in Hl as (_ & Hcand & _).
    now apply talk_candidate_spec in Hcand. }
  pose proof (simple_talk_commit_speaker db me l (rq_charId rq) message a0 Ha0 Hdistinct)
    as Hrow. cbv zeta in Hrow.
  rewrite Hcommit in *. cbn [fst snd] in *.
  exists (updateLastAction (rq_charId rq) dbT), msg, xp. split; [reflexivity|].
  assert (Hfound : find_character (updateLastAction (rq_charId rq) dbT) (rq_charId rq)
                   = Some (set_last_action_tick (w_tick (world dbT))
                             (award_row
                                (if match relationships db !! (rq_charId rq, c_id l) with
                                    | None => true
                                    | Some _ => false
                                    end
                                 then met (w_tick (world db)) (c_name l) a0 a0 else a0)
                                (if match relationships db !! (rq_charId rq, c_id l) with
                                    | None => true
                                    | Some _ => false
                                    end
                                 then XP_first_meeting else XP_talk)
                                (if match relationships db !! (rq_charId rq, c_id l) with
                                    | None => true
                                    | Some _ => false
                                    end
                                 then met (w_tick (world db)) (c_name l) a0 a0 else a0)))).
  { unfold updateLastAction. find_update. rewrite Hrow. cbn.
    now rewrite String.eqb_refl. }
  split; [|split; [|split]].
  - unfold xp_of. rewrite Hfound, Ha0. cbn [c_xp set_last_action_tick].
    rewrite award_row_xp.
    destruct (relationships db !! (rq_charId rq, c_id l)); cbn;
      unfold XP_first_meeting, XP_talk; lia.
  - rewrite Hfound, Ha0. cbn. unfold award_row. cbv zeta.
    destruct (relationships db !! (rq_charId rq, c_id l)); destruct (_ <? _); reflexivity.
  - intros x y. unfold Rich.recent_exchanges_of, Rich.cooldown_until_of.
    unfold updateLastAction.
    change (relationships (update_character ?i ?f ?d)) with (relationships d).
    rewrite Hrel. unfold Simple.upsert_relationship.
    cbn [relationships set_relationships].
    destruct (decide ((x, y) = (rq_charId rq, c_id l))) as [[= -> ->]|Hother].
    + rewrite lookup_insert_eq.
      destruct (relationships db !! (rq_charId rq, c_id l)); now split.
    + rewrite lookup_insert_ne by congruence. now split.
  - exact Hconv.
Qed.

Lemma simple_talk_has_no_fatigue_witness :
  let db := Meadow.neighbours 100 (Some (Meadow.acquainted 15 130)) in
  let rq := Meadow.submit "alice" "talk" None None (Some "hello"%string) in
  let alice := Meadow.newcomer "alice" 5 5 in
  let bob := Meadow.newcomer "bob" 6 5 in
  authenticate db (rq_charId rq) (rq_token rq) = Some alice
  /\ canAct db (rq_charId rq) = true
  /\ nearby_listener db (rq_charId rq) (c_x alice) (c_y alice) = Some bob
  /\ exists db' msg xp,
       Simple.handle_action rq db = (db', Accepted (TalkedSimple msg "bob" xp))
       /\ xp_of db' "alice" - xp_of db "alice" = 5.
Proof.
  cbv zeta. split; [reflexivity|]. split; [reflexivity|]. split; [reflexivity|].
  destruct (simple_talk_has_no_fatigue
              (Meadow.neighbours 100 (Some (Meadow.acquainted 15 130)))
              (Meadow.submit "alice" "talk" None None (Some "hello"%string))
              (Meadow.newcomer "alice" 5 5) (Meadow.newcomer "bob" 6 5) "hello"
              eq_refl eq_refl eq_refl eq_refl ltac:(discriminate) eq_refl)
    as (db' & msg & xp & Hok & Hxp & _).
  exists db', msg, xp. split; [exact Hok | exact Hxp].
Defined.

End SimpleTalkProperties.

Module SummaryFacts.
Import Text Store Summaries.

Lemma same_tick_spec (e s : Summary) : same_tick e s = true <-> s_tick e = s_tick s.
Proof.
  unfold same_tick. destruct (s_tick e) as [x|], (s_tick s) as [y|];
    try (split; [discriminate | congruence]); [|tauto].
  rewrite Z.eqb_eq. split; congruence.
Qed.

Lemma key_eqb_spec (k1 k2 : string * string) : key_eqb k1 k2 = true <-> k1 = k2.
Proof.
  unfold key_eqb. destruct k1, k2. cbn.
  rewrite Bool.andb_true_iff, !String.eqb_eq. split; [intros [-> ->]|intros [= -> ->]]; auto.
Qed.

Lemma key_eqb_refl (k : string * string) : key_eqb k k = true.
Proof. now apply key_eqb_spec. Qed.

Lemma key_eqb_neq (k1 k2 : string * string) : key_eqb k1 k2 = false <-> k1 <> k2.
Proof.
  rewrite <- key_eqb_spec. now destruct (key_eqb k1 k2).
Qed.

(** *** The order of the two ids *)

Lemma ltb_total (a b : string) : String.ltb a b = false -> String.ltb b a = false -> a = b.
Proof.
  unfold String.ltb. pose proof (String.compare_antisym a b) as Hanti.
  destruct (String.compare a b) eqn:Hab, (String.compare b a) eqn:Hba;
    cbn in Hanti; try discriminate; intros _ _.
  now apply String.compare_eq_iff.
Qed.

Lemma ltb_asym (a b : string) : String.ltb a b = true -> String.ltb b a = false.
Proof.
  unfold String.ltb. pose proof (String.compare_antisym a b) as Hanti.
  destruct (String.compare a b), (String.compare b a); cbn in Hanti; congruence.
Qed.

Lemma sorted_key_cases (a b : string) :
  sorted_key a b = (a, b) \/ sorted_key a b = (b, a).
Proof. unfold sorted_key. destruct (String.ltb b a); auto. Qed.

Lemma sorted_key_sym (a b : string) : sorted_key a b = sorted_key b a.
Proof.
  unfold sorted_key.
  destruct (String.ltb b a) eqn:Hba, (String.ltb a b) eqn:Hab; try reflexivity.
  - apply ltb_asym in Hba. congruence.
  - now rewrite (ltb_total _ _ Hab Hba).
Qed.

(** The key is in order: the second id is not before the first. *)
Lemma sorted_key_ordered (a b : string) :
  String.ltb (snd (sorted_key a b)) (fst (sorted_key a b)) = false.
Proof.
  unfold sorted_key. destruct (String.ltb b a) eqn:Hba; cbn; [|exact Hba].
  now apply ltb_asym.
Qed.

Lemma sorted_key_same_pair (x y a b : string) :
  sorted_key x y = sorted_key a b -> (x, y) = (a, b) \/ (x, y) = (b, a).
Proof.
  destruct (sorted_key_cases x y) as [-> | ->], (sorted_key_cases a b) as [-> | ->];
    intros [= -> ->]; auto.
Qed.

(** *** Merging without repeated ticks *)

Lemma add_summaries_nodup (summaries existing : list Summary) :
  NoDup (map s_tick existing) ->
  NoDup (map s_tick (add_summaries existing summaries)).
Proof.
  unfold add_summaries. revert existing.
  induction summaries as [|s rest IH]; intros existing Hnd; cbn; [exact Hnd|].
  apply IH. destruct (existsb _ existing) eqn:Hdup; [exact Hnd|].
  rewrite map_app. cbn. apply NoDup_app. split; [exact Hnd|].
  split; [|apply NoDup_singleton].
  intros t Hin Hs. apply list_elem_of_In, in_map_iff in Hin as (e & <- & Hin).
  apply list_elem_of_In in Hs. destruct Hs as [Hs|[]].
  assert (Hsame : same_tick e s = true) by (apply same_tick_spec; congruence).
  assert (existsb (fun e => same_tick e s) existing = true)
    by (apply existsb_exists; eauto).
  congruence.
Qed.

Lemma add_summaries_in (summaries existing : list Summary) (s : Summary) :
  In s (add_summaries existing summaries) -> In s existing \/ In s summaries.
Proof.
  unfold add_summaries. revert existing.
  induction summaries as [|x rest IH]; intros existing; cbn; [auto|].
  intros Hin. apply IH in Hin as [Hin | Hin]; [|auto].
  destruct (existsb _ existing); [auto|].
  apply in_app_or in Hin as [Hin | [-> | []]]; auto.
Qed.

(** Every tick of the two lists is a tick of the merged list. *)
Lemma add_summaries_ticks (summaries existing : list Summary) (t : option Z) :
  In t (map s_tick existing) \/ In t (map s_tick summaries) ->
  In t (map s_tick (add_summaries existing summaries)).
Proof.
  unfold add_summaries. revert existing.
  induction summaries as [|x rest IH]; intros existing; cbn; [tauto|].
  intros Hin. apply IH.
  destruct (existsb _ existing) eqn:Hdup.
  - destruct Hin as [Hin | [<- | Hin]]; auto.
    apply existsb_exists in Hdup as (e & Hin & Hsame).
    apply same_tick_spec in Hsame. left. rewrite <- Hsame. now apply in_map.
  - rewrite map_app, in_app_iff. cbn. tauto.
Qed.

(** *** The groups *)

Lemma pairs_get_add (key : string * string) (l : list Summary)
    (pairs : list ((string * string) * list Summary)) (k' : string * string) :
  pairs_get (add_to_pairs key l pairs) k'
  = if key_eqb key k'
    then Some (add_summaries (default [] (pairs_get pairs key)) l)
    else pairs_get pairs k'.
Proof.
  induction pairs as [|[k m] rest IH].
  - unfold pairs_get. cbn. now destruct (key_eqb key k').
  - cbn [add_to_pairs]. destruct (key_eqb k key) eqn:Hk.
    + apply key_eqb_spec in Hk. subst k. unfold pairs_get. cbn.
      rewrite key_eqb_refl. cbn. now destruct (key_eqb key k').
    + unfold pairs_get in *. cbn. rewrite Hk.
      destruct (key_eqb k k') eqn:Hk'; [|exact IH].
      apply key_eqb_spec in Hk'. subst k'.
      destruct (key_eqb key k) eqn:Hk''; [|reflexivity].
      apply key_eqb_spec in Hk''. subst key. now rewrite key_eqb_refl in Hk.
Qed.

Lemma pairs_get_in (pairs : list ((string * string) * list Summary))
    (k : string * string) (m : list Summary) :
  pairs_get pairs k = Some m -> In (k, m) pairs.
Proof.
  unfold pairs_get. destruct (find _ pairs) as [[k0 m0]|] eqn:Hfind; [|discriminate].
  cbn. intros [= <-]. apply find_some in Hfind as [Hin Hk].
  apply key_eqb_spec in Hk. cbn in Hk. now subst k0.
Qed.

Lemma pairs_get_of_in (pairs : list ((string * string) * list Summary))
    (k : string * string) (m : list Summary) :
  NoDup (map fst pairs) -> In (k, m) pairs -> pairs_get pairs k = Some m.
Proof.
  unfold pairs_get. induction pairs as [|[k0 m0] rest IH]; cbn; [tauto|].
  intros Hnd. inversion Hnd as [|? ? Hnotin Hnd']; subst.
  intros [[= -> ->] | Hin].
  - now rewrite key_eqb_refl.
  - destruct (key_eqb k0 k) eqn:Hk; [|now apply IH].
    apply key_eqb_spec in Hk. subst k0. exfalso.
    apply Hnotin, list_elem_of_In. change k with (fst (k, m)). now apply in_map.
Qed.

Lemma add_to_pairs_keys (key : string * string) (l : list Summary)
    (pairs : list ((string * string) * list Summary)) (k' : string * string) :
  In k' (map fst (add_to_pairs key l pairs)) -> k' = key \/ In k' (map fst pairs).
Proof.
  induction pairs as [|[k m] rest IH]; cbn.
  - intros [<- | []]. now left.
  - destruct (key_eqb k key); cbn; [tauto|]. intros [<- | Hin]; [tauto|].
    apply IH in Hin. tauto.
Qed.

Lemma add_to_pairs_nodup (key : string * string) (l : list Summary)
    (pairs : list ((string * string) * list Summary)) :
  NoDup (map fst pairs) -> NoDup (map fst (add_to_pairs key l pairs)).
Proof.
  induction pairs as [|[k m] rest IH]; cbn; intros Hnd.
  - apply NoDup_singleton.
  - inversion Hnd as [|? ? Hnotin Hnd']; subst.
    destruct (key_eqb k key) eqn:Hk; cbn; [exact Hnd|].
    apply NoDup_cons_2; [|now apply IH].
    intros Hin. apply list_elem_of_In, add_to_pairs_keys in Hin as [-> | Hin].
    + now rewrite key_eqb_refl in Hk.
    + now apply Hnotin, list_elem_of_In.
Qed.

Lemma group_snoc (rels : list (string * string * list Summary))
    (a b : string) (l : list Summary) :
  group (rels ++ [(a, b, l)]) = add_to_pairs (sorted_key a b) l (group rels).
Proof. unfold group. now rewrite fold_left_app. Qed.

(** What the first loop leaves: distinct keys, each in order and with
    entries of distinct ticks taken from the rows of the pair; and a group
    for every row, with every tick of the row. *)
Lemma group_spec (rels : list (string * string * list Summary)) :
  NoDup (map fst (group rels))
  /\ (forall k m, pairs_get (group rels) k = Some m ->
        String.ltb (snd k) (fst k) = false
        /\ (exists x y l', In (x, y, l') rels /\ sorted_key x y = k)
        /\ NoDup (map s_tick m)
        /\ forall s, In s m ->
             exists x y l', In (x, y, l') rels /\ sorted_key x y = k /\ In s l')
  /\ (forall x y l', In (x, y, l') rels ->
        exists m, pairs_get (group rels) (sorted_key x y) = Some m
                  /\ forall s, In s l' -> In (s_tick s) (map s_tick m)).
Proof.
  induction rels as [|[[a b] l] rels (Hnd & Hgroup & Hrow)] using rev_ind.
  - split; [apply NoDup_nil_2|]. split; [discriminate | intros ? ? ? []].
  - rewrite group_snoc.
    assert (Hold : NoDup (map s_tick (default [] (pairs_get (group rels) (sorted_key a b))))
                   /\ forall s, In s (default [] (pairs_get (group rels) (sorted_key a b))) ->
                        exists x y l', In (x, y, l') rels
                                       /\ sorted_key x y = sorted_key a b /\ In s l').
    { destruct (pairs_get (group rels) (sorted_key a b)) as [m0|] eqn:Hm0; cbn.
      - destruct (Hgroup _ _ Hm0) as (_ & _ & H1 & H2). now split.
      - split; [apply NoDup_nil_2 | intros ? []]. }
    destruct Hold as [Hold_nd Hold_from].
    split; [now apply add_to_pairs_nodup|]. split.
    + intros k m. rewrite pairs_get_add.
      destruct (key_eqb (sorted_key a b) k) eqn:Hk.
      * apply key_eqb_spec in Hk. subst k. intros [= <-].
        split; [apply sorted_key_ordered|].
        split; [exists a, b, l; split; [apply in_or_app; right; now left | reflexivity]|].
        split; [now apply add_summaries_nodup|].
        intros s Hin. apply add_summaries_in in Hin as [Hin | Hin].
        -- destruct (Hold_from s Hin) as (x & y & l' & Hin' & Hkey & Hs).
           exists x, y, l'. split; [apply in_or_app; now left | now split].
        -- exists a, b, l. split; [apply in_or_app; right; now left | now split].
      * intros Hm. destruct (Hgroup _ _ Hm) as (Hord & (x0 & y0 & l0 & Hin0 & Hk0) & Hnd' & Hfrom).
        split; [exact Hord|].
        split; [exists x0, y0, l0; split; [apply in_or_app; now left | exact Hk0]|].
        split; [exact Hnd'|].
        intros s Hin. destruct (Hfrom s Hin) as (x & y & l' & Hin' & Hkey & Hs).
        exists x, y, l'. split; [apply in_or_app; now left | now split].
    + intros x y l' Hin. rewrite pairs_get_add.
      apply in_app_or in Hin as [Hin | [[= <- <- <-] | []]].
      * destruct (Hrow _ _ _ Hin) as (m & Hm & Hticks).
        destruct (key_eqb (sorted_key a b) (sorted_key x y)) eqn:Hk; [|eauto].
        apply key_eqb_spec in Hk. rewrite Hk, Hm. cbn.
        eexists. split; [reflexivity|]. intros s Hs.
        apply add_summaries_ticks. left. now apply Hticks.
      * rewrite key_eqb_refl. eexists. split; [reflexivity|]. intros s Hs.
        apply add_summaries_ticks. right. now apply in_map.
Qed.

(** *** The sort and the cut to the last 20 *)

Lemma insert_by_tick_perm (s : Summary) (l : list Summary) :
  insert_by_tick s l ≡ₚ s :: l.
Proof.
  induction l as [|x rest IH]; cbn; [reflexivity|].
  destruct (_ <? _); [reflexivity|]. rewrite IH. apply Permutation_swap.
Qed.

Lemma insert_by_tick_forall (P : Summary -> Prop) (s : Summary) (l : list Summary) :
  P s -> Forall P l -> Forall P (insert_by_tick s l).
Proof.
  intros Hs Hl. apply Forall_forall. intros y Hy.
  rewrite insert_by_tick_perm in Hy. apply elem_of_cons in Hy as [-> | Hy]; [exact Hs|].
  revert y Hy. now apply Forall_forall.
Qed.

Lemma insert_by_tick_ordered (s : Summary) (l : list Summary) :
  ordered_by_tick l -> ordered_by_tick (insert_by_tick s l).
Proof.
  induction l as [|x rest IH]; cbn; [intros _; split; [constructor | exact I]|].
  intros [Hx Hrest]. destruct (Z.ltb_spec (tick_key s) (tick_key x)) as [Hlt|Hge]; cbn.
  - split; [|now split]. constructor; [lia|].
    eapply Forall_impl; [exact Hx|]. cbn. intros; lia.
  - split; [|now apply IH]. now apply insert_by_tick_forall.
Qed.

Lemma sort_by_tick_spec (l : list Summary) :
  ordered_by_tick (sort_by_tick l) /\ sort_by_tick l ≡ₚ l.
Proof.
  unfold sort_by_tick.
  assert (Hgen : forall acc, ordered_by_tick acc ->
                   ordered_by_tick (fold_left (fun acc s => insert_by_tick s acc) l acc)
                   /\ fold_left (fun acc s => insert_by_tick s acc) l acc ≡ₚ acc ++ l).
  { induction l as [|s rest IH]; intros acc Hacc; cbn.
    - split; [exact Hacc | now rewrite app_nil_r].
    - destruct (IH (insert_by_tick s acc) (insert_by_tick_ordered s acc Hacc)) as [Ho Hp].
      split; [exact Ho|]. rewrite Hp, insert_by_tick_perm. cbn.
      apply Permutation_middle. }
  destruct (Hgen [] I) as [Ho Hp]. now split.
Qed.

Lemma ordered_by_tick_drop (n : nat) (l : list Summary) :
  ordered_by_tick l -> ordered_by_tick (drop n l).
Proof.
  revert l. induction n as [|n IH]; intros [|x rest]; cbn; auto.
  intros [_ Hrest]. now apply IH.
Qed.

(** The list the script writes for a group. *)
Lemma cut_spec (m : list Summary) :
  let kept := last_n 20 (sort_by_tick m) in
  (length kept <= 20)%nat
  /\ ordered_by_tick kept
  /\ (NoDup (map s_tick m) -> NoDup (map s_tick kept))
  /\ (forall s, In s kept -> In s m)
  /\ (forall t, In t (map s_tick m) -> In t (map s_tick kept) \/ length kept = 20%nat).
Proof.
  cbv zeta. unfold last_n. destruct (sort_by_tick_spec m) as [Hord Hperm].
  set (sorted := sort_by_tick m) in *.
  set (n := (length sorted - 20)%nat).
  assert (Hsplit : take n sorted ++ drop n sorted = sorted) by apply firstn_skipn.
  split; [rewrite length_drop; lia|]. split; [now apply ordered_by_tick_drop|].
  split; [|split].
  - intros Hnd. assert (Hnd' : NoDup (map s_tick sorted)).
    { eapply NoDup_Permutation_proper; [|exact Hnd]. now apply Permutation_map. }
    rewrite <- Hsplit, map_app in Hnd'. now apply NoDup_app in Hnd' as (_ & _ & H).
  - intros s Hin. apply list_elem_of_In. rewrite <- Hperm. apply list_elem_of_In.
    rewrite <- Hsplit. apply in_or_app. now right.
  - intros t Hin. destruct (Nat.le_gt_cases (length sorted) 20) as [Hshort|Hlong].
    + left. replace n with 0%nat by lia. cbn.
      apply list_elem_of_In. rewrite (Permutation_map s_tick Hperm).
      now apply list_elem_of_In.
    + right. rewrite length_drop. lia.
Qed.

(** *** The second loop *)

Lemma sync_other (groups : list ((string * string) * list Summary))
    (table : gmap (string * string) (list Summary)) (key : string * string) :
  (forall entry, In entry groups ->
     fst entry <> key /\ (snd (fst entry), fst (fst entry)) <> key) ->
  fold_left sync_pair groups table !! key = table !! key.
Proof.
  revert table. induction groups as [|[[k1 k2] m] rest IH]; intros table Hother;
    [reflexivity|].
  cbn [fold_left]. rewrite IH by (intros e He; apply Hother; now right).
  destruct (Hother ((k1, k2), m) ltac:(now left)) as [H1 H2]. cbn in H1, H2.
  unfold sync_pair. cbn [fst snd].
  rewrite lookup_insert_ne by congruence. now rewrite lookup_insert_ne by congruence.
Qed.

Lemma sync_result (groups : list ((string * string) * list Summary))
    (table : gmap (string * string) (list Summary)) (k : string * string)
    (m : list Summary) :
  NoDup (map fst groups) ->
  (forall entry, In entry groups ->
     String.ltb (snd (fst entry)) (fst (fst entry)) = false) ->
  In (k, m) groups ->
  fold_left sync_pair groups table !! k = Some (last_n 20 (sort_by_tick m))
  /\ fold_left sync_pair groups table !! (snd k, fst k)
     = Some (last_n 20 (sort_by_tick m)).
Proof.
  revert table. induction groups as [|[[k1 k2] m0] rest IH]; intros table Hnd Hord Hin;
    [destruct Hin|].
  cbn in Hnd. inversion Hnd as [|? ? Hnotin Hnd']; subst.
  destruct Hin as [[= <- <-] | Hin].
  - cbn [fold_left fst snd].
    assert (Hk : String.ltb k2 k1 = false)
      by exact (Hord ((k1, k2), m0) (or_introl eq_refl)).
    assert (Hrest : forall entry, In entry rest ->
                      fst entry <> (k1, k2) /\ fst entry <> (k2, k1)).
    { intros [[x y] mx] He. cbn. split.
      - intros [= -> ->]. apply Hnotin, list_elem_of_In.
        change (k1, k2) with (fst ((k1, k2), mx)). now apply in_map.
      - intros [= -> ->].
        assert (Hxy : String.ltb k1 k2 = false)
          by exact (Hord ((k2, k1), mx) (or_intror He)).
        assert (k2 = k1) by now apply ltb_total. subst k2.
        apply Hnotin, list_elem_of_In.
        change (k1, k1) with (fst ((k1, k1), mx)). now apply in_map. }
    split.
    + rewrite sync_other.
      * unfold sync_pair. cbn [fst snd].
        destruct (decide ((k2, k1) = (k1, k2))) as [Heq|Hne].
        -- rewrite Heq. apply lookup_insert_eq.
        -- rewrite lookup_insert_ne by exact Hne. apply lookup_insert_eq.
      * intros [[x y] mx] He. destruct (Hrest _ He) as [H1 H2]. cbn in *.
        split; [exact H1|]. intros [= -> ->]. now apply H2.
    + rewrite sync_other.
      * unfold sync_pair. cbn [fst snd]. apply lookup_insert_eq.
      * intros [[x y] mx] He. destruct (Hrest _ He) as [H1 H2]. cbn in *.
        split; [exact H2|]. intros [= -> ->]. now apply H1.
  - cbn [fold_left]. apply IH; [exact Hnd' | | exact Hin].
    intros e He. apply Hord. now right.
Qed.

End SummaryFacts.

Module SummaryProperties.
Import Text Store Summaries SummaryFacts.

(** X25.  After the sync script, for every row of its query the two
    directions of the pair hold the same list of summaries.  The list has
    at most 20 entries, in the order of their ticks and with no tick
    twice; every entry comes from a row of the pair, in one direction or
    the other; and every tick of the row is in the list unless the list
    is full.  A key that is neither a row of the query nor the reverse of
    one keeps what it had. *)
Theorem sync_gives_both_directions_the_same (rels : list (string * string * list Summary))
    (table : gmap (string * string) (list Summary)) (a b : string) (l : list Summary)
    (Hrow : In (a, b, l) rels) :
  (exists merged,
     sync rels table !! (a, b) = Some merged
     /\ sync rels table !! (b, a) = Some merged
     /\ (length merged <= 20)%nat
     /\ ordered_by_tick merged
     /\ NoDup (map s_tick merged)
     /\ (forall s, In s merged ->
           exists x y l', In (x, y, l') rels
                          /\ ((x, y) = (a, b) \/ (x, y) = (b, a)) /\ In s l')
     /\ (forall s, In s l ->
           In (s_tick s) (map s_tick merged) \/ length merged = 20%nat))
  /\ forall key,
       (forall x y l', In (x, y, l') rels -> key <> (x, y) /\ key <> (y, x)) ->
       sync rels table !! key = table !! key.
Proof.
  destruct (group_spec rels) as (Hnd & Hgroup & Hrows).
  assert (Hentry : forall k m, In (k, m) (group rels) ->
                     String.ltb (snd k) (fst k) = false
                     /\ exists x y l', In (x, y, l') rels /\ sorted_key x y = k).
  { intros k m He.
    destruct (Hgroup _ _ (pairs_get_of_in _ _ _ Hnd He)) as (H1 & H2 & _). now split. }
  split.
  - destruct (Hrows _ _ _ Hrow) as (m & Hm & Hticks).
    destruct (Hgroup _ _ Hm) as (_ & _ & Hnd_m & Hfrom).
    destruct (sync_result (group rels) table (sorted_key a b) m Hnd) as [Hfst Hsnd];
      [intros [k0 m0] He; now apply (Hentry k0 m0) | now apply pairs_get_in |].
    destruct (cut_spec m) as (Hlen & Hsorted & Hdistinct & Hsub & Hcover).
    exists (last_n 20 (sort_by_tick m)). unfold sync.
    split; [|split].
    + destruct (sorted_key_cases a b) as [Hk | Hk]; rewrite Hk in Hfst, Hsnd; assumption.
    + destruct (sorted_key_cases a b) as [Hk | Hk]; rewrite Hk in Hfst, Hsnd; assumption.
    + split; [exact Hlen|]. split; [exact Hsorted|]. split; [now apply Hdistinct|].
      split.
      * intros s Hs. destruct (Hfrom s (Hsub s Hs)) as (x & y & l' & Hin & Hkey & Hs').
        exists x, y, l'. split; [exact Hin|]. split; [|exact Hs'].
        now apply sorted_key_same_pair.
      * intros s Hs. apply Hcover. apply Hticks. exact Hs.
  - intros key Hkey. unfold sync. apply sync_other.
    intros [k m] He. cbn.
    destruct (Hentry k m He) as (_ & x & y & l' & Hin & Hk).
    destruct (Hkey _ _ _ Hin) as [H1 H2].
    destruct (sorted_key_cases x y) as [Hc | Hc]; rewrite Hc in Hk; subst k; cbn;
      split; congruence.
Qed.

Lemma sync_gives_both_directions_the_same_witness :
  let entry tick := {| s_tick := Some tick; s_title := Some "Plans"%string;
                       s_summary := Some "They talked about the pond."%string;
                       s_topics := [] |} in
  let rels := [("bob", "alice", [entry 7; entry 3]);
               ("alice", "bob", [entry 3; entry 5])]%string in
  In ("bob", "alice", [entry 7; entry 3])%string rels
  /\ sync rels ∅ !! ("alice", "bob")%string = Some [entry 3; entry 5; entry 7]
  /\ (exists merged,
        sync rels ∅ !! ("bob", "alice")%string = Some merged
        /\ sync rels ∅ !! ("alice", "bob")%string = Some merged
        /\ (length merged <= 20)%nat
        /\ ordered_by_tick merged
        /\ NoDup (map s_tick merged)
        /\ (forall s, In s merged ->
              exists x y l', In (x, y, l') rels
                             /\ ((x, y) = ("bob", "alice")%string
                                 \/ (x, y) = ("alice", "bob")%string)
                             /\ In s l')
        /\ (forall s, In s [entry 7; entry 3] ->
              In (s_tick s) (map s_tick merged) \/ length merged = 20%nat)).
Proof.
  cbv zeta. split; [now left|]. split; [vm_compute; reflexivity|].
  apply (sync_gives_both_directions_the_same _ ∅ "bob" "alice"). now left.
Defined.

End SummaryProperties.

Module VariantProperties.
Import Leveling Text Store Core Effects Look Invariants StoreFacts EvolutionFacts.

(** X26.  The two server variants answer alike and write alike whenever
    the action is not a talk and not an interaction with a rest spot:
    move, examine, an interaction with any other object, and every
    rejection before the action are the same in both. *)
Theorem variants_agree_outside_talk_and_rest (rq : Request) (db : DB)
    (Hno_talk : rq_action rq <> "talk"%string)
    (Hno_rest : forall me o,
        authenticate db (rq_charId rq) (rq_token rq) = Some me ->
        rq_action rq = "interact"%string ->
        interact_query db (rq_target rq) (c_x me) (c_y me) = Some o ->
        isRestSpot o = false) :
  Rich.handle_action rq db = Simple.handle_action rq db.
Proof.
  unfold Rich.handle_action, Simple.handle_action.
  destruct (authenticate db (rq_charId rq) (rq_token rq)) as [me|] eqn:Hauth;
    [|reflexivity].
  destruct (negb _); [reflexivity|].
  assert (Hd : Rich.dispatch db me rq = Simple.dispatch db me rq); [|now rewrite Hd].
  unfold Rich.dispatch, Simple.dispatch.
  destruct (rq_action rq =? "move")%string; [reflexivity|].
  destruct (rq_action rq =? "talk")%string eqn:Htalk;
    [now apply String.eqb_eq in Htalk|].
  destruct (rq_action rq =? "examine")%string; [reflexivity|].
  destruct (rq_action rq =? "interact")%string eqn:Hact; [|reflexivity].
  apply String.eqb_eq in Hact.
  unfold Rich.interact_case, Simple.interact_case. cbv zeta.
  destruct (interact_query db (rq_target rq) (c_x me) (c_y me)) as [o|] eqn:Ho;
    [|reflexivity].
  pose proof (Hno_rest me o eq_refl Hact Ho) as Hrest. unfold isRestSpot in Hrest.
  rewrite Hrest. reflexivity.
Qed.

Lemma variants_agree_outside_talk_and_rest_witness :
  let db := Meadow.meadow 5 [Meadow.newcomer "alice" 5 5] in
  let rq := Meadow.submit "alice" "move" (Some "north"%string) None None in
  rq_action rq <> "talk"%string
  /\ Rich.handle_action rq db = Simple.handle_action rq db.
Proof.
  cbv zeta. split; [discriminate|].
  apply variants_agree_outside_talk_and_rest; [discriminate|].
  intros me o _ Hact. discriminate Hact.
Defined.

(** X27.  Resting in the richer variant.  An interaction with a rest spot
    is accepted, sets the energy to the stored energy plus 50 at a
    cottage and plus 30 elsewhere, capped at max_energy (NULL read as
    100), awards 2 XP and leaves the position.  The stored energy is read
    as 0 when it is NULL, where talk and the regeneration of the clock
    read NULL as 100. *)
Theorem rest_restores_energy (db : DB) (rq : Request) (me : Character)
    (o : WorldObject)
    (Hkey : unique_ids db)
    (Hauth : authenticate db (rq_charId rq) (rq_token rq) = Some me)
    (Hturn : canAct db (rq_charId rq) = true)
    (Hact : rq_action rq = "interact"%string)
    (Hobj : interact_query db (rq_target rq) (c_x me) (c_y me) = Some o)
    (Hrest : isRestSpot o = true) :
  let energy :=
    Z.min (coalesce (c_max_energy me) 100) (coalesce (c_energy me) 0 + energyRestored o) in
  exists db' message xp me',
    Rich.handle_action rq db
    = (db', Accepted (Rested (o_name o) message (Some energy) (c_max_energy me) xp))
    /\ find_character db' (rq_charId rq) = Some me'
    /\ c_energy me' = Some energy
    /\ c_xp me' = c_xp me + 2
    /\ (c_x me', c_y me') = (c_x me, c_y me)
    /\ c_last_action_tick me' = w_tick (world db).
Proof.
  cbv zeta. pose proof (authenticate_unique _ _ _ _ Hkey Hauth) as Hme.
  unfold Rich.handle_action, Rich.dispatch. rewrite Hauth, Hturn, Hact. cbn [negb].
  change ("interact" =? "move")%string with false.
  change ("interact" =? "talk")%string with false.
  change ("interact" =? "examine")%string with false.
  change ("interact" =? "interact")%string with true. cbv iota.
  unfold Rich.interact_case. cbv zeta. rewrite Hobj.
  unfold isRestSpot in Hrest. rewrite Hrest.
  rewrite (find_character_update (rq_charId rq) (rq_charId rq) _ db)
    by (intros; reflexivity).
  rewrite Hme. cbn [fmap option_fmap option_map]. rewrite String.eqb_refl.
  cbn [c_energy c_max_energy set_energy].
  match goal with
  | |- context [awardXp ?i ?r ?d] =>
      destruct (awardXp i r d) as [db4 xp] eqn:Haward;
      pose proof (f_equal fst Haward) as Hdb4; cbn [fst] in Hdb4;
      assert (Hrow : find_character d i
                     = Some (set_energy
                               (fun c => Z.min (coalesce (c_max_energy c) 100)
                                           (coalesce (c_energy c) 0 + energyRestored o))
                               me))
  end.
  { find_update. rewrite Hme. cbn. now rewrite String.eqb_refl. }
  eexists _, _, xp, _. split; [reflexivity|].
  split.
  - unfold updateLastAction. find_update. rewrite <- Hdb4.
    rewrite (find_character_awardXp _ _ _ _ _ Hrow), Hrow. cbn.
    rewrite String.eqb_refl. reflexivity.
  - match goal with
    | |- context [awardXp ?i ?r ?d] =>
        destruct (awardXp_frame i r d) as (-> & _)
    end.
    unfold award_row. cbv zeta. destruct (_ <? _); cbn; repeat split; reflexivity.
Qed.

Lemma rest_restores_energy_witness :
  let unset :=
    {| c_id := "alice"; c_token := "token-alice"; c_name := "alice";
       c_life_story := None; c_significant_moments := None;
       c_x := 9; c_y := 7; c_hp := 100; c_max_hp := 100; c_xp := 0; c_level := 1;
       c_energy := None; c_max_energy := None; c_turn_interval := 1;
       c_last_action_tick := 0; c_is_active := true |}%string in
  let db := Meadow.meadow 5 [unset] in
  let rq := Meadow.submit "alice" "interact" None (Some "pond"%string) None in
  unique_ids db
  /\ authenticate db (rq_charId rq) (rq_token rq) = Some unset
  /\ canAct db (rq_charId rq) = true
  /\ interact_query db (rq_target rq) (c_x unset) (c_y unset) = Some Meadow.pond
  /\ isRestSpot Meadow.pond = true
  /\ or_default (c_energy unset) 100 = 100
  /\ exists db' message xp me',
       Rich.handle_action rq db
       = (db', Accepted (Rested "Pond" message (Some 30) None xp))
       /\ find_character db' "alice" = Some me'
       /\ c_energy me' = Some 30
       /\ c_xp me' = 2
       /\ (c_x me', c_y me') = (9, 7)
       /\ c_last_action_tick me' = 5.
Proof.
  cbv zeta.
  match goal with
  | |- unique_ids (Meadow.meadow 5 [?c]) /\ _ =>
      assert (Hkey : unique_ids (Meadow.meadow 5 [c]))
        by (unfold unique_ids; cbn; apply NoDup_singleton);
      pose proof (rest_restores_energy (Meadow.meadow 5 [c])
                    (Meadow.submit "alice" "interact" None (Some "pond"%string) None)
                    c Meadow.pond Hkey eq_refl eq_refl eq_refl eq_refl eq_refl)
        as Hrested
  end.
  split; [exact Hkey|].
  split; [reflexivity|]. split; [reflexivity|]. split; [reflexivity|].
  split; [reflexivity|]. split; [reflexivity|].
  exact Hrested.
Defined.

End VariantProperties.
